(** * Checkers board: a shallow embedding of [checkers/board.py]

    The Python class [Board] owns an 8x8 grid of cells, each holding either
    the integer [0] (empty) or a reference to a [Piece] object, together with
    four counters.  Pieces are mutable objects that are shared between the
    grid, the capture lists returned by [get_valid_moves] and the caller, so
    the embedding keeps an explicit object store ([heap]) and lets the grid
    hold references.

    Python exceptions are modelled by the [result] type; every grid access
    follows the semantics of Python list indexing (negative indices wrap
    once, anything else raises [IndexError]). *)

From Stdlib Require Import ZArith QArith Qpower Lia SpecFloat.
From stdpp Require Import base option list functions gmap.

Open Scope Z_scope.

(** ** Results of Python computations *)

Inductive exn := IndexError | ValueError | OverflowError.

Inductive result (A : Type) :=
  | Ok (a : A)
  | Raise (e : exn)
  | OutOfFuel.
Arguments Ok {A} a.
Arguments Raise {A} e.
Arguments OutOfFuel {A}.

#[global] Instance result_ret : MRet result := fun _ a => Ok a.
#[global] Instance result_bind : MBind result := fun _ _ f m =>
  match m with
  | Ok a => f a
  | Raise e => Raise e
  | OutOfFuel => OutOfFuel
  end.

(** ** [config.py] *)

(** Modelled from the spec: [config.py] is not among the sources; the spec
    fixes an 8x8 board ("row 0 or row 7", "ROWS-1"). *)
Definition ROWS : Z := 8.
Definition COLS : Z := 8.

(** Modelled from the spec: the two enumerated player colors of [config.py];
    the top color starts on rows 0-2, the bottom color on rows 5-7. *)
Inductive Color := PLAYER_COLOR_TOP | PLAYER_COLOR_BOTTOM.

#[global] Instance Color_eq_dec : EqDecision Color.
Proof. solve_decision. Defined.

(** ** [piece.py] *)

Record Piece := mkPiece {
  row : Z;
  col : Z;
  color : Color;
  king : bool
}.

(** Modelled from the spec: [Piece.__init__] of [piece.py], which is not among
    the sources: a piece is created at its starting cell and is not a king. *)
Definition Piece_init (r c : Z) (cl : Color) : Piece := mkPiece r c cl false.

(** Modelled from the spec: [Piece.move] of [piece.py]: "unconditionally
    overwrites position fields". *)
Definition Piece_move (p : Piece) (r c : Z) : Piece :=
  mkPiece r c (color p) (king p).

(** Modelled from the spec: [Piece.make_king] of [piece.py]: "sets king flag
    true; idempotent". *)
Definition make_king (p : Piece) : Piece :=
  mkPiece (row p) (col p) (color p) true.

(** ** Python lists *)

(** [l[i]] for a Python list: indices [-len .. -1] count from the end. *)
Definition py_index (len i : Z) : option nat :=
  let j := if i <? 0 then i + len else i in
  if (0 <=? j) && (j <? len) then Some (Z.to_nat j) else None.

Definition getitem {A} (l : list A) (i : Z) : result A :=
  match py_index (Z.of_nat (length l)) i with
  | Some j => match l !! j with Some x => Ok x | None => Raise IndexError end
  | None => Raise IndexError
  end.

(** [l[i] = x] *)
Definition setitem {A} (l : list A) (i : Z) (x : A) : result (list A) :=
  match py_index (Z.of_nat (length l)) i with
  | Some j => Ok (<[j := x]> l)
  | None => Raise IndexError
  end.

(** [range(start, stop, step)]: the number of elements is
    [ceil((stop - start) / step)] when that is positive; Python raises
    [ValueError] for a zero step. *)
Fixpoint range_from (n : nat) (start step : Z) : list Z :=
  match n with
  | O => []
  | S n => start :: range_from n (start + step) step
  end.

Definition py_range (start stop step : Z) : result (list Z) :=
  if step =? 0 then Raise ValueError
  else
    let n := if 0 <? step then (stop - start + step - 1) / step
             else (start - stop - step - 1) / (- step) in
    Ok (range_from (Z.to_nat n) start step).

(** ** The board *)

(** Object identity of a [Piece] instance. *)
Definition ref := nat.

(** A grid cell: [None] is the integer [0] of the source, [Some q] a
    reference to a piece. *)
Definition cell := option ref.

Record Board := mkBoard {
  heap : ref -> Piece;          (* the Piece objects, by identity *)
  board : list (list cell);
  red_left : Z;
  white_left : Z;
  red_kings : Z;
  white_kings : Z
}.

Abbreviation moves_t := (gmap (Z * Z) (list ref)).

Definition truthy {A} (l : list A) : bool :=
  match l with [] => false | _ => true end.

(** [g[r][c]] *)
Definition grid_get (g : list (list cell)) (r c : Z) : result cell :=
  l ← getitem g r; getitem l c.

(** [Board.get_piece]: [self.board[row][col]] *)
Definition get_piece (self : Board) (r c : Z) : result cell :=
  grid_get (board self) r c.

(** The same read under a bounds check that admits no index outside
    [0 .. ROWS-1] x [0 .. COLS-1], wrapped negative indices included. *)
Definition get_piece_checked (self : Board) (r c : Z) : result cell :=
  if (0 <=? r) && (r <? ROWS) && (0 <=? c) && (c <? COLS)
  then get_piece self r c else Raise IndexError.

(** ** Move generation *)

Inductive side := ToLeft | ToRight.

Section Traversal.
(** How a grid cell is read, and the color of a referenced piece. *)
Variable read : Z -> Z -> result cell.
Variable color_of : ref -> Color.

Section Loop.
Variables traverse_left traverse_right :
  Z -> Z -> Z -> Color -> Z -> list ref -> result moves_t.
Variable s : side.
Variables (step : Z) (cl : Color) (skipped : list ref).

(** [if left < 0: break] and [if right >= COLS: break] *)
Definition off_board (c : Z) : bool :=
  match s with ToLeft => c <? 0 | ToRight => COLS <=? c end.

(** [left -= 1] and [right += 1] *)
Definition next_col (c : Z) : Z :=
  match s with ToLeft => c - 1 | ToRight => c + 1 end.

(** The body of [for r in range(start, stop, step)], shared by the two
    mirror-image procedures; [rs] is what is left of the range, [c] the
    current [left] / [right], and every [break] returns [moves]. *)
Fixpoint traverse_loop (rs : list Z) (c : Z) (moves : moves_t)
    (last : list ref) : result moves_t :=
  match rs with
  | [] => Ok moves
  | r :: rs' =>
    if off_board c then Ok moves
    else
      current ← read r c;
      match current with
      | None =>
        if truthy skipped && negb (truthy last) then Ok moves
        else
          let moves :=
            if truthy skipped then <[(r, c) := last ++ skipped]> moves
            else <[(r, c) := last]> moves in
          if truthy last then
            let row :=
              if step =? -1 then Z.max (r - 3) 0 else Z.min (r + 3) ROWS in
            m ← traverse_left (r + step) row step cl (c - 1) last;
            let moves := m ∪ moves in
            m ← traverse_right (r + step) row step cl (c + 1) last;
            Ok (m ∪ moves)
          else Ok moves
      | Some current =>
        if decide (color_of current = cl) then Ok moves
        else traverse_loop rs' (next_col c) moves [current]
      end
  end.
End Loop.

(** The recursion of the two procedures into each other is bounded by
    [fuel]; [get_valid_moves] supplies enough of it (see
    [get_valid_moves_terminates]). *)
Fixpoint _traverse_left (fuel : nat) (start stop step : Z) (cl : Color)
    (left : Z) (skipped : list ref) {struct fuel} : result moves_t :=
  match fuel with
  | O => OutOfFuel
  | S fuel =>
    rs ← py_range start stop step;
    traverse_loop (_traverse_left fuel) (_traverse_right fuel)
      ToLeft step cl skipped rs left ∅ []
  end
with _traverse_right (fuel : nat) (start stop step : Z) (cl : Color)
    (right : Z) (skipped : list ref) {struct fuel} : result moves_t :=
  match fuel with
  | O => OutOfFuel
  | S fuel =>
    rs ← py_range start stop step;
    traverse_loop (_traverse_left fuel) (_traverse_right fuel)
      ToRight step cl skipped rs right ∅ []
  end.

Definition traverse_fuel : nat := Z.to_nat ROWS.

(** The body of [Board.get_valid_moves].  The default [skipped=[]] of the
    two procedures is a shared list object, but no call mutates it
    ([last + skipped] builds a new list), so it is empty at each of the four
    calls. *)

Definition get_valid_moves_with (piece : Piece) : result moves_t :=
  let moves : moves_t := ∅ in
  let left := col piece - 1 in
  let right := col piece + 1 in
  let r := row piece in
  moves ←
    (if bool_decide (color piece = PLAYER_COLOR_BOTTOM) || king piece then
       m ← _traverse_left traverse_fuel (r - 1) (Z.max (r - 3) (-1)) (-1)
             (color piece) left [];
       let moves := m ∪ moves in
       m ← _traverse_right traverse_fuel (r - 1) (Z.max (r - 3) (-1)) (-1)
             (color piece) right [];
       Ok (m ∪ moves)
     else Ok moves);
  moves ←
    (if bool_decide (color piece = PLAYER_COLOR_TOP) || king piece then
       m ← _traverse_left traverse_fuel (r + 1) (Z.min (r + 3) ROWS) 1
             (color piece) left [];
       let moves := m ∪ moves in
       m ← _traverse_right traverse_fuel (r + 1) (Z.min (r + 3) ROWS) 1
             (color piece) right [];
       Ok (m ∪ moves)
     else Ok moves);
  Ok moves.
End Traversal.

(** [Board.get_valid_moves(piece)] *)
Definition get_valid_moves (self : Board) (piece : ref) : result moves_t :=
  get_valid_moves_with (get_piece self) (fun q => color (heap self q))
    (heap self piece).

(** The same computation with every grid read bounds-checked. *)
Definition get_valid_moves_checked (self : Board) (piece : ref)
    : result moves_t :=
  get_valid_moves_with (get_piece_checked self) (fun q => color (heap self q))
    (heap self piece).


(** ** The other methods of [Board] *)

(** [for x in l: ...] over a state, stopping at the first exception. *)
Fixpoint foldM {A S} (f : S -> A -> result S) (l : list A) (s : S)
    : result S :=
  match l with
  | [] => Ok s
  | x :: l => s' ← f s x; foldM f l s'
  end.

(** [g[r][c] = x]: the row object [g[r]] is updated in place; the rows of a
    board are distinct list objects. *)
Definition set_piece (g : list (list cell)) (r c : Z) (x : cell)
    : result (list (list cell)) :=
  l ← getitem g r; l' ← setitem l c x; setitem g r l'.

(** ** Python floats

    A Python [float] is an IEEE 754 binary64 number.  Its arithmetic is that
    of the standard library's specification of binary floating point
    ([SpecFloat]) at precision 53 and exponent bound 1024: every operation
    returns the exact result rounded to the nearest float, ties to even. *)
Definition prec : Z := 53.
Definition emax : Z := 1024.
Definition float : Type := spec_float.

(** The conversion Python applies to the int operand of a mixed int/float
    operation: the nearest float, [OverflowError] when that is out of
    range. *)
Definition float_of_int (n : Z) : result float :=
  match binary_normalize prec emax n 0 false with
  | S754_infinity _ => Raise OverflowError
  | x => Ok x
  end.

(** The literal [0.5], that is [2^52 * 2^-53]. *)
Definition float_half : float := S754_finite false 4503599627370496 (-53).

(** [n * y] and [n + y] for an int [n] and a float [y]. *)
Definition int_mul_float (n : Z) (y : float) : result float :=
  x ← float_of_int n; Ok (SFmul prec emax x y).

Definition int_add_float (n : Z) (y : float) : result float :=
  x ← float_of_int n; Ok (SFadd prec emax x y).

(** [Board.evaluate].  The material difference is an int; the two products
    with [0.5], their difference and the final sum are float operations. *)
Definition evaluate (self : Board) : result float :=
  let material := white_left self - red_left self in
  wk ← int_mul_float (white_kings self) float_half;
  rk ← int_mul_float (red_kings self) float_half;
  int_add_float material (SFsub prec emax wk rk).

(** [Board.get_all_pieces]: row-major scan of the grid. *)
Definition get_all_pieces (self : Board) (cl : Color) : list ref :=
  flat_map (fun l =>
    flat_map (fun x : cell =>
      match x with
      | Some q => if decide (color (heap self q) = cl) then [q] else []
      | None => []
      end) l) (board self).

(** [Board.move].  The tuple assignment reads [board[row][col]] and then
    [board[piece.row][piece.col]] before it writes the two cells, left target
    first.  [piece.move] and [piece.make_king] update the shared object. *)
Definition move (self : Board) (piece : ref) (r c : Z) : result Board :=
  let p := heap self piece in
  dst ← get_piece self r c;
  src ← get_piece self (row p) (col p);
  g ← set_piece (board self) (row p) (col p) dst;
  g ← set_piece g r c src;
  let h := <[piece := Piece_move p r c]> (heap self) in
  if (r =? ROWS - 1) || (r =? 0) then
    let h := <[piece := make_king (h piece)]> h in
    if decide (color (h piece) = PLAYER_COLOR_TOP) then
      Ok (mkBoard h g (red_left self) (white_left self)
            (red_kings self) (white_kings self + 1))
    else
      Ok (mkBoard h g (red_left self) (white_left self)
            (red_kings self + 1) (white_kings self))
  else
    Ok (mkBoard h g (red_left self) (white_left self)
          (red_kings self) (white_kings self)).

(** [self.board[row].append(x)] *)
Definition append_cell (g : list (list cell)) (r : Z) (x : cell)
    : result (list (list cell)) :=
  l ← getitem g r; setitem g r (l ++ [x]).

(** [Board.create_board].  The state of the two loops is the board under
    construction and the next unused object identity: [Piece(...)] creates a
    new object. *)
Definition create_cell (r : Z) (st : Board * ref) (c : Z)
    : result (Board * ref) :=
  let '(self, next) := st in
  let put x h next' :=
    g ← append_cell (board self) r x;
    Ok (mkBoard h g (red_left self) (white_left self)
          (red_kings self) (white_kings self), next') in
  if c `mod` 2 =? (r + 1) `mod` 2 then
    if r <? 3 then
      put (Some next) (<[next := Piece_init r c PLAYER_COLOR_TOP]> (heap self))
        (S next)
    else if 4 <? r then
      put (Some next)
        (<[next := Piece_init r c PLAYER_COLOR_BOTTOM]> (heap self)) (S next)
    else put None (heap self) next
  else put None (heap self) next.

Definition create_row (st : Board * ref) (r : Z) : result (Board * ref) :=
  let '(self, next) := st in
  let self := mkBoard (heap self) (board self ++ [[]]) (red_left self)
                (white_left self) (red_kings self) (white_kings self) in
  cols ← py_range 0 COLS 1;
  foldM (create_cell r) cols (self, next).

Definition create_board (st : Board * ref) : result (Board * ref) :=
  rows ← py_range 0 ROWS 1;
  foldM create_row rows st.

(** [Board.__init__].  No object exists before the construction; the store
    is a total function, and identities not yet allocated map to a
    placeholder that no cell refers to. *)
Definition Board_init : result Board :=
  let self := mkBoard (fun _ => Piece_init 0 0 PLAYER_COLOR_TOP) [] 12 12 0 0 in
  st ← create_board (self, O);
  Ok st.1.

(** [Board.remove].  [piece != 0] holds for every [Piece] object. *)
Definition remove_one (self : Board) (piece : ref) : result Board :=
  let p := heap self piece in
  g ← set_piece (board self) (row p) (col p) None;
  if decide (color p = PLAYER_COLOR_BOTTOM) then
    Ok (mkBoard (heap self) g (red_left self - 1) (white_left self)
          (red_kings self) (white_kings self))
  else
    Ok (mkBoard (heap self) g (red_left self) (white_left self - 1)
          (red_kings self) (white_kings self)).

Definition remove (self : Board) (pieces : list ref) : result Board :=
  foldM remove_one pieces self.

(** [Board.winner]; [None] is Python's [None]. *)
Definition winner (self : Board) : option Color :=
  if red_left self <=? 0 then Some PLAYER_COLOR_TOP
  else if white_left self <=? 0 then Some PLAYER_COLOR_BOTTOM
  else None.

(** * Vocabulary of the statements *)

Definition dcol (s : side) : Z :=
  match s with ToLeft => -1 | ToRight => 1 end.

(** Number of rows between [start] (inclusive) and [stop] (exclusive) in the
    direction of travel. *)
Definition span (step start stop : Z) : Z :=
  if step =? -1 then start - stop else stop - start.

(** The stop row handed to the recursive calls. *)
Definition clip (step r : Z) : Z :=
  if step =? -1 then Z.max (r - 3) 0 else Z.min (r + 3) ROWS.

(** The two procedures as one function of the side. *)
Definition traverse (read : Z -> Z -> result cell) (color_of : ref -> Color)
    (s : side) :=
  match s with
  | ToLeft => _traverse_left read color_of
  | ToRight => _traverse_right read color_of
  end.
Arguments traverse : simpl never.

(** The entries a call can write, for the ranges of at most two rows that
    [get_valid_moves] and the recursive calls use: a plain move to the
    first cell, a jump over the first cell onto the second, and whatever
    the two continuations started from the landing cell write. *)
Inductive written (read : Z -> Z -> result cell) (color_of : ref -> Color)
    (cl : Color) :
    side -> Z -> Z -> Z -> Z -> list ref -> Z * Z -> list ref -> Prop :=
  | written_move s start stop step c :
      1 <= span step start stop ->
      off_board s c = false ->
      read start c = Ok None ->
      written read color_of cl s start stop step c [] (start, c) []
  | written_jump s start stop step c skipped q :
      2 <= span step start stop ->
      off_board s c = false ->
      read start c = Ok (Some q) ->
      color_of q <> cl ->
      off_board s (next_col s c) = false ->
      read (start + step) (next_col s c) = Ok None ->
      written read color_of cl s start stop step c skipped
        (start + step, next_col s c) (q :: skipped)
  | written_chain s start stop step c skipped q s' k v :
      2 <= span step start stop ->
      off_board s c = false ->
      read start c = Ok (Some q) ->
      color_of q <> cl ->
      off_board s (next_col s c) = false ->
      read (start + step) (next_col s c) = Ok None ->
      written read color_of cl s' (start + step + step)
        (clip step (start + step)) step (next_col s' (next_col s c)) [q] k v ->
      written read color_of cl s start stop step c skipped k v.
Arguments written_move {read color_of cl}.
Arguments written_jump {read color_of cl}.
Arguments written_chain {read color_of cl}.

(** One jump from [from] over the piece [q] of the other color, which
    stands diagonally next to [from] in row direction [step] and column
    direction [d], onto the empty cell [to] behind it. *)
Definition hop (read : Z -> Z -> result cell) (color_of : ref -> Color)
    (cl : Color) (step : Z) (from : Z * Z) (d : Z) (q : ref) (to : Z * Z)
    : Prop :=
  (d = -1 \/ d = 1) /\
  read (from.1 + step) (from.2 + d) = Ok (Some q) /\
  color_of q <> cl /\
  read (from.1 + 2 * step) (from.2 + 2 * d) = Ok None /\
  to = (from.1 + 2 * step, from.2 + 2 * d).

(** A chain of jumps, all in row direction [step]; the list holds the
    jumped pieces, the one jumped last first. *)
Inductive jumps (read : Z -> Z -> result cell) (color_of : ref -> Color)
    (cl : Color) (step : Z) : Z * Z -> list ref -> Z * Z -> Prop :=
  | jumps_one from d q to :
      hop read color_of cl step from d q to ->
      jumps read color_of cl step from [q] to
  | jumps_cons from d q mid full to :
      hop read color_of cl step from d q mid ->
      jumps read color_of cl step mid full to ->
      jumps read color_of cl step from (full ++ [q]) to.
Arguments jumps_one {read color_of cl step}.
Arguments jumps_cons {read color_of cl step}.

Definition col_ok (s : side) (c : Z) : Prop :=
  match s with ToLeft => c < COLS | ToRight => 0 <= c end.

(** Arguments from which a traversal with [fuel] reads board rows only and
    never exhausts the fuel. *)
Definition rows_ok (fuel : nat) (start stop step : Z) : Prop :=
  (1 <= fuel)%nat /\
  ((step = -1 /\ -1 <= stop /\ start < ROWS /\ start + 2 <= Z.of_nat fuel)
   \/ (step = 1 /\ stop <= ROWS /\ 0 <= start /\ ROWS + 1 - start <= Z.of_nat fuel)).

(** The row directions [get_valid_moves] explores for a piece. *)
Definition allowed (p : Piece) (step : Z) : Prop :=
  (step = -1 /\ (color p = PLAYER_COLOR_BOTTOM \/ king p = true))
  \/ (step = 1 /\ (color p = PLAYER_COLOR_TOP \/ king p = true)).

(** The stop row [get_valid_moves] passes for a direction. *)
Definition top_stop (step r : Z) : Z :=
  if step =? -1 then Z.max (r - 3) (-1) else Z.min (r + 3) ROWS.

(** A grid of [ROWS] rows of [COLS] cells. *)
Definition full_grid (self : Board) : Prop :=
  length (board self) = Z.to_nat ROWS /\
  Forall (fun l => length l = Z.to_nat COLS) (board self).

Definition on_board (r c : Z) : Prop := 0 <= r < ROWS /\ 0 <= c < COLS.

(** A piece is live when the grid cell at its recorded position holds it. *)
Definition live (self : Board) (q : ref) : Prop :=
  on_board (row (heap self q)) (col (heap self q)) /\
  get_piece self (row (heap self q)) (col (heap self q)) = Ok (Some q).

(** The formula for [evaluate] as the specification words it, literally:
    [(top_live - bottom_live) + 0.5*(top_kings - bottom_kings)
     - 0.5*(bottom_kings)]. *)
Definition evaluate_as_worded (self : Board) : Q :=
  (inject_Z (white_left self - red_left self)
   + (1 # 2) * inject_Z (white_kings self - red_kings self)
   - (1 # 2) * inject_Z (red_kings self))%Q.

(** A store for boards that are given by their counters only. *)
Definition no_pieces : ref -> Piece := fun _ => Piece_init 0 0 PLAYER_COLOR_TOP.

(** Twelve pieces a side, one bottom-color king. *)
Definition one_red_king : Board := mkBoard no_pieces [] 12 12 1 0.

(** The board [Board()] constructs. *)
Definition initial_board : Board :=
  match Board_init with
  | Ok self => self
  | _ => mkBoard no_pieces [] 0 0 0 0
  end.

(** What [create_board] puts on the cell [(r, c)]. *)
Definition initial_cell (self : Board) (r c : Z) : Prop :=
  if c `mod` 2 =? (r + 1) `mod` 2 then
    if r <? 3 then
      exists q, get_piece self r c = Ok (Some q)
                /\ heap self q = mkPiece r c PLAYER_COLOR_TOP false
    else if 4 <? r then
      exists q, get_piece self r c = Ok (Some q)
                /\ heap self q = mkPiece r c PLAYER_COLOR_BOTTOM false
    else get_piece self r c = Ok None
  else get_piece self r c = Ok None.

(** Number of pieces of a color in a list of references. *)
Definition count_color (self : Board) (cl : Color) (pieces : list ref) : Z :=
  Z.of_nat (length (filter (fun q => color (heap self q) = cl) pieces)).

(** The colors of the pieces a board refers to. *)
Definition color_in (self : Board) (q : ref) : Color := color (heap self q).

(** Jumps and chains of jumps over the cells of a board, read under the
    bounds check: every cell involved lies on the board. *)
Definition board_hop (self : Board) (cl : Color) :=
  hop (get_piece_checked self) (color_in self) cl.

Definition board_jumps (self : Board) (cl : Color) :=
  jumps (get_piece_checked self) (color_in self) cl.

(** ** Example positions *)

Definition empty_grid : list (list cell) :=
  replicate (Z.to_nat ROWS) (replicate (Z.to_nat COLS) None).

Definition put (g : list (list cell)) (r c : Z) (q : ref) : list (list cell) :=
  alter (fun l => <[Z.to_nat c := Some q]> l) (Z.to_nat r) g.

(** The board whose pieces are the given objects, each on the cell it
    records; the reference of a piece is its index in the list. *)
Definition board_of (pieces : list Piece) (rl wl rk wk : Z) : Board :=
  mkBoard (fun q => nth q pieces (Piece_init 0 0 PLAYER_COLOR_TOP))
    (foldr (fun qp g => put g (row qp.2) (col qp.2) qp.1) empty_grid
       (imap pair pieces))
    rl wl rk wk.

(** A bottom-color king one row below the top edge. *)
Definition king_near_edge : Board :=
  board_of [mkPiece 1 2 PLAYER_COLOR_BOTTOM true] 1 0 1 0.

(** A bottom-color man at (5,4) with a double jump up to (1,0). *)
Definition double_jump_up : Board :=
  board_of [mkPiece 5 4 PLAYER_COLOR_BOTTOM false;
            mkPiece 4 3 PLAYER_COLOR_TOP false;
            mkPiece 2 1 PLAYER_COLOR_TOP false] 1 2 0 0.

(** A bottom-color man at (4,4) below two top-color men placed for a double
    jump that would end on row 0, at (0,0). *)
Definition double_jump_to_row_0 : Board :=
  board_of [mkPiece 4 4 PLAYER_COLOR_BOTTOM false;
            mkPiece 3 3 PLAYER_COLOR_TOP false;
            mkPiece 1 1 PLAYER_COLOR_TOP false] 1 2 0 0.

(** The same position mirrored: a top-color man at (3,4) with a double jump
    down to row 7, at (7,0). *)
Definition double_jump_to_row_7 : Board :=
  board_of [mkPiece 3 4 PLAYER_COLOR_TOP false;
            mkPiece 4 3 PLAYER_COLOR_BOTTOM false;
            mkPiece 6 1 PLAYER_COLOR_BOTTOM false] 2 1 0 0.

(** A bottom-color man at (6,3) with two double jumps, one to each side,
    that both end on (2,3). *)
Definition two_routes : Board :=
  board_of [mkPiece 6 3 PLAYER_COLOR_BOTTOM false;
            mkPiece 5 2 PLAYER_COLOR_TOP false;
            mkPiece 3 2 PLAYER_COLOR_TOP false;
            mkPiece 5 4 PLAYER_COLOR_TOP false;
            mkPiece 3 4 PLAYER_COLOR_TOP false] 1 4 0 0.


(** A bottom-color king in the middle of an otherwise empty board. *)
Definition lone_king : Board :=
  board_of [mkPiece 4 3 PLAYER_COLOR_BOTTOM true] 1 0 1 0.

(** ** The board invariant *)

(** Every piece on the grid records the cell that holds it. *)
Definition positions_agree (self : Board) : Prop :=
  forall r c q, on_board r c -> get_piece self r c = Ok (Some q) ->
    row (heap self q) = r /\ col (heap self q) = c.

(** No piece stands on two cells.  (That a cell holds at most one piece is
    built into the type of cells.) *)
Definition one_cell_each (self : Board) : Prop :=
  forall r c r' c' q, on_board r c -> on_board r' c' ->
    get_piece self r c = Ok (Some q) -> get_piece self r' c' = Ok (Some q) ->
    r = r' /\ c = c'.

(** The live-piece counters count the pieces on the grid. *)
Definition counters_agree (self : Board) : Prop :=
  Z.of_nat (length (get_all_pieces self PLAYER_COLOR_BOTTOM)) = red_left self
  /\ Z.of_nat (length (get_all_pieces self PLAYER_COLOR_TOP)) = white_left self.

Definition board_inv (self : Board) : Prop :=
  full_grid self /\ positions_agree self /\ one_cell_each self
  /\ counters_agree self.

(** The pieces of color [cl] a cell contributes to [get_all_pieces]. *)
Definition cell_pieces (color_of : ref -> Color) (cl : Color) (x : cell)
    : list ref :=
  match x with
  | Some q => if decide (color_of q = cl) then [q] else []
  | None => []
  end.

(** The initial board after [remove] was given its piece 0 twice. *)
Definition removed_twice : Board :=
  match remove initial_board [0%nat; 0%nat] with
  | Ok self => self
  | _ => initial_board
  end.

(** The initial board after piece 8 at (2,1) was removed. *)
Definition piece_8_removed : Board :=
  match remove initial_board [8%nat] with
  | Ok self => self
  | _ => initial_board
  end.

(** ... and after piece 4 was then moved from (1,0) onto the cell that
    piece 8 left. *)
Definition stale_piece : Board :=
  match move piece_8_removed 4%nat 2 1 with
  | Ok self => self
  | _ => initial_board
  end.

(** ... and after the removed piece 8 was then moved to (3,2). *)
Definition stale_piece_moved : Board :=
  match move stale_piece 8%nat 3 2 with
  | Ok self => self
  | _ => initial_board
  end.

(** ** Vocabulary of the further properties *)

(** [row == ROWS - 1 or row == 0], the test of [move]. *)
Definition edge_row (r : Z) : bool := (r =? ROWS - 1) || (r =? 0).

(** The object of a piece after [move] took it to [(r, c)]. *)
Definition moved_piece (p : Piece) (r c : Z) : Piece :=
  if edge_row r then make_king (Piece_move p r c) else Piece_move p r c.

(** A bottom-color man at (7,6) with a triple jump up to (1,0). *)
Definition triple_jump_up : Board :=
  board_of [mkPiece 7 6 PLAYER_COLOR_BOTTOM false;
            mkPiece 6 5 PLAYER_COLOR_TOP false;
            mkPiece 4 3 PLAYER_COLOR_TOP false;
            mkPiece 2 1 PLAYER_COLOR_TOP false] 1 3 0 0.

(** The other side. *)
Definition flip (s : side) : side :=
  match s with ToLeft => ToRight | ToRight => ToLeft end.

(** The column that mirrors [c] across the vertical axis of the board. *)
Definition mirror_col (c : Z) : Z := COLS - 1 - c.

(** The board seen in a mirror: every row reversed, every piece recording
    the mirrored column. *)
Definition mirror_board (self : Board) : Board :=
  mkBoard
    (fun q => mkPiece (row (heap self q)) (mirror_col (col (heap self q)))
                (color (heap self q)) (king (heap self q)))
    (reverse <$> board self)
    (red_left self) (white_left self) (red_kings self) (white_kings self).

(** ** Drawing *)

(** [draw_squares] and [draw] act on a pygame window only.  The window is
    modelled by the list of drawing calls made on it, oldest first.  The
    colors and the square size come from [config.py], which is not among the
    sources, and are parameters here; [piece.draw(win)] belongs to
    [piece.py] and is recorded as one call. *)
Section Drawing.
Variable rgb : Type.
Variables BOARD_COLOR1 BOARD_COLOR2 : rgb.
Variable SQUARE_SIZE : Z.

Inductive draw_call :=
  | Fill (c : rgb)                       (* win.fill(c) *)
  | Rect (c : rgb) (x y w h : Z)         (* pygame.draw.rect(win, c, (x, y, w, h)) *)
  | PieceDraw (q : ref).                 (* piece.draw(win) *)

(** [Board.draw_squares] *)
Definition draw_squares (win : list draw_call) : result (list draw_call) :=
  let win := win ++ [Fill BOARD_COLOR1] in
  rows ← py_range 0 ROWS 1;
  foldM (fun win r =>
           cols ← py_range (r `mod` 2) COLS 2;
           foldM (fun win c =>
                    Ok (win ++ [Rect BOARD_COLOR2 (r * SQUARE_SIZE)
                                  (c * SQUARE_SIZE) SQUARE_SIZE SQUARE_SIZE]))
             cols win)
    rows win.

(** [Board.draw] *)
Definition draw (self : Board) (win : list draw_call)
    : result (list draw_call) :=
  win ← draw_squares win;
  rows ← py_range 0 ROWS 1;
  foldM (fun win r =>
           cols ← py_range 0 COLS 1;
           foldM (fun win c =>
                    piece ← get_piece self r c;
                    match piece with
                    | Some q => Ok (win ++ [PieceDraw q])
                    | None => Ok win
                    end)
             cols win)
    rows win.
End Drawing.
Arguments Fill {rgb} c.
Arguments Rect {rgb} c x y w h.
Arguments PieceDraw {rgb} q.

(** The cells [draw_squares] paints, in the order of the calls. *)
Definition painted_cells : list (Z * Z) :=
  flat_map (fun r => map (pair r) (range_from 4 (r `mod` 2) 2))
    (range_from 8 0 1).

(** The references held by a cell, as a list. *)
Definition cell_refs (x : cell) : list ref :=
  match x with Some q => [q] | None => [] end.

(** The pieces on the grid in row-major order. *)
Definition grid_pieces (self : Board) : list ref :=
  flat_map (flat_map cell_refs) (board self).

(** ** Floats and the numbers they stand for *)

(** The rational a finite float stands for. *)
Definition float_value (x : float) : option Q :=
  match x with
  | S754_zero _ => Some 0%Q
  | S754_finite s m e =>
      Some (inject_Z (cond_Zopp s (Zpos m)) * Qpower 2 e)%Q
  | _ => None
  end.

(** [evaluate] returns a float that stands for exactly [q]. *)
Definition evaluate_returns (self : Board) (q : Q) : Prop :=
  exists f q',
    evaluate self = Ok f /\ float_value f = Some q' /\ (q' == q)%Q.

(** Every counter is at most [B] in absolute value. *)
Definition counters_within (B : Z) (self : Board) : Prop :=
  Z.abs (red_left self) <= B /\ Z.abs (white_left self) <= B
  /\ Z.abs (red_kings self) <= B /\ Z.abs (white_kings self) <= B.

(** [p] with [n] zero bits appended. *)
Definition shiftp (p : positive) (n : Z) : positive :=
  match n with Zpos k => Pos.iter xO p k | _ => p end.

(** The float [h * 2^e] in canonical form, for [|h| < 2^53]. *)
Definition finite_of (s : bool) (p : positive) (e : Z) : float :=
  S754_finite s (shiftp p (prec - Zpos (digits2_pos p)))
    (e - (prec - Zpos (digits2_pos p))).

Definition fl (h e : Z) : float :=
  match h with
  | 0 => S754_zero false
  | Zpos p => finite_of false p e
  | Zneg p => finite_of true p e
  end.

(** Counters beyond the reach of exact float arithmetic. *)
Definition huge_material : Board :=
  mkBoard no_pieces [] 0 (2 ^ 53 + 1) 0 0.

Definition huge_kings : Board := mkBoard no_pieces [] 12 12 0 (2 ^ 1024).

(** * Facts about the traversal *)

Lemma py_range_unit start stop step :
  step = -1 \/ step = 1 ->
  py_range start stop step
  = Ok (range_from (Z.to_nat (span step start stop)) start step).
Proof.
  intros [-> | ->]; unfold py_range, span; simpl; do 2 f_equal.
  - f_equal. change (- -1) with 1. rewrite Z.div_1_r. lia.
  - f_equal. rewrite Z.div_1_r. lia.
Qed.

Lemma next_col_dcol s c : next_col s c = c + dcol s.
Proof. destruct s; simpl; lia. Qed.

Section TraversalFacts.
Variable read : Z -> Z -> result cell.
Variable color_of : ref -> Color.
Variable cl : Color.

Lemma traverse_S s fuel start stop step c skipped :
  traverse read color_of s (S fuel) start stop step cl c skipped
  = (rs ← py_range start stop step;
     traverse_loop read color_of (traverse read color_of ToLeft fuel)
       (traverse read color_of ToRight fuel) s step cl skipped rs c ∅ []).
Proof. by destruct s. Qed.

Lemma traverse_0 s start stop step c skipped :
  traverse read color_of s O start stop step cl c skipped = OutOfFuel.
Proof. by destruct s. Qed.

Lemma clip_span step r :
  step = -1 \/ step = 1 -> span step (r + step) (clip step r) <= 2.
Proof. intros [-> | ->]; unfold span, clip, ROWS; simpl; lia. Qed.

Lemma traverse_written fuel : forall s start stop step c skipped m k v,
  step = -1 \/ step = 1 ->
  span step start stop <= 2 ->
  traverse read color_of s fuel start stop step cl c skipped = Ok m ->
  m !! k = Some v ->
  written read color_of cl s start stop step c skipped k v.
Proof.
  induction fuel as [|fuel IH]; intros s start stop step c skipped m k v
    Hstep Hspan Hrun Hk.
  { by rewrite traverse_0 in Hrun. }
  rewrite traverse_S, py_range_unit in Hrun by done. simpl in Hrun.
  destruct (Z.to_nat (span step start stop)) as [|[|[|n]]] eqn:Hn;
    [ | | | lia ]; simpl in Hrun.
  - by simplify_eq.
  - destruct (off_board s c) eqn:Hoff; [by simplify_eq|].
    destruct (read start c) as [[q|]| |] eqn:Hrd; simpl in Hrun; [ | |done..].
    + destruct (decide (color_of q = cl)); by simplify_eq.
    + destruct skipped; simpl in Hrun; simplify_eq.
      rewrite lookup_insert in Hk. case_decide; simplify_eq.
      apply written_move; [lia|done..].
  - destruct (off_board s c) eqn:Hoff; [by simplify_eq|].
    destruct (read start c) as [[q|]| |] eqn:Hrd; simpl in Hrun; [ | |done..].
    + destruct (decide (color_of q = cl)); [by simplify_eq|].
      destruct (off_board s (next_col s c)) eqn:Hoff'; [by simplify_eq|].
      destruct (read (start + step) (next_col s c)) as [[q'|]| |] eqn:Hrd';
        simpl in Hrun; [ | |done..].
      { destruct (decide (color_of q' = cl)); by simplify_eq. }
      replace (truthy skipped && false) with false in Hrun
        by (by destruct skipped).
      destruct (traverse read color_of ToLeft fuel _ _ _ _ _ _) as [ml| |] eqn:Hl;
        simpl in Hrun; [|done..].
      destruct (traverse read color_of ToRight fuel _ _ _ _ _ _) as [mr| |] eqn:Hr;
        simpl in Hrun; [|done..].
      simplify_eq.
      apply lookup_union_Some_raw in Hk as [Hk | [_ Hk]].
      { eapply (written_chain _ _ _ _ _ _ q ToRight); eauto; [lia|].
        eapply IH; eauto using clip_span. }
      apply lookup_union_Some_raw in Hk as [Hk | [_ Hk]].
      { eapply (written_chain _ _ _ _ _ _ q ToLeft); eauto; [lia|].
        eapply IH; eauto using clip_span. }
      destruct skipped; simpl in Hk;
        rewrite lookup_insert in Hk; case_decide; simplify_eq;
        apply written_jump; auto; lia.
    + destruct skipped; simpl in Hrun; simplify_eq.
      rewrite lookup_insert in Hk. case_decide; simplify_eq.
      apply written_move; [lia|done..].
Qed.

(** Conversely every entry of [written] is a key of the result (its value
    may have been overwritten by a later [update]). *)
Lemma traverse_complete s start stop step c skipped k v :
  written read color_of cl s start stop step c skipped k v ->
  forall fuel m,
  step = -1 \/ step = 1 ->
  traverse read color_of s fuel start stop step cl c skipped = Ok m ->
  is_Some (m !! k).
Proof.
  induction 1 as [s start stop step c Hspan Hoff Hrd
                 |s start stop step c skipped q Hspan Hoff Hrd Hq Hoff' Hrd'
                 |s start stop step c skipped q s' k v Hspan Hoff Hrd Hq
                    Hoff' Hrd' _ IH];
    intros [|fuel] m Hstep Hrun; try (by rewrite traverse_0 in Hrun);
    rewrite traverse_S, py_range_unit in Hrun by done; simpl in Hrun.
  - destruct (Z.to_nat (span step start stop)) as [|n] eqn:Hn; [lia|].
    simpl in Hrun. rewrite Hoff, Hrd in Hrun. simpl in Hrun.
    simplify_eq. rewrite lookup_insert_eq. eauto.
  - destruct (Z.to_nat (span step start stop)) as [|[|n]] eqn:Hn;
      [lia..|].
    simpl in Hrun. rewrite Hoff, Hrd in Hrun. simpl in Hrun.
    destruct (decide (color_of q = cl)); [done|].
    rewrite Hoff', Hrd' in Hrun. simpl in Hrun.
    replace (truthy skipped && false) with false in Hrun
      by (by destruct skipped).
    destruct (traverse read color_of ToLeft fuel _ _ _ _ _ _) as [ml| |];
      simpl in Hrun; [|done..].
    destruct (traverse read color_of ToRight fuel _ _ _ _ _ _) as [mr| |];
      simpl in Hrun; [|done..].
    simplify_eq. rewrite !lookup_union_is_Some. right; right.
    destruct skipped; simpl; rewrite lookup_insert_eq; eauto.
  - destruct (Z.to_nat (span step start stop)) as [|[|n]] eqn:Hn;
      [lia..|].
    simpl in Hrun. rewrite Hoff, Hrd in Hrun. simpl in Hrun.
    destruct (decide (color_of q = cl)); [done|].
    rewrite Hoff', Hrd' in Hrun. simpl in Hrun.
    replace (truthy skipped && false) with false in Hrun
      by (by destruct skipped).
    destruct (traverse read color_of ToLeft fuel _ _ _ _ _ _) as [ml| |] eqn:Hl;
      simpl in Hrun; [|done..].
    destruct (traverse read color_of ToRight fuel _ _ _ _ _ _) as [mr| |] eqn:Hr;
      simpl in Hrun; [|done..].
    simplify_eq. rewrite !lookup_union_is_Some.
    destruct s'; [right; left | left]; eapply IH; eauto.
Qed.

(** Rows of the written keys: they lie on the side of [start] given by
    [step], and strictly before the clipped stop rows. *)
Lemma written_rows_up s start stop c skipped k v :
  written read color_of cl s start stop (-1) c skipped k v ->
  k.1 <= start /\ (0 <= stop -> 1 <= k.1) /\ (-1 <= stop -> 0 <= k.1).
Proof.
  remember (-1) as step eqn:Hstep.
  induction 1 as [s start stop step c Hspan Hoff Hrd
                 |s start stop step c skipped q Hspan Hoff Hrd Hq Hoff' Hrd'
                 |s start stop step c skipped q s' k v Hspan Hoff Hrd Hq
                    Hoff' Hrd' _ IH]; subst step;
    unfold span, clip in *; simpl in *; lia.
Qed.

Lemma written_rows_down s start stop c skipped k v :
  written read color_of cl s start stop 1 c skipped k v ->
  start <= k.1 /\ (stop <= ROWS -> k.1 < ROWS).
Proof.
  remember 1 as step eqn:Hstep.
  induction 1 as [s start stop step c Hspan Hoff Hrd
                 |s start stop step c skipped q Hspan Hoff Hrd Hq Hoff' Hrd'
                 |s start stop step c skipped q s' k v Hspan Hoff Hrd Hq
                    Hoff' Hrd' _ IH]; subst step;
    unfold span, clip, ROWS in *; simpl in *; lia.
Qed.

(** A written key was read as an empty cell. *)
Lemma written_empty s start stop step c skipped k v :
  written read color_of cl s start stop step c skipped k v -> read k.1 k.2 = Ok None.
Proof. induction 1; auto. Qed.

(** ** Capture chains *)

Lemma jumps_length step from full to :
  jumps read color_of cl step from full to -> (1 <= length full)%nat.
Proof. induction 1; rewrite ?length_app; simpl; lia. Qed.

Lemma jumps_row step from full to :
  jumps read color_of cl step from full to ->
  to.1 = from.1 + 2 * Z.of_nat (length full) * step.
Proof.
  induction 1 as [from d q to (_&_&_&_&->)
                 |from d q mid full to (_&_&_&_&->) _ IH]; simpl.
  - lia.
  - rewrite IH, length_app. simpl. lia.
Qed.

Lemma hop_intro s start step c q :
  read start c = Ok (Some q) ->
  color_of q <> cl ->
  read (start + step) (next_col s c) = Ok None ->
  hop read color_of cl step (start - step, c - dcol s) (dcol s) q (start + step, next_col s c).
Proof.
  intros Hrd Hq Hrd'. unfold hop; simpl. rewrite next_col_dcol in *.
  replace (start - step + step) with start by lia.
  replace (c - dcol s + dcol s) with c by lia.
  replace (start - step + 2 * step) with (start + step) by lia.
  replace (c - dcol s + 2 * dcol s) with (c + dcol s) by lia.
  repeat split; auto. destruct s; auto.
Qed.

(** What a written entry is: a plain move onto the first cell, or the end
    of a chain of jumps from the cell the traversal started next to, with
    the last two jumped pieces as its value. *)
Lemma written_jumps s start stop step c skipped k v :
  written read color_of cl s start stop step c skipped k v ->
  (length skipped <= 1)%nat ->
  (skipped = [] /\ v = [] /\ k = (start, c))
  \/ (exists full, jumps read color_of cl step (start - step, c - dcol s) full k
                  /\ v = take 2 (full ++ skipped)).
Proof.
  induction 1 as [s start stop step c Hspan Hoff Hrd
                 |s start stop step c skipped q Hspan Hoff Hrd Hq Hoff' Hrd'
                 |s start stop step c skipped q s' k v Hspan Hoff Hrd Hq
                    Hoff' Hrd' _ IH]; intros Hsk.
  - by left.
  - right. exists [q]. split.
    + eapply jumps_one, hop_intro; eauto.
    + destruct skipped as [|? [|]]; simpl in *; done || lia.
  - right. destruct IH as [(? & _) | (full & Hj & ->)]; [simpl; lia|done|].
    assert ((start + step + step - step,
             next_col s' (next_col s c) - dcol s')
            = (start + step, next_col s c)) as Hmid
      by (f_equal; rewrite ?(next_col_dcol s'); lia).
    rewrite Hmid in Hj.
    exists (full ++ [q]). split.
    + eapply jumps_cons; [eapply hop_intro|]; eauto.
    + apply jumps_length in Hj.
      symmetry. apply take_app_le. rewrite length_app. simpl. lia.
Qed.
End TraversalFacts.

(** ** Reading through a stricter bounds check *)

Section Refinement.
Variables read1 read2 : Z -> Z -> result cell.
Variable color_of : ref -> Color.
Hypothesis read_refines : forall r c x, read1 r c = Ok x -> read2 r c = Ok x.

Lemma traverse_loop_refines tl1 tr1 tl2 tr2 s step cl skipped :
  (forall a b c d e f m, tl1 a b c d e f = Ok m -> tl2 a b c d e f = Ok m) ->
  (forall a b c d e f m, tr1 a b c d e f = Ok m -> tr2 a b c d e f = Ok m) ->
  forall rs c moves last m,
  traverse_loop read1 color_of tl1 tr1 s step cl skipped rs c moves last
    = Ok m ->
  traverse_loop read2 color_of tl2 tr2 s step cl skipped rs c moves last
    = Ok m.
Proof.
  intros Hl Hr. induction rs as [|r rs IH]; intros c moves last m Hrun;
    simpl in *; [done|].
  destruct (off_board s c); [done|].
  destruct (read1 r c) as [x| |] eqn:Hrd; simpl in Hrun; [|done..].
  rewrite (read_refines _ _ _ Hrd). simpl.
  destruct x as [q|].
  - destruct (decide (color_of q = cl)); auto.
  - destruct (truthy skipped && negb (truthy last)); [done|].
    destruct (truthy last); [|done].
    destruct (tl1 _ _ _ _ _ _) as [ml| |] eqn:Hml; simpl in Hrun; [|done..].
    rewrite (Hl _ _ _ _ _ _ _ Hml). simpl.
    destruct (tr1 _ _ _ _ _ _) as [mr| |] eqn:Hmr; simpl in Hrun; [|done..].
    by rewrite (Hr _ _ _ _ _ _ _ Hmr).
Qed.

Lemma traverse_refines fuel : forall s start stop step cl c skipped m,
  traverse read1 color_of s fuel start stop step cl c skipped = Ok m ->
  traverse read2 color_of s fuel start stop step cl c skipped = Ok m.
Proof.
  induction fuel as [|fuel IH]; intros s start stop step cl c skipped m Hrun.
  { by rewrite traverse_0 in Hrun. }
  rewrite traverse_S in *.
  destruct (py_range start stop step) as [rs| |]; simpl in *; [|done..].
  eapply traverse_loop_refines; [| |exact Hrun]; intros; by apply IH.
Qed.
End Refinement.

(** ** Termination without exception on a full grid *)

Lemma elem_of_range_from n : forall start step r,
  r ∈ range_from n start step ->
  exists i, 0 <= i < Z.of_nat n /\ r = start + i * step.
Proof.
  induction n as [|n IH]; intros start step r Hr; simpl in Hr.
  - by apply elem_of_nil in Hr.
  - apply elem_of_cons in Hr as [-> | Hr].
    + exists 0. lia.
    + apply IH in Hr as (i & Hi & ->). exists (i + 1). lia.
Qed.

Section Totality.
Variable read : Z -> Z -> result cell.
Variable color_of : ref -> Color.
Hypothesis read_total : forall r c,
  0 <= r < ROWS -> 0 <= c < COLS -> exists x, read r c = Ok x.

Lemma traverse_loop_total tl tr s step cl skipped : forall rs c moves last,
  Forall (fun r => 0 <= r < ROWS /\
            (forall c' sk, c' < COLS ->
               exists m, tl (r + step) (clip step r) step cl c' sk = Ok m) /\
            (forall c' sk, 0 <= c' ->
               exists m, tr (r + step) (clip step r) step cl c' sk = Ok m))
    rs ->
  col_ok s c ->
  exists m,
    traverse_loop read color_of tl tr s step cl skipped rs c moves last
    = Ok m.
Proof.
  induction rs as [|r rs IH]; intros c moves last Hrs Hc; simpl; [eauto|].
  apply Forall_cons in Hrs as ((Hr & Hl & Hrr) & Hrs).
  destruct (off_board s c) eqn:Hoff; [eauto|].
  assert (0 <= c < COLS) as Hc'.
  { destruct s; simpl in *; unfold COLS in *; lia. }
  destruct (read_total r c Hr Hc') as [[q|] ->]; simpl.
  - destruct (decide (color_of q = cl)); [eauto|].
    apply IH; [done|]. destruct s; simpl in *; lia.
  - destruct (truthy skipped && negb (truthy last)); [eauto|].
    destruct (truthy last); [|eauto].
    fold (clip step r).
    destruct (Hl (c - 1) last) as [ml ->]; [lia|]. simpl.
    destruct (Hrr (c + 1) last) as [mr ->]; [lia|]. simpl. eauto.
Qed.

Lemma traverse_total fuel : forall s start stop step cl c skipped,
  rows_ok fuel start stop step ->
  col_ok s c ->
  exists m, traverse read color_of s fuel start stop step cl c skipped = Ok m.
Proof.
  induction fuel as [|fuel IH]; intros s start stop step cl c skipped
    [Hfuel Hrows] Hc; [lia|].
  rewrite traverse_S, py_range_unit by (destruct Hrows; tauto). simpl.
  apply traverse_loop_total; [|done].
  apply Forall_forall. intros r Hr.
  apply elem_of_range_from in Hr as (i & Hi & ->).
  assert (i < span step start stop) as Hi' by lia.
  unfold rows_ok, span, clip, ROWS in *.
  destruct Hrows as [(-> & Hstop & Hstart & Hf) | (-> & Hstop & Hstart & Hf)];
    simpl in *.
  - split; [lia|]. split; intros c' sk Hc';
      (apply IH; [|done]); (split; [lia|left; lia]).
  - split; [lia|]. split; intros c' sk Hc';
      (apply IH; [|done]); (split; [lia|right; lia]).
Qed.
End Totality.

(** ** [get_valid_moves] in terms of the written entries *)

Lemma top_stop_span step r :
  step = -1 \/ step = 1 -> span step (r + step) (top_stop step r) <= 2.
Proof. intros [-> | ->]; unfold span, top_stop, ROWS; simpl; lia. Qed.

Section ValidMoves.
Variable read : Z -> Z -> result cell.
Variable color_of : ref -> Color.
Variable p : Piece.

Abbreviation top_call s step :=
  (traverse read color_of s traverse_fuel (row p + step)
     (top_stop step (row p)) step (color p) (col p + dcol s) []).

(** The four calls in the order the source makes them. *)
Lemma get_valid_moves_with_eq :
  get_valid_moves_with read color_of p
  = (moves ←
       (if bool_decide (color p = PLAYER_COLOR_BOTTOM) || king p then
          ml ← top_call ToLeft (-1); mr ← top_call ToRight (-1);
          Ok (mr ∪ (ml ∪ ∅))
        else Ok ∅);
     if bool_decide (color p = PLAYER_COLOR_TOP) || king p then
       ml ← top_call ToLeft 1; mr ← top_call ToRight 1;
       Ok (mr ∪ (ml ∪ moves))
     else Ok moves).
Proof.
  unfold get_valid_moves_with.
  change (_traverse_left read color_of) with (traverse read color_of ToLeft).
  change (_traverse_right read color_of) with (traverse read color_of ToRight).
  change (row p - 1) with (row p + -1).
  change (col p - 1) with (col p + dcol ToLeft).
  change (col p + 1) with (col p + dcol ToRight).
  change (Z.max (row p - 3) (-1)) with (top_stop (-1) (row p)).
  change (Z.min (row p + 3) ROWS) with (top_stop 1 (row p)).
  destruct (bool_decide (color p = PLAYER_COLOR_BOTTOM) || king p);
    destruct (bool_decide (color p = PLAYER_COLOR_TOP) || king p);
    simpl;
    repeat (match goal with
            | |- context [traverse ?a ?b ?s ?f ?x ?y ?z ?c ?l ?k] =>
              destruct (traverse a b s f x y z c l k); simpl
            end); done.
Qed.

Ltac split_calls H :=
  repeat (match type of H with
          | context [traverse ?a ?b ?s ?f ?x ?y ?z ?c ?l ?k] =>
            let E := fresh "Hcall" in
            destruct (traverse a b s f x y z c l k) eqn:E;
            simpl in H; [|done..]
          end).

Lemma get_valid_moves_with_written m k v :
  get_valid_moves_with read color_of p = Ok m ->
  m !! k = Some v ->
  exists s step,
    allowed p step /\
    written read color_of (color p) s (row p + step) (top_stop step (row p))
      step (col p + dcol s) [] k v.
Proof.
  rewrite get_valid_moves_with_eq. intros Hrun Hk.
  assert (forall s step m', allowed p step -> top_call s step = Ok m' ->
            m' !! k = Some v ->
            exists s step, allowed p step /\
              written read color_of (color p) s (row p + step)
                (top_stop step (row p)) step (col p + dcol s) [] k v) as Hw.
  { intros s step m' Hal Hcall Hm'. exists s, step. split; [done|].
    eapply traverse_written; eauto.
    - destruct Hal as [[-> _]|[-> _]]; auto.
    - apply top_stop_span. destruct Hal as [[-> _]|[-> _]]; auto. }
  destruct (bool_decide (color p = PLAYER_COLOR_BOTTOM) || king p) eqn:Hup;
    destruct (bool_decide (color p = PLAYER_COLOR_TOP) || king p) eqn:Hdown;
    simpl in Hrun; split_calls Hrun; simplify_eq;
    repeat (apply lookup_union_Some_raw in Hk as [Hk | [_ Hk]]);
    try (by rewrite lookup_empty in Hk);
    rewrite ?orb_true_iff, ?bool_decide_eq_true in *;
    match goal with
    | Hc : traverse _ _ ?s _ (_ + ?step) _ _ _ _ _ = Ok ?m' ,
      Hk : ?m' !! _ = Some _ |- _ =>
      apply (Hw s step m'); [unfold allowed; tauto|exact Hc|exact Hk]
    end.
Qed.

Lemma get_valid_moves_with_complete m s step k v :
  get_valid_moves_with read color_of p = Ok m ->
  allowed p step ->
  written read color_of (color p) s (row p + step) (top_stop step (row p))
    step (col p + dcol s) [] k v ->
  is_Some (m !! k).
Proof.
  rewrite get_valid_moves_with_eq. intros Hrun Hal Hw.
  assert (forall m', top_call s step = Ok m' -> is_Some (m' !! k)) as Hc.
  { intros m' Hcall. eapply traverse_complete; eauto.
    destruct Hal as [[-> _]|[-> _]]; auto. }
  assert (bool_decide (color p = PLAYER_COLOR_BOTTOM) || king p = true
          /\ step = -1
          \/ bool_decide (color p = PLAYER_COLOR_TOP) || king p = true
             /\ step = 1) as Hdir.
  { rewrite !orb_true_iff, !bool_decide_eq_true. unfold allowed in Hal.
    tauto. }
  destruct (bool_decide (color p = PLAYER_COLOR_BOTTOM) || king p) eqn:Hup;
    destruct (bool_decide (color p = PLAYER_COLOR_TOP) || king p) eqn:Hdown;
    simpl in Hrun; split_calls Hrun; simplify_eq;
    rewrite ?lookup_union_is_Some;
    destruct Hdir as [[? ->]|[? ->]]; try done; destruct s; auto 10.
Qed.
End ValidMoves.

Lemma get_valid_moves_with_total read color_of p :
  (forall r c, 0 <= r < ROWS -> 0 <= c < COLS -> exists x, read r c = Ok x) ->
  0 <= row p < ROWS -> 0 <= col p < COLS ->
  exists m, get_valid_moves_with read color_of p = Ok m.
Proof.
  intros Hread Hrow Hcol. rewrite get_valid_moves_with_eq.
  assert (forall s step, step = -1 \/ step = 1 ->
            exists m, traverse read color_of s traverse_fuel (row p + step)
              (top_stop step (row p)) step (color p) (col p + dcol s) [] = Ok m)
    as Hcall.
  { intros s step Hstep. apply traverse_total; [done| |].
    - unfold rows_ok, traverse_fuel, top_stop, ROWS in *.
      change (Z.to_nat 8) with 8%nat.
      destruct Hstep as [-> | ->]; simpl; lia.
    - destruct s; simpl; unfold COLS in *; lia. }
  destruct (bool_decide (color p = PLAYER_COLOR_BOTTOM) || king p);
    destruct (bool_decide (color p = PLAYER_COLOR_TOP) || king p); simpl;
    repeat (match goal with
            | |- context [traverse ?a ?b ?s ?f (?x + ?step) ?y ?z ?c ?l ?k] =>
              let E := fresh "Hc" in
              destruct (Hcall s step) as [? E]; [auto|];
              simpl in E |- *; rewrite E; simpl
            end); eauto.
Qed.

Lemma get_valid_moves_with_refines read1 read2 color_of p m :
  (forall r c x, read1 r c = Ok x -> read2 r c = Ok x) ->
  get_valid_moves_with read1 color_of p = Ok m ->
  get_valid_moves_with read2 color_of p = Ok m.
Proof.
  intros Href. rewrite !get_valid_moves_with_eq. intros Hrun.
  destruct (bool_decide (color p = PLAYER_COLOR_BOTTOM) || king p);
    destruct (bool_decide (color p = PLAYER_COLOR_TOP) || king p);
    simpl in *;
    repeat (match type of Hrun with
            | context [traverse read1 ?b ?s ?f ?x ?y ?z ?c ?l ?k] =>
              let E := fresh "Hcall" in
              destruct (traverse read1 b s f x y z c l k) eqn:E;
              simpl in Hrun; [|done..];
              rewrite (traverse_refines read1 read2 _ Href _ _ _ _ _ _ _ _ _ E);
              simpl
            end); done.
Qed.

Lemma py_index_nonneg len i :
  0 <= i -> py_index len i = if i <? len then Some (Z.to_nat i) else None.
Proof.
  intros Hi. unfold py_index.
  destruct (i <? 0) eqn:H0; [lia|]. by destruct (0 <=? i) eqn:H1; [|lia].
Qed.

Lemma getitem_nonneg {A} (l : list A) i x :
  0 <= i -> getitem l i = Ok x <-> l !! Z.to_nat i = Some x.
Proof.
  intros Hi. unfold getitem. rewrite py_index_nonneg by done.
  destruct (i <? Z.of_nat (length l)) eqn:Hlt.
  - destruct (l !! Z.to_nat i); naive_solver.
  - split; [done|]. intros Hl%lookup_lt_Some. lia.
Qed.

Lemma grid_get_nonneg g r c x :
  0 <= r -> 0 <= c ->
  grid_get g r c = Ok x
  <-> exists l, g !! Z.to_nat r = Some l /\ l !! Z.to_nat c = Some x.
Proof.
  intros Hr Hc. unfold grid_get. split.
  - destruct (getitem g r) as [l| |] eqn:Hl; simpl; [|done..].
    intros Hx. exists l. by rewrite <- !getitem_nonneg.
  - intros (l & Hl & Hx). apply getitem_nonneg in Hl as ->; [|done].
    simpl. by apply getitem_nonneg.
Qed.

Lemma get_piece_checked_Ok self r c x :
  get_piece_checked self r c = Ok x
  <-> on_board r c /\ get_piece self r c = Ok x.
Proof.
  unfold get_piece_checked, on_board.
  destruct ((0 <=? r) && (r <? ROWS) && (0 <=? c) && (c <? COLS)) eqn:Hb.
  - repeat (apply andb_true_iff in Hb as [Hb ?]). split; [|tauto].
    intros ->. split; [lia|done].
  - split; [done|]. intros [[? ?] _].
    rewrite !andb_false_iff in Hb. lia.
Qed.

Lemma get_piece_checked_total self r c :
  full_grid self -> 0 <= r < ROWS -> 0 <= c < COLS ->
  exists x, get_piece_checked self r c = Ok x.
Proof.
  intros [Hlen Hrows] Hr Hc.
  destruct (lookup_lt_is_Some_2 (board self) (Z.to_nat r)) as [l Hl]; [lia|].
  pose proof (Forall_lookup_1 _ _ _ _ Hrows Hl) as Hll. simpl in Hll.
  destruct (lookup_lt_is_Some_2 l (Z.to_nat c)) as [x Hx]; [lia|].
  exists x. apply get_piece_checked_Ok. split; [done|].
  apply grid_get_nonneg; [lia..|]. eauto.
Qed.

Lemma get_valid_moves_checked_total self piece :
  full_grid self ->
  on_board (row (heap self piece)) (col (heap self piece)) ->
  exists m, get_valid_moves_checked self piece = Ok m.
Proof.
  intros Hgrid [Hr Hc]. apply get_valid_moves_with_total; [|done..].
  intros r c ? ?. by apply get_piece_checked_total.
Qed.

Lemma get_valid_moves_checked_agrees self piece m :
  get_valid_moves_checked self piece = Ok m ->
  get_valid_moves self piece = Ok m.
Proof.
  apply get_valid_moves_with_refines.
  intros r c x Hx. by apply get_piece_checked_Ok in Hx as [_ ?].
Qed.

(** [get_valid_moves] returns a mapping for every piece standing on a full
    grid, and reads no index outside the grid while computing it. *)
Lemma get_valid_moves_terminates self piece :
  full_grid self ->
  on_board (row (heap self piece)) (col (heap self piece)) ->
  exists m, get_valid_moves_checked self piece = Ok m
            /\ get_valid_moves self piece = Ok m.
Proof.
  intros Hgrid Hp.
  destruct (get_valid_moves_checked_total self piece Hgrid Hp) as [m Hm].
  eauto using get_valid_moves_checked_agrees.
Qed.

(** * Binary64 arithmetic on small dyadic numbers *)

Lemma iter_pos_iter {A} (f : A -> A) p x :
  SpecFloat.iter_pos f p x = Pos.iter f x p.
Proof.
  revert x. induction p as [p IH|p IH|]; intros x; simpl.
  - rewrite !IH. by rewrite <- !Pos.iter_swap.
  - by rewrite !IH.
  - done.
Qed.

Lemma Zpos_shiftp p n : 0 <= n -> Zpos (shiftp p n) = Zpos p * 2 ^ n.
Proof.
  intros Hn. destruct n as [|k|k]; simpl; [lia| |lia]. clear Hn.
  induction k as [|k IH] using Pos.peano_ind.
  - simpl. lia.
  - rewrite Pos.iter_succ, Pos2Z.inj_xO, IH.
    rewrite Pos2Z.inj_succ, Z.pow_succ_r by lia. lia.
Qed.

Lemma digits_shiftp p n :
  0 <= n -> Zpos (digits2_pos (shiftp p n)) = Zpos (digits2_pos p) + n.
Proof.
  intros Hn. destruct n as [|k|k]; simpl; [lia| |lia]. clear Hn.
  induction k as [|k IH] using Pos.peano_ind.
  - simpl. lia.
  - rewrite Pos.iter_succ. simpl. lia.
Qed.

Lemma shiftp_inj_value p q n :
  0 <= n -> Zpos q = Zpos p * 2 ^ n -> q = shiftp p n.
Proof. intros Hn Hq. rewrite <- Zpos_shiftp in Hq by done. by injection Hq. Qed.

Lemma shr_shiftp m n e :
  0 <= n ->
  shr {| shr_m := Zpos (shiftp m n); shr_r := false; shr_s := false |} e n
  = ({| shr_m := Zpos m; shr_r := false; shr_s := false |}, e + n).
Proof.
  intros Hn. destruct n as [|k|k]; simpl; [by rewrite Z.add_0_r| |lia].
  f_equal. rewrite iter_pos_iter. clear Hn.
  induction k as [|k IH] using Pos.peano_ind.
  - done.
  - rewrite !Pos.iter_succ, <- Pos.iter_swap. simpl. exact IH.
Qed.

Lemma digits2_pos_bound p n :
  0 <= n -> Zpos p < 2 ^ n -> Zpos (digits2_pos p) <= n.
Proof.
  revert n. induction p as [p IH|p IH|]; intros n Hn Hp.
  - assert (n <> 0) by (intros ->; simpl in Hp; lia).
    replace n with (Z.succ (n - 1)) in Hp by lia.
    rewrite Z.pow_succ_r in Hp by lia.
    specialize (IH (n - 1)). simpl. lia.
  - assert (n <> 0) by (intros ->; simpl in Hp; lia).
    replace n with (Z.succ (n - 1)) in Hp by lia.
    rewrite Z.pow_succ_r in Hp by lia.
    specialize (IH (n - 1)). simpl. lia.
  - assert (n <> 0) by (intros ->; simpl in Hp; lia). simpl. lia.
Qed.

(** Rounding a mantissa that carries [n] trailing zero bits beyond a
    canonical one is exact. *)
Lemma binary_round_aux_exact s mc ec n :
  canonical_mantissa prec emax mc ec = true ->
  ec <= emax - prec ->
  0 <= n ->
  binary_round_aux prec emax s (Zpos (shiftp mc n)) (ec - n) loc_Exact
  = S754_finite s mc ec.
Proof.
  intros Hcan Hmax Hn. unfold canonical_mantissa in Hcan.
  apply Z.eqb_eq in Hcan.
  unfold binary_round_aux, shr_fexp. cbn [shr_record_of_loc Zdigits2].
  rewrite digits_shiftp by done.
  replace (Zpos (digits2_pos mc) + n + (ec - n))
    with (Zpos (digits2_pos mc) + ec) by lia.
  rewrite Hcan. replace (ec - (ec - n)) with n by lia.
  rewrite shr_shiftp by done. cbn [shr_m loc_of_shr_record round_nearest_even].
  cbn [shr_record_of_loc Zdigits2].
  replace (ec - n + n) with ec by lia. rewrite Hcan, Z.sub_diag.
  cbn [shr shr_m].
  by apply Z.leb_le in Hmax as ->.
Qed.

Lemma binary_round_aux_canonical s mc ec :
  canonical_mantissa prec emax mc ec = true ->
  ec <= emax - prec ->
  binary_round_aux prec emax s (Zpos mc) ec loc_Exact = S754_finite s mc ec.
Proof.
  intros Hcan Hmax.
  pose proof (binary_round_aux_exact s mc ec 0 Hcan Hmax) as H.
  rewrite Z.sub_0_r in H. by apply H.
Qed.

Lemma binary_round_exact s M E mc ec :
  canonical_mantissa prec emax mc ec = true ->
  ec <= emax - prec ->
  (ec <= E /\ Zpos mc = Zpos M * 2 ^ (E - ec))
  \/ (E <= ec /\ Zpos M = Zpos mc * 2 ^ (ec - E)) ->
  binary_round prec emax s M E = S754_finite s mc ec.
Proof.
  intros Hcan Hmax Hval. unfold binary_round.
  pose proof Hcan as Hcan'. unfold canonical_mantissa in Hcan'.
  apply Z.eqb_eq in Hcan'.
  destruct Hval as [[Hle Hmc] | [Hle HM]].
  - apply shiftp_inj_value in Hmc as ->; [|lia].
    rewrite digits_shiftp in Hcan' by lia.
    replace (Zpos (digits2_pos M) + (E - ec) + ec)
      with (Zpos (digits2_pos M) + E) in Hcan' by lia.
    rewrite Hcan'. unfold shl_align, shiftp.
    destruct (ec - E) as [|d|d] eqn:Hd; [| lia |].
    + replace (E - ec) with 0 by lia. replace E with ec by lia.
      apply (binary_round_aux_canonical s M ec); [|done].
      unfold canonical_mantissa. apply Z.eqb_eq.
      replace E with ec in Hcan' by lia. done.
    + replace (E - ec) with (Zpos d) by lia.
      apply binary_round_aux_canonical; [|done].
      rewrite <- Hcan. f_equal. unfold shiftp.
      by replace (E - ec) with (Zpos d) by lia.
  - apply shiftp_inj_value in HM as ->; [|lia].
    rewrite digits_shiftp by lia.
    replace (Zpos (digits2_pos mc) + (ec - E) + E)
      with (Zpos (digits2_pos mc) + ec) by lia.
    rewrite Hcan'. unfold shl_align.
    destruct (ec - E) as [|d|d] eqn:Hd; [| |lia].
    + simpl shiftp. replace E with ec by lia.
      by apply binary_round_aux_canonical.
    + replace E with (ec - Zpos d) by lia.
      by apply (binary_round_aux_exact s mc ec (Zpos d)).
Qed.

Lemma binary_round_fl s p n e :
  Zpos p < 2 ^ 53 -> 0 <= n -> -1022 <= e <= 971 ->
  binary_round prec emax s (shiftp p n) (e - n) = finite_of s p e.
Proof.
  intros Hp Hn He. unfold finite_of.
  pose proof (digits2_pos_bound p 53 ltac:(lia) Hp) as Hd.
  set (d := Zpos (digits2_pos p)) in *.
  apply binary_round_exact.
  - unfold canonical_mantissa. apply Z.eqb_eq.
    rewrite digits_shiftp by (unfold prec; lia). fold d.
    unfold fexp, SpecFloat.emin, prec, emax. lia.
  - unfold prec, emax. lia.
  - rewrite !Zpos_shiftp by (unfold prec; lia). unfold prec.
    destruct (Z_le_gt_dec (e - (53 - d)) (e - n)) as [Hle|Hgt].
    + left. split; [done|].
      rewrite <- Z.mul_assoc, <- Z.pow_add_r by lia. do 2 f_equal. lia.
    + right. split; [lia|].
      rewrite <- Z.mul_assoc, <- Z.pow_add_r by lia. do 2 f_equal. lia.
Qed.

Lemma binary_normalize_fl h n e :
  Z.abs h < 2 ^ 53 -> 0 <= n -> -1022 <= e <= 971 ->
  binary_normalize prec emax (h * 2 ^ n) (e - n) false = fl h e.
Proof.
  intros Hh Hn He. destruct h as [|p|p]; simpl Z.mul.
  - done.
  - rewrite <- Zpos_shiftp by done. simpl.
    apply binary_round_fl; [lia|done..].
  - change (Z.neg p) with (- Zpos p). rewrite Z.mul_opp_l.
    rewrite <- Zpos_shiftp by done. simpl.
    apply binary_round_fl; [lia|done..].
Qed.

Lemma fl_shift h k e :
  Z.abs (h * 2 ^ k) < 2 ^ 53 -> 0 <= k -> -1022 <= e <= 971 ->
  -1022 <= e - k ->
  fl (h * 2 ^ k) (e - k) = fl h e.
Proof.
  intros Hh Hk He Hek.
  assert (Z.abs h < 2 ^ 53).
  { pose proof (Z.pow_pos_nonneg 2 k ltac:(lia) Hk).
    rewrite Z.abs_mul, (Z.abs_eq (2 ^ k)) in Hh by lia. nia. }
  rewrite <- (binary_normalize_fl h k e) by done.
  pose proof (binary_normalize_fl (h * 2 ^ k) 0 (e - k)) as H0.
  rewrite Z.sub_0_r in H0. change (2 ^ 0) with 1 in H0.
  rewrite Z.mul_1_r in H0. rewrite H0; [done|done|lia|lia].
Qed.

Lemma fl_finite h e :
  h <> 0 -> Z.abs h < 2 ^ 53 ->
  exists s m ex,
    fl h e = S754_finite s m ex
    /\ e - 52 <= ex <= e
    /\ Zpos (digits2_pos m) = 53
    /\ cond_Zopp s (Zpos m) = h * 2 ^ (e - ex).
Proof.
  intros Hh Hb.
  destruct h as [|p|p]; [done| |].
  - pose proof (digits2_pos_bound p 53 ltac:(lia) ltac:(lia)) as Hd.
    assert (0 < Zpos (digits2_pos p)) by lia.
    eexists false, _, _. split; [reflexivity|]. unfold prec.
    split; [lia|]. split.
    + rewrite digits_shiftp by lia. lia.
    + simpl cond_Zopp. rewrite Zpos_shiftp by lia. do 2 f_equal. lia.
  - pose proof (digits2_pos_bound p 53 ltac:(lia) ltac:(lia)) as Hd.
    assert (0 < Zpos (digits2_pos p)) by lia.
    eexists true, _, _. split; [reflexivity|]. unfold prec.
    split; [lia|]. split.
    + rewrite digits_shiftp by lia. lia.
    + simpl cond_Zopp. rewrite Zpos_shiftp by lia.
      change (Z.neg p) with (- Zpos p). rewrite Z.mul_opp_l.
      do 3 f_equal. lia.
Qed.

Lemma shl_align_value m e e' :
  e' <= e -> Zpos (fst (shl_align m e e')) = Zpos m * 2 ^ (e - e').
Proof.
  intros Hle. unfold shl_align.
  destruct (e' - e) as [|d|d] eqn:Hd; simpl fst.
  - replace (e - e') with 0 by lia. simpl. lia.
  - lia.
  - replace (e - e') with (Zpos d) by lia.
    by rewrite <- (Zpos_shiftp m (Zpos d)).
Qed.

Lemma cond_Zopp_mul s x y : cond_Zopp s (x * y) = cond_Zopp s x * y.
Proof. destruct s; simpl; lia. Qed.

(** Addition and subtraction of two representable numbers whose result is
    representable are exact. *)
Lemma SFadd_fl X e1 Y e2 :
  Z.abs X < 2 ^ 53 -> Z.abs Y < 2 ^ 53 ->
  Z.abs (X * 2 ^ (e1 - Z.min e1 e2) + Y * 2 ^ (e2 - Z.min e1 e2)) < 2 ^ 53 ->
  -1022 <= e1 <= 971 -> -1022 <= e2 <= 971 ->
  SFadd prec emax (fl X e1) (fl Y e2)
  = fl (X * 2 ^ (e1 - Z.min e1 e2) + Y * 2 ^ (e2 - Z.min e1 e2))
      (Z.min e1 e2).
Proof.
  intros HX HY HH He1 He2. set (e := Z.min e1 e2) in *.
  destruct (decide (X = 0)) as [->|HX0];
    destruct (decide (Y = 0)) as [->|HY0].
  - done.
  - rewrite Z.mul_0_l, Z.add_0_l in *.
    destruct (fl_finite Y e2 HY0 HY) as (s & m & ex & Hfl & _).
    rewrite Hfl. simpl. rewrite <- Hfl.
    replace e with (e2 - (e2 - e)) at 2 by lia.
    by rewrite fl_shift by lia.
  - rewrite Z.mul_0_l, Z.add_0_r in *.
    destruct (fl_finite X e1 HX0 HX) as (s & m & ex & Hfl & _).
    rewrite Hfl. simpl. rewrite <- Hfl.
    replace e with (e1 - (e1 - e)) at 2 by lia.
    by rewrite fl_shift by lia.
  - destruct (fl_finite X e1 HX0 HX) as (sx & mx & ex & -> & Hex & _ & Hvx).
    destruct (fl_finite Y e2 HY0 HY) as (sy & my & ey & -> & Hey & _ & Hvy).
    unfold SFadd. cbv zeta.
    rewrite !shl_align_value by lia.
    rewrite !cond_Zopp_mul, Hvx, Hvy.
    rewrite <- !Z.mul_assoc, <- !Z.pow_add_r by lia.
    set (ez := Z.min ex ey).
    replace (e1 - ex + (ex - ez)) with (e1 - e + (e - ez)) by lia.
    replace (e2 - ey + (ey - ez)) with (e2 - e + (e - ez)) by lia.
    rewrite !Z.pow_add_r, !Z.mul_assoc, <- Z.mul_add_distr_r by lia.
    rewrite <- (binary_normalize_fl _ (e - ez) e) by lia.
    f_equal. lia.
Qed.

Lemma fl_opp h e : h <> 0 -> fl (- h) e = SFopp (fl h e).
Proof. by destruct h. Qed.

Lemma SFsub_fl X e1 Y e2 :
  Z.abs X < 2 ^ 53 -> Z.abs Y < 2 ^ 53 ->
  Z.abs (X * 2 ^ (e1 - Z.min e1 e2) - Y * 2 ^ (e2 - Z.min e1 e2)) < 2 ^ 53 ->
  -1022 <= e1 <= 971 -> -1022 <= e2 <= 971 ->
  SFsub prec emax (fl X e1) (fl Y e2)
  = fl (X * 2 ^ (e1 - Z.min e1 e2) - Y * 2 ^ (e2 - Z.min e1 e2))
      (Z.min e1 e2).
Proof.
  intros HX HY HH He1 He2. set (e := Z.min e1 e2) in *.
  destruct (decide (X = 0)) as [->|HX0];
    destruct (decide (Y = 0)) as [->|HY0].
  - done.
  - rewrite Z.mul_0_l, Z.sub_0_l in *.
    rewrite <- Z.mul_opp_l in *.
    replace e with (e2 - (e2 - e)) at 2 by lia.
    rewrite fl_shift by lia. rewrite fl_opp by done.
    by destruct (fl_finite Y e2 HY0 HY) as (s & m & ex & -> & _).
  - rewrite Z.mul_0_l, Z.sub_0_r in *.
    destruct (fl_finite X e1 HX0 HX) as (s & m & ex & Hfl & _).
    rewrite Hfl. simpl. rewrite <- Hfl.
    replace e with (e1 - (e1 - e)) at 2 by lia.
    by rewrite fl_shift by lia.
  - destruct (fl_finite X e1 HX0 HX) as (sx & mx & ex & -> & Hex & _ & Hvx).
    destruct (fl_finite Y e2 HY0 HY) as (sy & my & ey & -> & Hey & _ & Hvy).
    unfold SFsub. cbv zeta.
    rewrite !shl_align_value by lia.
    rewrite !cond_Zopp_mul, Hvx, Hvy.
    rewrite <- !Z.mul_assoc, <- !Z.pow_add_r by lia.
    set (ez := Z.min ex ey).
    replace (e1 - ex + (ex - ez)) with (e1 - e + (e - ez)) by lia.
    replace (e2 - ey + (ey - ez)) with (e2 - e + (e - ez)) by lia.
    rewrite !Z.pow_add_r, !Z.mul_assoc, <- Z.mul_sub_distr_r by lia.
    rewrite <- (binary_normalize_fl _ (e - ez) e) by lia.
    f_equal. lia.
Qed.

Lemma SFmul_half h e :
  Z.abs h < 2 ^ 53 -> -1020 <= e <= 971 ->
  SFmul prec emax (fl h e) float_half = fl h (e - 1).
Proof.
  intros Hh He. destruct (decide (h = 0)) as [->|Hh0]; [done|].
  destruct (fl_finite h e Hh0 Hh) as (s & m & ex & Hfl & Hex & Hd & Hv).
  destruct (fl_finite h (e - 1) Hh0 Hh) as (s' & m' & ex' & Hfl' & _).
  assert (fl h (e - 1) = S754_finite s m (ex - 1)) as ->.
  { clear Hfl'. destruct h as [|p|p]; [done|..]; simpl in *;
      unfold finite_of in *; injection Hfl as <- <- <-; f_equal; lia. }
  rewrite Hfl. unfold SFmul, float_half. rewrite xorb_false_r.
  assert (m * 4503599627370496 = shiftp m 52)%positive as ->.
  { apply shiftp_inj_value; [lia|]. by rewrite Pos2Z.inj_mul. }
  replace (ex + -53) with (ex - 1 - 52) by lia.
  apply binary_round_aux_exact; [|unfold emax, prec; lia|lia].
  unfold canonical_mantissa. apply Z.eqb_eq. rewrite Hd.
  unfold fexp, SpecFloat.emin, prec, emax. lia.
Qed.

Lemma float_value_fl h e :
  Z.abs h < 2 ^ 53 ->
  exists q, float_value (fl h e) = Some q
            /\ (q == inject_Z h * Qpower 2 e)%Q.
Proof.
  intros Hh. destruct (decide (h = 0)) as [->|Hh0].
  - exists 0%Q. split; [done|]. ring.
  - destruct (fl_finite h e Hh0 Hh) as (s & m & ex & -> & Hex & _ & Hv).
    eexists. split; [reflexivity|]. rewrite Hv.
    rewrite inject_Z_mult, Zpower_Qpower by lia.
    change (inject_Z 2) with 2%Q.
    rewrite <- Qmult_assoc, <- Qpower_plus by done.
    by replace (e - ex + ex) with e by lia.
Qed.

(** * The score *)

Lemma float_of_int_fl n : Z.abs n < 2 ^ 53 -> float_of_int n = Ok (fl n 0).
Proof.
  intros Hn. unfold float_of_int.
  pose proof (binary_normalize_fl n 0 0 Hn) as H.
  rewrite Z.sub_0_r in H. change (2 ^ 0) with 1 in H. rewrite Z.mul_1_r in H.
  rewrite H by lia. by destruct n.
Qed.

(** With counters of at most [2^50] no operation of [evaluate] rounds. *)
Lemma evaluate_exact self :
  counters_within (2 ^ 50) self ->
  evaluate self
  = Ok (fl (2 * (white_left self - red_left self)
            + (white_kings self - red_kings self)) (-1)).
Proof.
  intros (Hrl & Hwl & Hrk & Hwk).
  change (2 ^ 50) with 1125899906842624 in *.
  assert (2 ^ 53 = 9007199254740992) as H53 by reflexivity.
  unfold evaluate, int_mul_float, int_add_float.
  rewrite !float_of_int_fl by lia. cbn [mbind result_bind].
  rewrite !SFmul_half by lia. change (0 - 1) with (-1).
  pose proof (SFsub_fl (white_kings self) (-1) (red_kings self) (-1)) as Hsub.
  change (Z.min (-1) (-1)) with (-1) in Hsub.
  change (-1 - -1) with 0 in Hsub. change (2 ^ 0) with 1 in Hsub.
  rewrite !Z.mul_1_r in Hsub. rewrite Hsub by lia. clear Hsub.
  pose proof (SFadd_fl (white_left self - red_left self) 0
                (white_kings self - red_kings self) (-1)) as Hadd.
  change (Z.min 0 (-1)) with (-1) in Hadd.
  change (0 - -1) with 1 in Hadd. change (-1 - -1) with 0 in Hadd.
  change (2 ^ 1) with 2 in Hadd. change (2 ^ 0) with 1 in Hadd.
  rewrite Z.mul_1_r in Hadd. rewrite Hadd by lia.
  do 2 f_equal. lia.
Qed.

Lemma evaluate_returns_intro self q :
  counters_within (2 ^ 50) self ->
  (inject_Z (2 * (white_left self - red_left self)
             + (white_kings self - red_kings self)) * (1 # 2) == q)%Q ->
  evaluate_returns self q.
Proof.
  intros Hb Hq. pose proof Hb as (Hrl & Hwl & Hrk & Hwk).
  change (2 ^ 50) with 1125899906842624 in *.
  assert (2 ^ 53 = 9007199254740992) as H53 by reflexivity.
  destruct (float_value_fl
              (2 * (white_left self - red_left self)
               + (white_kings self - red_kings self)) (-1))
    as (q' & Hq' & Heq); [lia|].
  eexists _, q'. split; [by apply evaluate_exact|]. split; [done|].
  by rewrite Heq.
Qed.

Lemma count_color_bounds self cl pieces :
  0 <= count_color self cl pieces <= Z.of_nat (length pieces).
Proof.
  unfold count_color.
  pose proof (length_filter (fun q => color (heap self q) = cl) pieces). lia.
Qed.

(** C2 (as amended): while the four counters are at most [2^50] in absolute
    value, [evaluate] returns a float that stands for exactly the material
    difference plus half the difference of the king counters, both taken
    from the top color's side; the bottom color's kings are subtracted once,
    not twice. *)
Theorem evaluate_formula (self : Board) :
  counters_within (2 ^ 50) self ->
  evaluate_returns self
    (inject_Z (white_left self - red_left self)
     + (1 # 2) * inject_Z (white_kings self - red_kings self)).
Proof.
  intros Hb. pose proof Hb as (Hrl & Hwl & Hrk & Hwk).
  change (2 ^ 50) with 1125899906842624 in Hrl, Hwl, Hrk, Hwk.
  assert (2 ^ 53 = 9007199254740992) as H53 by reflexivity.
  unfold evaluate_returns. rewrite evaluate_exact by done.
  destruct (float_value_fl
              (2 * (white_left self - red_left self)
               + (white_kings self - red_kings self)) (-1))
    as (q & Hq & Heq); [lia|].
  eexists _, q. split; [done|]. split; [done|]. rewrite Heq.
  change (2 ^ (-1))%Q with (1 # 2)%Q.
  rewrite inject_Z_plus, inject_Z_mult. change (inject_Z 2) with 2%Q. ring.
Qed.

Lemma evaluate_formula_witness :
  evaluate_returns one_red_king
    (inject_Z (white_left one_red_king - red_left one_red_king)
     + (1 # 2) * inject_Z (white_kings one_red_king - red_kings one_red_king)).
Proof.
  apply (evaluate_formula one_red_king).
  unfold counters_within. simpl. lia.
Defined.

(** C2 (counterexample): with one bottom-color king and equal material the
    source returns -0.5, the formula as the specification words it -1. *)
Lemma evaluate_as_worded_fails :
  evaluate_returns one_red_king (- (1 # 2))
  /\ (evaluate_as_worded one_red_king == - (1))%Q
  /\ ~ evaluate_returns one_red_king (evaluate_as_worded one_red_king).
Proof.
  split; [|split].
  - eexists _, _. split; [vm_compute; reflexivity|].
    split; [reflexivity|]. vm_compute. reflexivity.
  - vm_compute. reflexivity.
  - intros (f & q & Hf & Hq & Heq). vm_compute in Hf.
    injection Hf as <-. vm_compute in Hq. injection Hq as <-.
    vm_compute in Heq. discriminate Heq.
Qed.

(** Past [2^53] the code no longer returns the exact score: with
    [2^53 + 1] top-color pieces against none the float returned is
    [2^53]. *)
Lemma evaluate_rounds :
  evaluate_returns huge_material (inject_Z (2 ^ 53))
  /\ ~ evaluate_returns huge_material
        (inject_Z (white_left huge_material - red_left huge_material)
         + (1 # 2) * inject_Z (white_kings huge_material
                               - red_kings huge_material)).
Proof.
  split.
  - eexists _, _. split; [vm_compute; reflexivity|].
    split; [reflexivity|]. vm_compute. reflexivity.
  - intros (f & q & Hf & Hq & Heq). vm_compute in Hf.
    injection Hf as <-. vm_compute in Hq. injection Hq as <-.
    vm_compute in Heq. discriminate Heq.
Qed.

(** A counter too large for a float makes [evaluate] raise. *)
Lemma evaluate_overflow : evaluate huge_kings = Raise OverflowError.
Proof. vm_compute. reflexivity. Qed.

(** * Writing grid cells *)

Lemma setitem_nonneg {A} (l : list A) i x :
  0 <= i -> (Z.to_nat i < length l)%nat ->
  setitem l i x = Ok (<[Z.to_nat i := x]> l).
Proof.
  intros Hi Hlen. unfold setitem. rewrite py_index_nonneg by done.
  by destruct (i <? Z.of_nat (length l)) eqn:Hlt; [|lia].
Qed.

Lemma set_piece_nonneg g r c x l :
  0 <= r -> 0 <= c ->
  g !! Z.to_nat r = Some l -> (Z.to_nat c < length l)%nat ->
  set_piece g r c x = Ok (<[Z.to_nat r := <[Z.to_nat c := x]> l]> g).
Proof.
  intros Hr Hc Hl Hlen. unfold set_piece.
  apply getitem_nonneg in Hl as Hget; [|done]. rewrite Hget. simpl.
  rewrite setitem_nonneg by done. simpl.
  apply setitem_nonneg; [done|]. by apply lookup_lt_Some in Hl.
Qed.

(** Writing a readable cell succeeds, changes that cell only, and keeps
    the shape of the grid. *)
Lemma set_piece_spec g r c x y :
  0 <= r -> 0 <= c ->
  grid_get g r c = Ok y ->
  exists g',
    set_piece g r c x = Ok g'
    /\ (length <$> g') = (length <$> g)
    /\ forall r' c', 0 <= r' -> 0 <= c' ->
         grid_get g' r' c'
         = if decide (r' = r /\ c' = c) then Ok x else grid_get g r' c'.
Proof.
  intros Hr Hc Hy. apply grid_get_nonneg in Hy as (l & Hl & Hly); [|done..].
  pose proof (lookup_lt_Some _ _ _ Hl) as Hlen.
  pose proof (lookup_lt_Some _ _ _ Hly) as Hlen'.
  eexists. split; [by eapply set_piece_nonneg|]. split.
  - rewrite list_fmap_insert, length_insert.
    apply list_insert_id. by rewrite list_lookup_fmap, Hl.
  - intros r' c' Hr' Hc'. unfold grid_get.
    assert (forall (A : Type) (m : list A) i, 0 <= i ->
              getitem m i = match m !! Z.to_nat i with
                            | Some a => Ok a | None => Raise IndexError
                            end) as Hget.
    { intros A m i Hi. unfold getitem. rewrite py_index_nonneg by done.
      destruct (i <? Z.of_nat (length m)) eqn:Hlt; [done|].
      rewrite lookup_ge_None_2; [done|lia]. }
    rewrite !Hget by done.
    destruct (decide (Z.to_nat r' = Z.to_nat r)) as [Heq|Hne].
    + rewrite Heq, list_lookup_insert_eq, Hl by done. simpl.
      rewrite !Hget by done.
      destruct (decide (Z.to_nat c' = Z.to_nat c)) as [Heq'|Hne'].
      * rewrite Heq', list_lookup_insert_eq by done.
        rewrite decide_True; [done|lia].
      * rewrite list_lookup_insert_ne by done.
        rewrite decide_False; [done|lia].
    + rewrite list_lookup_insert_ne by done.
      rewrite decide_False; [done|lia].
Qed.

Lemma full_grid_lengths (g g' : list (list cell)) :
  (length <$> g') = (length <$> g) ->
  length g = Z.to_nat ROWS /\ Forall (fun l => length l = Z.to_nat COLS) g ->
  length g' = Z.to_nat ROWS /\ Forall (fun l => length l = Z.to_nat COLS) g'.
Proof.
  intros Hlen [Hrows Hcols].
  split.
  - by rewrite <- Hrows, <- (length_fmap (@length cell) g'), Hlen, length_fmap.
  - assert (Forall (fun n => n = Z.to_nat COLS) (length <$> g)) as Hall
      by (by apply Forall_fmap).
    rewrite <- Hlen in Hall. by apply Forall_fmap in Hall.
Qed.

Lemma get_piece_total self r c :
  full_grid self -> on_board r c -> exists x, get_piece self r c = Ok x.
Proof.
  intros Hgrid [Hr Hc].
  destruct (get_piece_checked_total self r c Hgrid Hr Hc) as [x Hx].
  apply get_piece_checked_Ok in Hx as [_ Hx]. eauto.
Qed.

(** * Moving a piece *)

Lemma move_Ok self piece r c :
  full_grid self ->
  on_board r c ->
  on_board (row (heap self piece)) (col (heap self piece)) ->
  exists dst src g,
    get_piece self r c = Ok dst
    /\ get_piece self (row (heap self piece)) (col (heap self piece)) = Ok src
    /\ (length <$> g) = (length <$> board self)
    /\ (forall r' c', 0 <= r' -> 0 <= c' ->
          grid_get g r' c'
          = if decide (r' = r /\ c' = c) then Ok src
            else if decide (r' = row (heap self piece)
                            /\ c' = col (heap self piece)) then Ok dst
            else get_piece self r' c')
    /\ move self piece r c
       = let h := <[piece := Piece_move (heap self piece) r c]> (heap self) in
         if (r =? ROWS - 1) || (r =? 0) then
           let h := <[piece := make_king (h piece)]> h in
           if decide (color (h piece) = PLAYER_COLOR_TOP) then
             Ok (mkBoard h g (red_left self) (white_left self)
                   (red_kings self) (white_kings self + 1))
           else
             Ok (mkBoard h g (red_left self) (white_left self)
                   (red_kings self + 1) (white_kings self))
         else
           Ok (mkBoard h g (red_left self) (white_left self)
                 (red_kings self) (white_kings self)).
Proof.
  intros Hgrid Hrc Hp.
  destruct (get_piece_total self r c Hgrid Hrc) as [dst Hdst].
  destruct (get_piece_total self _ _ Hgrid Hp) as [src Hsrc].
  destruct Hrc as [Hr Hc]. destruct Hp as [Hpr Hpc].
  destruct (set_piece_spec (board self) _ _ dst src
              (proj1 Hpr) (proj1 Hpc) Hsrc) as (g1 & Hset1 & Hlen1 & Hget1).
  assert (exists y, grid_get g1 r c = Ok y) as [y Hy].
  { rewrite Hget1 by lia. case_decide; eauto. }
  destruct (set_piece_spec g1 r c src y (proj1 Hr) (proj1 Hc) Hy)
    as (g2 & Hset2 & Hlen2 & Hget2).
  exists dst, src, g2. split; [done|]. split; [done|].
  split; [congruence|]. split.
  - intros r' c' Hr' Hc'. rewrite Hget2 by done.
    case_decide; [done|]. by rewrite Hget1.
  - unfold move. rewrite Hdst. simpl. rewrite Hsrc. simpl.
    rewrite Hset1. simpl. rewrite Hset2. done.
Qed.

(** C4: a move onto row 0 or row [ROWS - 1] leaves the piece a king and
    adds exactly one to the king counter of the piece's color, whether or
    not the piece was a king before. *)
Theorem move_to_edge_row self piece r c :
  full_grid self ->
  on_board (row (heap self piece)) (col (heap self piece)) ->
  on_board r c ->
  r = 0 \/ r = ROWS - 1 ->
  exists self',
    move self piece r c = Ok self'
    /\ king (heap self' piece) = true
    /\ (color (heap self piece) = PLAYER_COLOR_TOP ->
        white_kings self' = white_kings self + 1
        /\ red_kings self' = red_kings self)
    /\ (color (heap self piece) <> PLAYER_COLOR_TOP ->
        red_kings self' = red_kings self + 1
        /\ white_kings self' = white_kings self).
Proof.
  intros Hgrid Hp Hrc Hedge.
  destruct (move_Ok self piece r c Hgrid Hrc Hp)
    as (dst & src & g & _ & _ & _ & _ & ->).
  replace ((r =? ROWS - 1) || (r =? 0)) with true
    by (symmetry; apply orb_true_iff; lia).
  simpl. rewrite !fn_lookup_insert. simpl.
  destruct (decide (color (heap self piece) = PLAYER_COLOR_TOP)) as [Hc|Hc];
    eexists; (split; [done|]); simpl; rewrite fn_lookup_insert; simpl;
    repeat split; done.
Qed.

(** * Removing captured pieces *)

Lemma count_color_cons self cl q pieces :
  count_color self cl (q :: pieces)
  = (if decide (color (heap self q) = cl) then 1 else 0)
    + count_color self cl pieces.
Proof.
  unfold count_color. rewrite filter_cons.
  destruct (decide (color (heap self q) = cl)); simpl; lia.
Qed.

Lemma count_color_heap self self' cl pieces :
  heap self' = heap self ->
  count_color self' cl pieces = count_color self cl pieces.
Proof. unfold count_color. by intros ->. Qed.

Lemma remove_one_spec self q y :
  0 <= row (heap self q) -> 0 <= col (heap self q) ->
  get_piece self (row (heap self q)) (col (heap self q)) = Ok y ->
  exists self',
    remove_one self q = Ok self'
    /\ heap self' = heap self
    /\ (length <$> board self') = (length <$> board self)
    /\ (forall r c, 0 <= r -> 0 <= c ->
          get_piece self' r c
          = if decide (r = row (heap self q) /\ c = col (heap self q))
            then Ok None else get_piece self r c)
    /\ red_left self'
       = red_left self - count_color self PLAYER_COLOR_BOTTOM [q]
    /\ white_left self'
       = white_left self - count_color self PLAYER_COLOR_TOP [q]
    /\ red_kings self' = red_kings self
    /\ white_kings self' = white_kings self.
Proof.
  intros Hr Hc Hy.
  destruct (set_piece_spec (board self) _ _ None y Hr Hc Hy)
    as (g & Hset & Hlen & Hget).
  unfold remove_one. rewrite Hset. simpl.
  rewrite !count_color_cons. unfold count_color. simpl.
  destruct (decide (color (heap self q) = PLAYER_COLOR_BOTTOM)) as [Hcl|Hcl];
    eexists; (split; [done|]); simpl; repeat split; try done;
    repeat case_decide; try lia; try congruence.
  by destruct (color (heap self q)).
Qed.

(** The cells the loop of [remove] clears. *)
Lemma remove_spec pieces : forall self,
  Forall (fun q => 0 <= row (heap self q) /\ 0 <= col (heap self q)
            /\ exists y, get_piece self (row (heap self q))
                           (col (heap self q)) = Ok y) pieces ->
  exists self',
    remove self pieces = Ok self'
    /\ heap self' = heap self
    /\ (length <$> board self') = (length <$> board self)
    /\ (forall r c, 0 <= r -> 0 <= c ->
          get_piece self' r c
          = if decide (Exists (fun q => r = row (heap self q)
                                        /\ c = col (heap self q)) pieces)
            then Ok None else get_piece self r c)
    /\ red_left self'
       = red_left self - count_color self PLAYER_COLOR_BOTTOM pieces
    /\ white_left self'
       = white_left self - count_color self PLAYER_COLOR_TOP pieces
    /\ red_kings self' = red_kings self
    /\ white_kings self' = white_kings self.
Proof.
  induction pieces as [|q pieces IH]; intros self Hall.
  - exists self. unfold count_color. simpl. repeat split; try done; lia.
  - apply Forall_cons in Hall as ((Hr & Hc & y & Hy) & Hall).
    destruct (remove_one_spec self q y Hr Hc Hy)
      as (self1 & Hrun1 & Hheap1 & Hlen1 & Hget1 & Hred1 & Hwhite1 & Hrk1 & Hwk1).
    destruct (IH self1) as
      (self' & Hrun & Hheap & Hlen & Hget & Hred & Hwhite & Hrk & Hwk).
    { rewrite Hheap1. eapply Forall_impl; [exact Hall|]. simpl.
      intros q' (Hr' & Hc' & y' & Hy'). split; [done|]. split; [done|].
      rewrite Hget1 by done. case_decide; eauto. }
    exists self'. unfold remove. simpl. rewrite Hrun1. simpl.
    split; [exact Hrun|]. split; [congruence|]. split; [congruence|].
    assert (forall cl l, count_color self1 cl l = count_color self cl l)
      as Hcc by (intros; by apply count_color_heap).
    rewrite !Hcc in Hred, Hwhite. rewrite Hheap1 in Hget.
    rewrite !(count_color_cons _ _ q pieces).
    rewrite !count_color_cons in Hred1, Hwhite1.
    unfold count_color in Hred1, Hwhite1. simpl in Hred1, Hwhite1.
    repeat split; try congruence; try lia.
    intros r c Hr' Hc'. rewrite Hget, Hget1 by done.
    destruct (decide (r = row (heap self q) /\ c = col (heap self q)))
      as [Heq|Hne].
    + rewrite (decide_True (P := Exists _ (q :: pieces)))
        by (by apply Exists_cons_hd).
      by destruct (decide (Exists _ pieces)).
    + destruct (decide (Exists _ pieces)) as [Hex|Hex].
      * rewrite decide_True; [done|]. by apply Exists_cons_tl.
      * rewrite decide_False; [done|].
        intros [?|?]%Exists_cons; done.
Qed.

(** C7: removing pieces that are live at their recorded cells empties
    those cells and takes one off the counter of the piece's color for every
    piece given; [winner] compares the two counters with zero, the bottom
    color's first. *)
Theorem remove_and_winner :
  (forall self pieces,
     Forall (live self) pieces ->
     exists self',
       remove self pieces = Ok self'
       /\ Forall (fun q => get_piece self' (row (heap self q))
                             (col (heap self q)) = Ok None) pieces
       /\ red_left self'
          = red_left self - count_color self PLAYER_COLOR_BOTTOM pieces
       /\ white_left self'
          = white_left self - count_color self PLAYER_COLOR_TOP pieces)
  /\ (forall self,
        (red_left self <= 0 -> winner self = Some PLAYER_COLOR_TOP)
        /\ (0 < red_left self -> white_left self <= 0 ->
            winner self = Some PLAYER_COLOR_BOTTOM)
        /\ (0 < red_left self -> 0 < white_left self -> winner self = None)).
Proof.
  split.
  - intros self pieces Hlive.
    destruct (remove_spec pieces self) as
      (self' & Hrun & Hheap & Hlen & Hget & Hred & Hwhite & _).
    { eapply Forall_impl; [exact Hlive|]. simpl.
      intros q [[[? _] [? _]] ?]. eauto. }
    exists self'. split; [done|]. split; [|done].
    apply Forall_forall. intros q Hq.
    apply (Forall_forall (live self) pieces) in Hq as Hq'; [|done].
    destruct Hq' as [[[? _] [? _]] _].
    rewrite Hget by done. rewrite decide_True; [done|].
    apply Exists_exists. eauto.
  - intros self. unfold winner. repeat split; intros.
    + by destruct (red_left self <=? 0) eqn:?; [|lia].
    + destruct (red_left self <=? 0) eqn:?; [lia|].
      by destruct (white_left self <=? 0) eqn:?; [|lia].
    + destruct (red_left self <=? 0) eqn:?; [lia|].
      by destruct (white_left self <=? 0) eqn:?; [lia|].
Qed.

(** * Construction *)

Lemma Board_init_Ok : Board_init = Ok initial_board.
Proof. vm_compute. reflexivity. Qed.

Lemma initial_board_cells r c :
  on_board r c -> initial_cell initial_board r c.
Proof.
  intros [Hr Hc]. unfold ROWS, COLS in *.
  assert (r = 0 \/ r = 1 \/ r = 2 \/ r = 3 \/ r = 4 \/ r = 5 \/ r = 6 \/ r = 7)
    as Hr' by lia.
  assert (c = 0 \/ c = 1 \/ c = 2 \/ c = 3 \/ c = 4 \/ c = 5 \/ c = 6 \/ c = 7)
    as Hc' by lia.
  unfold initial_cell. remember initial_board as b eqn:Hb.
  destruct Hr' as [->|[->|[->|[->|[->|[->|[->| ->]]]]]]];
    destruct Hc' as [->|[->|[->|[->|[->|[->|[->| ->]]]]]]];
    simpl; subst b;
    try (vm_compute; reflexivity);
    match goal with
    | |- exists q, get_piece ?self ?r ?c = _ /\ _ =>
      exists (match get_piece self r c with Ok (Some q) => q | _ => O end);
      split; vm_compute; reflexivity
    end.
Qed.

(** C9: a newly constructed board has the top color on the playable cells
    of rows 0-2, the bottom color on those of rows 5-7 and nothing else,
    twelve live pieces and a counter of twelve for each color, no kings, no
    winner and a score of zero (the float [0.0]). *)
Theorem new_board :
  Board_init = Ok initial_board
  /\ (forall r c, on_board r c -> initial_cell initial_board r c)
  /\ length (get_all_pieces initial_board PLAYER_COLOR_TOP) = 12%nat
  /\ length (get_all_pieces initial_board PLAYER_COLOR_BOTTOM) = 12%nat
  /\ white_left initial_board = 12
  /\ red_left initial_board = 12
  /\ white_kings initial_board = 0
  /\ red_kings initial_board = 0
  /\ winner initial_board = None
  /\ evaluate initial_board = Ok (S754_zero false).
Proof.
  split; [exact Board_init_Ok|].
  split; [exact initial_board_cells|].
  repeat split; vm_compute; reflexivity.
Qed.

Lemma new_board_witness : initial_cell initial_board 0 1.
Proof.
  apply (proj1 (proj2 new_board) 0 1). unfold on_board, ROWS, COLS. lia.
Defined.

(** * The moves of a piece *)

Lemma get_valid_moves_entries self piece m k v :
  get_valid_moves_checked self piece = Ok m ->
  m !! k = Some v ->
  exists s step,
    allowed (heap self piece) step /\
    written (get_piece_checked self) (color_in self)
      (color (heap self piece)) s (row (heap self piece) + step)
      (top_stop step (row (heap self piece))) step
      (col (heap self piece) + dcol s) [] k v.
Proof. apply get_valid_moves_with_written. Qed.

Lemma full_grid_example pieces rl wl rk wk :
  full_grid (board_of pieces rl wl rk wk).
Proof.
  unfold full_grid, board_of. simpl.
  induction (imap pair pieces) as [|qp l [IH1 IH2]]; simpl.
  - split; [done|]. unfold empty_grid. apply Forall_replicate.
    by rewrite length_replicate.
  - unfold put at 1 3. rewrite length_alter. split; [done|].
    apply Forall_alter; [done|]. intros x Hx. by rewrite length_insert.
Qed.

(** C5: on a full grid, for a piece recorded on the board, [get_valid_moves]
    returns a mapping; every key of it is a cell of the board that is empty,
    and the computation reads no index outside [0 .. 7] (it returns the same
    mapping when every read is bounds-checked). *)
Theorem valid_moves_on_board_and_empty self piece :
  full_grid self ->
  on_board (row (heap self piece)) (col (heap self piece)) ->
  exists m,
    get_valid_moves self piece = Ok m
    /\ get_valid_moves_checked self piece = Ok m
    /\ forall r c caps, m !! (r, c) = Some caps ->
         0 <= r <= 7 /\ 0 <= c <= 7 /\ get_piece self r c = Ok None.
Proof.
  intros Hgrid Hp.
  destruct (get_valid_moves_terminates self piece Hgrid Hp) as (m & Hc & Hm).
  exists m. split; [done|]. split; [done|].
  intros r c caps Hk.
  destruct (get_valid_moves_entries _ _ _ _ _ Hc Hk) as (s & step & _ & Hw).
  apply written_empty in Hw. simpl in Hw.
  apply get_piece_checked_Ok in Hw as [[Hr Hcol] Hget].
  unfold ROWS, COLS in *. repeat split; try done; lia.
Qed.

Lemma valid_moves_on_board_and_empty_witness :
  exists m,
    get_valid_moves double_jump_up 0%nat = Ok m
    /\ get_valid_moves_checked double_jump_up 0%nat = Ok m
    /\ forall r c caps, m !! (r, c) = Some caps ->
         0 <= r <= 7 /\ 0 <= c <= 7
         /\ get_piece double_jump_up r c = Ok None.
Proof.
  apply (valid_moves_on_board_and_empty double_jump_up 0%nat).
  - apply full_grid_example.
  - unfold on_board, ROWS, COLS. simpl. lia.
Defined.

(** C6: a bottom-color piece that is not a king only gets destinations on
    rows above it (smaller index), a top-color piece that is not a king only
    destinations on rows below it. *)
Theorem valid_moves_direction self piece :
  full_grid self ->
  on_board (row (heap self piece)) (col (heap self piece)) ->
  exists m,
    get_valid_moves self piece = Ok m
    /\ (king (heap self piece) = false ->
        color (heap self piece) = PLAYER_COLOR_BOTTOM ->
        forall r c caps, m !! (r, c) = Some caps -> r < row (heap self piece))
    /\ (king (heap self piece) = false ->
        color (heap self piece) = PLAYER_COLOR_TOP ->
        forall r c caps, m !! (r, c) = Some caps -> row (heap self piece) < r).
Proof.
  intros Hgrid Hp.
  destruct (get_valid_moves_terminates self piece Hgrid Hp) as (m & Hc & Hm).
  exists m. split; [done|].
  split; intros Hking Hcolor r c caps Hk;
    destruct (get_valid_moves_entries _ _ _ _ _ Hc Hk)
      as (s & step & [[-> Hal]|[-> Hal]] & Hw);
    try (destruct Hal; congruence).
  - apply written_rows_up in Hw. simpl in Hw. lia.
  - apply written_rows_down in Hw. simpl in Hw. lia.
Qed.

Lemma valid_moves_direction_witness :
  exists m,
    get_valid_moves double_jump_up 0%nat = Ok m
    /\ (king (heap double_jump_up 0%nat) = false ->
        color (heap double_jump_up 0%nat) = PLAYER_COLOR_BOTTOM ->
        forall r c caps, m !! (r, c) = Some caps ->
          r < row (heap double_jump_up 0%nat))
    /\ (king (heap double_jump_up 0%nat) = false ->
        color (heap double_jump_up 0%nat) = PLAYER_COLOR_TOP ->
        forall r c caps, m !! (r, c) = Some caps ->
          row (heap double_jump_up 0%nat) < r).
Proof.
  apply (valid_moves_direction double_jump_up 0%nat).
  - apply full_grid_example.
  - unfold on_board, ROWS, COLS. simpl. lia.
Defined.

(** A king does get destinations in both row directions. *)
Example king_moves_both_ways :
  exists m,
    get_valid_moves lone_king 0%nat = Ok m
    /\ m !! (3, 2) = Some [] /\ m !! (5, 2) = Some [].
Proof.
  exists (match get_valid_moves lone_king 0%nat with Ok m => m | _ => ∅ end).
  repeat split; vm_compute; reflexivity.
Qed.

(** C10: no destination on row 0 comes from a second or later jump.  An
    entry of [get_valid_moves] on row 0 is a plain move or a single jump of a
    piece at most two rows away; the continuation started after an upward
    capture ranges over rows of index at least 1 and writes no key on row 0;
    the downward mirror image does return a double jump onto row 7, while
    the double jump onto row 0 that the cells allow is not returned. *)
Theorem no_multi_jump_onto_row_0 :
  (forall self piece m c caps,
     0 <= row (heap self piece) ->
     get_valid_moves self piece = Ok m ->
     m !! (0, c) = Some caps ->
     (length caps <= 1)%nat /\ row (heap self piece) <= 2)
  /\ (forall r rs x,
        py_range (r + -1) (Z.max (r - 3) 0) (-1) = Ok rs -> x ∈ rs -> 1 <= x)
  /\ (forall read color_of s fuel r cl c skipped m k,
        traverse read color_of s fuel (r + -1) (Z.max (r - 3) 0) (-1) cl c
          skipped = Ok m ->
        is_Some (m !! k) -> 1 <= k.1)
  /\ (exists m,
        get_valid_moves double_jump_to_row_7 0%nat = Ok m
        /\ m !! (7, 0) = Some [2%nat; 1%nat])
  /\ (exists m,
        get_valid_moves double_jump_to_row_0 0%nat = Ok m
        /\ board_hop double_jump_to_row_0 PLAYER_COLOR_BOTTOM (-1)
             (4, 4) (-1) 1%nat (2, 2)
        /\ board_hop double_jump_to_row_0 PLAYER_COLOR_BOTTOM (-1)
             (2, 2) (-1) 2%nat (0, 0)
        /\ m !! (0, 0) = None).
Proof.
  split; [|split; [|split; [|split]]].
  - intros self piece m c caps Hrow Hrun Hk.
    destruct (get_valid_moves_with_written _ _ _ _ _ _ Hrun Hk)
      as (s & step & [[-> _]|[-> _]] & Hw).
    + inversion Hw as [| |? ? ? ? ? ? ? ? ? ? _ _ _ _ _ _ Hsub]; subst.
      * simpl. lia.
      * simpl. lia.
      * apply written_rows_up in Hsub. unfold clip in Hsub.
        simpl in Hsub. lia.
    + apply written_rows_down in Hw. simpl in Hw. lia.
  - intros r rs x Hrs Hx. rewrite py_range_unit in Hrs by auto.
    simplify_eq. apply elem_of_range_from in Hx as (i & Hi & ->).
    unfold span in Hi. simpl in Hi. lia.
  - intros read color_of s fuel r cl c skipped m k Hrun [v Hk].
    assert (span (-1) (r + -1) (Z.max (r - 3) 0) <= 2) as Hspan
      by (unfold span; simpl; lia).
    pose proof (traverse_written _ _ _ _ _ _ _ _ _ _ _ _ _
                  (or_introl eq_refl) Hspan Hrun Hk) as Hw.
    apply written_rows_up in Hw. lia.
  - exists (match get_valid_moves double_jump_to_row_7 0%nat with
            | Ok m => m | _ => ∅ end).
    split; vm_compute; reflexivity.
  - exists (match get_valid_moves double_jump_to_row_0 0%nat with
            | Ok m => m | _ => ∅ end).
    split; [vm_compute; reflexivity|].
    unfold board_hop, hop. simpl.
    repeat split; auto; try (vm_compute; reflexivity); vm_compute; congruence.
Qed.

Lemma no_multi_jump_onto_row_0_witness :
  (length (@nil ref) <= 1)%nat /\ row (heap king_near_edge 0%nat) <= 2.
Proof.
  apply (proj1 no_multi_jump_onto_row_0 king_near_edge 0%nat
           (match get_valid_moves king_near_edge 0%nat with
            | Ok m => m | _ => ∅ end) 1 []).
  - simpl. lia.
  - vm_compute. reflexivity.
  - vm_compute. reflexivity.
Defined.

(** * Capture chains and the returned capture lists *)

Lemma dcol_cases d : d = -1 \/ d = 1 -> exists s, d = dcol s.
Proof. intros [-> | ->]; [by exists ToLeft | by exists ToRight]. Qed.

Lemma jumps_two read color_of cl step from full to :
  jumps read color_of cl step from full to ->
  length full = 2%nat ->
  exists d1 q1 mid d2 q2,
    hop read color_of cl step from d1 q1 mid
    /\ hop read color_of cl step mid d2 q2 to
    /\ full = [q2; q1].
Proof.
  intros Hj Hlen.
  inversion Hj as [? d1 q1 ? H1|? d1 q1 mid full' ? H1 Hj']; subst;
    [done|].
  rewrite length_app in Hlen. simpl in Hlen.
  inversion Hj' as [? d2 q2 ? H2|? d2 q2 mid' full'' ? H2 Hj'']; subst.
  - by exists d1, q1, mid, d2, q2.
  - apply jumps_length in Hj''. rewrite length_app in Hlen. simpl in Hlen. lia.
Qed.

Section Chains.
Variable read : Z -> Z -> result cell.
Variable color_of : ref -> Color.
Variable cl : Color.

Lemma written_jump_from s stop step r0 c0 skipped q to :
  hop read color_of cl step (r0, c0) (dcol s) q to ->
  2 <= span step (r0 + step) stop ->
  off_board s (c0 + dcol s) = false ->
  off_board s (c0 + 2 * dcol s) = false ->
  written read color_of cl s (r0 + step) stop step (c0 + dcol s) skipped
    to (q :: skipped).
Proof.
  intros (_ & Hr1 & Hq & Hr2 & ->) Hspan Hoff Hoff'. simpl in *.
  replace (r0 + 2 * step) with (r0 + step + step) in * by lia.
  replace (c0 + 2 * dcol s) with (next_col s (c0 + dcol s)) in *
    by (rewrite next_col_dcol; lia).
  by apply written_jump.
Qed.

End Chains.

Lemma board_hop_on_board self cl step from d q to :
  board_hop self cl step from d q to ->
  on_board (from.1 + step) (from.2 + d) /\ on_board to.1 to.2.
Proof.
  intros (_ & Hr1 & _ & Hr2 & ->).
  apply get_piece_checked_Ok in Hr1 as [? _].
  by apply get_piece_checked_Ok in Hr2 as [? _].
Qed.

Lemma on_board_off_board s r c : on_board r c -> off_board s c = false.
Proof.
  intros [_ Hc]. unfold COLS in *. destruct s; simpl; unfold COLS; lia.
Qed.

(** What [get_valid_moves] returns for a key: nothing captured on a plain
    move to a diagonal neighbour, and otherwise the last two pieces of a
    chain of jumps that leads from the piece to the key. *)
Lemma get_valid_moves_values self piece m k v :
  get_valid_moves_checked self piece = Ok m ->
  m !! k = Some v ->
  (v = [] /\ exists step d,
     allowed (heap self piece) step /\ (d = -1 \/ d = 1)
     /\ k = (row (heap self piece) + step, col (heap self piece) + d))
  \/ (exists step full,
        allowed (heap self piece) step
        /\ board_jumps self (color (heap self piece)) step
             (row (heap self piece), col (heap self piece)) full k
        /\ v = take 2 full).
Proof.
  intros Hrun Hk.
  destruct (get_valid_moves_entries _ _ _ _ _ Hrun Hk) as (s & step & Hal & Hw).
  apply written_jumps in Hw as [(_ & -> & ->)|(full & Hj & ->)]; [| |simpl; lia].
  - left. split; [done|]. exists step, (dcol s). split; [done|].
    split; [destruct s; auto|done].
  - right. exists step, full. split; [done|]. rewrite app_nil_r. split; [|done].
    replace (row (heap self piece) + step - step) with (row (heap self piece))
      in Hj by lia.
    replace (col (heap self piece) + dcol s - dcol s)
      with (col (heap self piece)) in Hj by lia.
    exact Hj.
Qed.




(** C3 (as amended): the value of a key is empty for a plain move to a
    diagonal neighbour; otherwise it lists pieces jumped along a chain of
    jumps from the piece to the key, starting with the piece jumped last and
    going back in the order of the jumps, and it is the whole chain when the
    chain has at most two jumps. *)
Theorem capture_lists self piece :
  full_grid self ->
  on_board (row (heap self piece)) (col (heap self piece)) ->
  exists m,
    get_valid_moves self piece = Ok m
    /\ forall k v, m !! k = Some v ->
         (v = [] /\ exists step d,
            allowed (heap self piece) step /\ (d = -1 \/ d = 1)
            /\ k = (row (heap self piece) + step, col (heap self piece) + d))
         \/ (exists step full,
               allowed (heap self piece) step
               /\ board_jumps self (color (heap self piece)) step
                    (row (heap self piece), col (heap self piece)) full k
               /\ v `prefix_of` full
               /\ v <> []
               /\ ((length full <= 2)%nat -> v = full)).
Proof.
  intros Hgrid Hp.
  destruct (get_valid_moves_terminates self piece Hgrid Hp) as (m & Hc & Hm).
  exists m. split; [done|]. intros k v Hk.
  destruct (get_valid_moves_values _ _ _ _ _ Hc Hk)
    as [?|(step & full & Hal & Hj & ->)]; [by left|right].
  exists step, full. split; [done|]. split; [done|].
  split; [apply prefix_take|]. split.
  - apply jumps_length in Hj. destruct full; simpl in *; [lia|done].
  - intros Hlen. by apply take_ge.
Qed.

Lemma capture_lists_witness :
  exists m,
    get_valid_moves double_jump_up 0%nat = Ok m
    /\ forall k v, m !! k = Some v ->
         (v = [] /\ exists step d,
            allowed (heap double_jump_up 0%nat) step /\ (d = -1 \/ d = 1)
            /\ k = (row (heap double_jump_up 0%nat) + step,
                    col (heap double_jump_up 0%nat) + d))
         \/ (exists step full,
               allowed (heap double_jump_up 0%nat) step
               /\ board_jumps double_jump_up
                    (color (heap double_jump_up 0%nat)) step
                    (row (heap double_jump_up 0%nat),
                     col (heap double_jump_up 0%nat)) full k
               /\ v `prefix_of` full
               /\ v <> []
               /\ ((length full <= 2)%nat -> v = full)).
Proof.
  apply (capture_lists double_jump_up 0%nat).
  - apply full_grid_example.
  - unfold on_board, ROWS, COLS. simpl. lia.
Defined.

(** C3 (counterexample): the man at (5,4) jumps the piece 1 at (4,3) first
    and the piece 2 at (2,1) second; that is the only chain to (1,0), and the
    list returned for (1,0) names piece 2 first. *)
Lemma capture_list_is_reversed :
  exists m,
    get_valid_moves double_jump_up 0%nat = Ok m
    /\ m !! (1, 0) = Some [2%nat; 1%nat]
    /\ board_hop double_jump_up PLAYER_COLOR_BOTTOM (-1)
         (5, 4) (-1) 1%nat (3, 2)
    /\ board_hop double_jump_up PLAYER_COLOR_BOTTOM (-1)
         (3, 2) (-1) 2%nat (1, 0)
    /\ forall step full,
         allowed (heap double_jump_up 0%nat) step ->
         board_jumps double_jump_up PLAYER_COLOR_BOTTOM step (5, 4) full
           (1, 0) ->
         rev full = [1%nat; 2%nat] /\ [2%nat; 1%nat] <> rev full.
Proof.
  exists (match get_valid_moves double_jump_up 0%nat with
          | Ok m => m | _ => ∅ end).
  split; [vm_compute; reflexivity|]. split; [vm_compute; reflexivity|].
  split; [|split].
  - unfold board_hop, hop. simpl.
    repeat split; auto; try (vm_compute; reflexivity); vm_compute; congruence.
  - unfold board_hop, hop. simpl.
    repeat split; auto; try (vm_compute; reflexivity); vm_compute; congruence.
  - intros step full [[-> _]|[-> [Hc|Hk]]] Hj; [|by vm_compute in Hc
                                                  |by vm_compute in Hk].
    pose proof (jumps_row _ _ _ _ _ _ _ Hj) as Hrow. simpl in Hrow.
    assert (length full = 2%nat) as Hlen by lia.
    destruct (jumps_two _ _ _ _ _ _ _ Hj Hlen)
      as (d1 & q1 & mid & d2 & q2 & H1 & H2 & ->).
    destruct H1 as (Hd1 & Hr1 & _ & Hr1' & ->).
    destruct H2 as (Hd2 & Hr2 & _ & Hr2' & Hto). simpl in *.
    destruct Hd1 as [-> | ->]; vm_compute in Hr1; [|done].
    destruct Hd2 as [-> | ->]; vm_compute in Hr2; [|done].
    simplify_eq. simpl. split; [done|congruence].
Qed.

(** * The board invariant *)

Lemma flat_map_insert_length {A B} (f : A -> list B) (l : list A) i x old :
  l !! i = Some old ->
  (length (flat_map f (<[i := x]> l)) + length (f old)
   = length (flat_map f l) + length (f x))%nat.
Proof.
  intros Hl. pose proof (lookup_lt_Some _ _ _ Hl) as Hlen.
  rewrite insert_take_drop by done.
  rewrite <- (take_drop_middle l i old Hl) at 3.
  rewrite !flat_map_app. simpl. rewrite !length_app. lia.
Qed.

(** Writing a cell changes the number of listed pieces by what the old and
    the new content contribute. *)
Lemma set_piece_count {B} (f : cell -> list B) g r c x y g' :
  0 <= r -> 0 <= c ->
  grid_get g r c = Ok y ->
  set_piece g r c x = Ok g' ->
  (length (flat_map (flat_map f) g') + length (f y)
   = length (flat_map (flat_map f) g) + length (f x))%nat.
Proof.
  intros Hr Hc Hy Hset.
  apply grid_get_nonneg in Hy as (l & Hl & Hly); [|done..].
  rewrite (set_piece_nonneg g r c x l) in Hset;
    [|done..|by eapply lookup_lt_Some].
  simplify_eq.
  pose proof (flat_map_insert_length (flat_map f) g (Z.to_nat r)
                (<[Z.to_nat c := x]> l) l Hl) as H1.
  pose proof (flat_map_insert_length f l (Z.to_nat c) x y Hly) as H2.
  lia.
Qed.

Lemma get_all_pieces_eq self cl :
  get_all_pieces self cl
  = flat_map (flat_map (cell_pieces (color_in self) cl)) (board self).
Proof. reflexivity. Qed.

Lemma positions_one_cell self : positions_agree self -> one_cell_each self.
Proof.
  intros Hpos r c r' c' q Hrc Hrc' Hq Hq'.
  destruct (Hpos r c q Hrc Hq) as [<- <-].
  destruct (Hpos r' c' q Hrc' Hq') as [<- <-]. done.
Qed.

(** What [move] does to a live piece and an empty destination. *)
Lemma move_live self piece r c :
  full_grid self ->
  live self piece ->
  on_board r c ->
  get_piece self r c = Ok None ->
  exists self',
    move self piece r c = Ok self'
    /\ (length <$> board self') = (length <$> board self)
    /\ (forall r' c', 0 <= r' -> 0 <= c' ->
          get_piece self' r' c'
          = if decide (r' = r /\ c' = c) then Ok (Some piece)
            else if decide (r' = row (heap self piece)
                            /\ c' = col (heap self piece)) then Ok None
            else get_piece self r' c')
    /\ (forall cl,
          length (get_all_pieces self' cl) = length (get_all_pieces self cl))
    /\ row (heap self' piece) = r /\ col (heap self' piece) = c
    /\ (forall q, q <> piece -> heap self' q = heap self q)
    /\ red_left self' = red_left self /\ white_left self' = white_left self.
Proof.
  intros Hgrid [Hp Hsrc] Hrc Hdst.
  destruct Hrc as [Hr Hc]. destruct Hp as [Hpr Hpc].
  destruct (set_piece_spec (board self) _ _ None (Some piece)
              (proj1 Hpr) (proj1 Hpc) Hsrc) as (g1 & Hset1 & Hlen1 & Hget1).
  assert (grid_get g1 r c = Ok None) as Hy.
  { rewrite Hget1 by lia. by case_decide. }
  destruct (set_piece_spec g1 r c (Some piece) None (proj1 Hr) (proj1 Hc) Hy)
    as (g2 & Hset2 & Hlen2 & Hget2).
  assert (forall (h : ref -> Piece) rl wl rk wk cl,
            (forall q, color (h q) = color (heap self q)) ->
            length (get_all_pieces (mkBoard h g2 rl wl rk wk) cl)
            = length (get_all_pieces self cl)) as Hcount.
  { intros h rl wl rk wk cl Hcol. rewrite !get_all_pieces_eq. simpl.
    assert (forall x, cell_pieces (color_in (mkBoard h g2 rl wl rk wk)) cl x
                      = cell_pieces (color_in self) cl x) as Hcell.
    { intros [q|]; [|done].
      unfold cell_pieces, color_in. simpl. by rewrite Hcol. }
    rewrite (flat_map_ext _ _ (fun l => flat_map_ext _ _ Hcell l)).
    pose proof (set_piece_count (cell_pieces (color_in self) cl) _ _ _ _ _ _
                  (proj1 Hpr) (proj1 Hpc) Hsrc Hset1) as H1.
    pose proof (set_piece_count (cell_pieces (color_in self) cl) _ _ _ _ _ _
                  (proj1 Hr) (proj1 Hc) Hy Hset2) as H2.
    lia. }
  assert (forall r' c', 0 <= r' -> 0 <= c' ->
            grid_get g2 r' c'
            = if decide (r' = r /\ c' = c) then Ok (Some piece)
              else if decide (r' = row (heap self piece)
                              /\ c' = col (heap self piece)) then Ok None
              else get_piece self r' c') as Hget.
  { intros r' c' Hr' Hc'. rewrite Hget2 by done.
    case_decide; [done|]. by rewrite Hget1. }
  unfold move. rewrite Hdst. simpl. rewrite Hsrc. simpl.
  rewrite Hset1. simpl. rewrite Hset2. simpl.
  assert ((length <$> g2) = (length <$> board self)) as Hlen by congruence.
  destruct ((r =? ROWS - 1) || (r =? 0)); [case_decide|];
    (eexists; split; [done|]; simpl;
     split; [exact Hlen|]; split; [exact Hget|];
     split; [intros cl; apply Hcount; intros q;
             destruct (decide (q = piece)) as [->|];
             rewrite ?fn_lookup_insert, ?fn_lookup_insert_ne by done; done|];
     rewrite ?fn_lookup_insert; simpl; repeat split; try done;
     intros q Hq; by rewrite !fn_lookup_insert_ne by done).
Qed.

Lemma move_inv self piece r c :
  board_inv self ->
  live self piece ->
  on_board r c ->
  get_piece self r c = Ok None ->
  exists self', move self piece r c = Ok self' /\ board_inv self'.
Proof.
  intros (Hgrid & Hpos & _ & Hred & Hwhite) Hlive Hrc Hdst.
  destruct (move_live self piece r c Hgrid Hlive Hrc Hdst)
    as (self' & Hrun & Hlen & Hget & Hcount & Hrow & Hcol & Hheap & Hrl & Hwl).
  exists self'. split; [done|].
  assert (positions_agree self') as Hpos'.
  { intros r' c' q [Hr' Hc'] Hq. rewrite Hget in Hq by lia.
    destruct (decide (r' = r /\ c' = c)) as [[-> ->]|Hne1].
    { by simplify_eq. }
    destruct (decide (r' = row (heap self piece)
                      /\ c' = col (heap self piece))) as [|Hne2]; [done|].
    destruct (Hpos r' c' q (conj Hr' Hc') Hq) as [Hqr Hqc].
    rewrite Hheap; [done|]. intros ->. apply Hne2. by split. }
  split; [|split; [done|split; [by apply positions_one_cell|]]].
  - by apply (full_grid_lengths (board self) (board self')).
  - unfold counters_agree. rewrite !Hcount, Hrl, Hwl. done.
Qed.

Lemma remove_one_inv self q :
  board_inv self ->
  live self q ->
  exists self',
    remove_one self q = Ok self'
    /\ board_inv self'
    /\ heap self' = heap self
    /\ forall q', q' <> q -> live self q' -> live self' q'.
Proof.
  intros (Hgrid & Hpos & Hone & Hred & Hwhite) [[Hr Hc] Hq].
  destruct (remove_one_spec self q (Some q) (proj1 Hr) (proj1 Hc) Hq)
    as (self' & Hrun & Hheap & Hlen & Hget & Hrl & Hwl & _).
  exists self'. split; [done|].
  assert (forall cl,
            (length (get_all_pieces self' cl)
             + length (cell_pieces (color_in self) cl (Some q))
             = length (get_all_pieces self cl))%nat) as Hcount.
  { intros cl. rewrite !get_all_pieces_eq.
    assert (color_in self' = color_in self) as ->
      by (unfold color_in; by rewrite Hheap).
    unfold remove_one in Hrun.
    destruct (set_piece (board self) _ _ None) as [g| |] eqn:Hset;
      simpl in Hrun; [|done..].
    pose proof (set_piece_count (cell_pieces (color_in self) cl) _ _ _ _ _ _
                  (proj1 Hr) (proj1 Hc) Hq Hset) as H1.
    assert (board self' = g) as -> by (case_decide; by simplify_eq).
    simpl in H1 |- *. lia. }
  assert (positions_agree self') as Hpos'.
  { intros r c q' [Hr' Hc'] Hq'. rewrite Hget in Hq' by lia.
    case_decide; [done|]. rewrite Hheap. by apply Hpos. }
  split; [|split; [done|]].
  - split; [by apply (full_grid_lengths (board self) (board self'))|].
    split; [done|]. split; [by apply positions_one_cell|].
    pose proof (Hcount PLAYER_COLOR_BOTTOM) as Hb.
    pose proof (Hcount PLAYER_COLOR_TOP) as Ht.
    unfold counters_agree. rewrite Hrl, Hwl, !count_color_cons.
    unfold count_color, cell_pieces, color_in in *. simpl in *.
    destruct (color (heap self q)); simpl in *; lia.
  - intros q' Hne [[Hr' Hc'] Hq']. unfold live. rewrite Hheap.
    split; [done|]. rewrite Hget by lia.
    rewrite decide_False; [done|]. intros [Heq1 Heq2].
    rewrite Heq1, Heq2 in Hq'. congruence.
Qed.

Lemma remove_inv pieces : forall self,
  board_inv self ->
  Forall (live self) pieces ->
  NoDup pieces ->
  exists self', remove self pieces = Ok self' /\ board_inv self'.
Proof.
  induction pieces as [|q pieces IH]; intros self Hinv Hlive Hnd.
  - by exists self.
  - apply Forall_cons in Hlive as [Hq Hlive].
    apply NoDup_cons in Hnd as [Hnotin Hnd].
    destruct (remove_one_inv self q Hinv Hq)
      as (self1 & Hrun1 & Hinv1 & _ & Hkeep).
    destruct (IH self1 Hinv1) as (self' & Hrun & Hinv'); [|done|].
    { apply Forall_forall. intros q' Hq'. apply Hkeep.
      - intros ->. done.
      - by apply (Forall_forall (live self) pieces). }
    exists self'. unfold remove. simpl. rewrite Hrun1. simpl. done.
Qed.

Lemma initial_inv : board_inv initial_board.
Proof.
  assert (positions_agree initial_board) as Hpos.
  { intros r c q Hrc Hq. pose proof (initial_board_cells r c Hrc) as Hcell.
    unfold initial_cell in Hcell. revert Hq Hcell.
    generalize initial_board. intros b Hq Hcell.
    destruct (c `mod` 2 =? (r + 1) `mod` 2); [|congruence].
    destruct (r <? 3); [|destruct (4 <? r); [|congruence]];
      destruct Hcell as (q0 & Hq0 & Hheap); rewrite Hq0 in Hq;
      injection Hq as <-; by rewrite Hheap. }
  split; [|split; [done|split; [by apply positions_one_cell|]]].
  - split; [reflexivity|]. vm_compute. repeat constructor.
  - split; vm_compute; reflexivity.
Qed.

(** C8 (as amended): the invariant (each piece on the grid records its
    cell, no piece stands on two cells, each live-piece counter is the
    number of pieces of its color on the grid) holds for a new board, and is
    kept by moving a live piece onto an empty cell of the board and by
    removing pairwise distinct live pieces. *)
Theorem board_invariant :
  (Board_init = Ok initial_board /\ board_inv initial_board)
  /\ (forall self piece r c,
        board_inv self -> live self piece ->
        on_board r c -> get_piece self r c = Ok None ->
        exists self', move self piece r c = Ok self' /\ board_inv self')
  /\ (forall self pieces,
        board_inv self -> Forall (live self) pieces -> NoDup pieces ->
        exists self', remove self pieces = Ok self' /\ board_inv self').
Proof.
  split; [split; [exact Board_init_Ok|exact initial_inv]|].
  split; [exact move_inv|]. intros self pieces. apply remove_inv.
Qed.

Lemma live_initial q : (q < 24)%nat -> live initial_board q.
Proof.
  intros Hq. do 24 (destruct q as [|q]; [by vm_compute|]). lia.
Qed.

Lemma Ok_inj {A} (a b : A) : Ok a = Ok b -> a = b.
Proof. by intros [= ->]. Qed.

Lemma board_invariant_witness :
  exists self', move initial_board 8%nat 3 2 = Ok self' /\ board_inv self'.
Proof.
  apply (proj1 (proj2 board_invariant) initial_board 8%nat 3 2).
  - exact initial_inv.
  - apply live_initial. lia.
  - unfold on_board, ROWS, COLS. lia.
  - vm_compute. reflexivity.
Defined.

(** C8 (counterexample): [remove] given the same live piece twice takes two
    off the counter for one piece off the grid; [move] given a piece that is
    no longer on the grid carries whatever stands on the cell that piece
    records, here piece 4, to the destination without updating it. *)
Lemma board_invariant_claim_fails :
  (board_inv initial_board
   /\ Forall (live initial_board) [0%nat; 0%nat]
   /\ remove initial_board [0%nat; 0%nat] = Ok removed_twice
   /\ ~ board_inv removed_twice)
  /\ (board_inv stale_piece
      /\ on_board 3 2
      /\ get_piece stale_piece 3 2 = Ok None
      /\ move stale_piece 8%nat 3 2 = Ok stale_piece_moved
      /\ ~ board_inv stale_piece_moved).
Proof.
  split.
  - split; [exact initial_inv|].
    split; [repeat (constructor; [apply live_initial; lia|]); constructor|].
    split; [vm_compute; reflexivity|].
    intros (_ & _ & _ & _ & Hwhite). vm_compute in Hwhite. done.
  - assert (board_inv piece_8_removed) as Hinv1.
    { destruct (remove_inv [8%nat] initial_board initial_inv)
        as (b & Hrun & Hinv).
      - constructor; [apply live_initial; lia|constructor].
      - apply NoDup_singleton.
      - assert (remove initial_board [8%nat] = Ok piece_8_removed) as Heq
          by (vm_compute; reflexivity).
        rewrite Heq in Hrun. apply Ok_inj in Hrun. subst b. exact Hinv. }
    assert (board_inv stale_piece) as Hinv2.
    { destruct (move_inv piece_8_removed 4%nat 2 1 Hinv1)
        as (b & Hrun & Hinv).
      - by vm_compute.
      - unfold on_board, ROWS, COLS. lia.
      - vm_compute. reflexivity.
      - assert (move piece_8_removed 4%nat 2 1 = Ok stale_piece) as Heq
          by (vm_compute; reflexivity).
        rewrite Heq in Hrun. apply Ok_inj in Hrun. subst b. exact Hinv. }
    split; [done|]. split; [unfold on_board, ROWS, COLS; lia|].
    split; [vm_compute; reflexivity|]. split; [vm_compute; reflexivity|].
    intros (_ & Hpos & _).
    destruct (Hpos 3 2 4%nat) as [Hrow _].
    + unfold on_board, ROWS, COLS. lia.
    + vm_compute. reflexivity.
    + vm_compute in Hrow. done.
Qed.

Lemma move_to_edge_row_witness :
  exists self',
    move king_near_edge 0%nat 0 1 = Ok self'
    /\ king (heap self' 0%nat) = true
    /\ (color (heap king_near_edge 0%nat) = PLAYER_COLOR_TOP ->
        white_kings self' = white_kings king_near_edge + 1
        /\ red_kings self' = red_kings king_near_edge)
    /\ (color (heap king_near_edge 0%nat) <> PLAYER_COLOR_TOP ->
        red_kings self' = red_kings king_near_edge + 1
        /\ white_kings self' = white_kings king_near_edge).
Proof.
  apply (move_to_edge_row king_near_edge 0%nat 0 1).
  - apply full_grid_example.
  - unfold on_board, ROWS, COLS. simpl. lia.
  - unfold on_board, ROWS, COLS. lia.
  - left. reflexivity.
Defined.

Lemma remove_and_winner_witness :
  exists self',
    remove initial_board [0%nat; 12%nat] = Ok self'
    /\ Forall (fun q => get_piece self' (row (heap initial_board q))
                          (col (heap initial_board q)) = Ok None)
         [0%nat; 12%nat]
    /\ red_left self'
       = red_left initial_board
         - count_color initial_board PLAYER_COLOR_BOTTOM [0%nat; 12%nat]
    /\ white_left self'
       = white_left initial_board
         - count_color initial_board PLAYER_COLOR_TOP [0%nat; 12%nat].
Proof.
  apply (proj1 remove_and_winner initial_board [0%nat; 12%nat]).
  repeat (constructor; [apply live_initial; lia|]). constructor.
Defined.

(** * Further properties of [move] *)

(** [move] on a full grid, for any contents of the two cells: the contents
    are exchanged, only the moved object changes, and no piece is gained or
    lost. *)
Lemma move_swap self piece r c :
  full_grid self ->
  on_board r c ->
  on_board (row (heap self piece)) (col (heap self piece)) ->
  exists dst src self',
    get_piece self r c = Ok dst
    /\ get_piece self (row (heap self piece)) (col (heap self piece)) = Ok src
    /\ move self piece r c = Ok self'
    /\ full_grid self'
    /\ (forall r' c', 0 <= r' -> 0 <= c' ->
          get_piece self' r' c'
          = if decide (r' = r /\ c' = c) then Ok src
            else if decide (r' = row (heap self piece)
                            /\ c' = col (heap self piece)) then Ok dst
            else get_piece self r' c')
    /\ (forall cl,
          length (get_all_pieces self' cl) = length (get_all_pieces self cl))
    /\ (forall q,
          heap self' q
          = if decide (q = piece) then moved_piece (heap self piece) r c
            else heap self q)
    /\ red_left self' = red_left self
    /\ white_left self' = white_left self
    /\ white_kings self'
       = white_kings self
         + (if edge_row r
               && bool_decide (color (heap self piece) = PLAYER_COLOR_TOP)
            then 1 else 0)
    /\ red_kings self'
       = red_kings self
         + (if edge_row r
               && negb (bool_decide (color (heap self piece) = PLAYER_COLOR_TOP))
            then 1 else 0).
Proof.
  intros Hgrid Hrc Hp.
  destruct (get_piece_total self r c Hgrid Hrc) as [dst Hdst].
  destruct (get_piece_total self _ _ Hgrid Hp) as [src Hsrc].
  destruct Hrc as [Hr Hc]. destruct Hp as [Hpr Hpc].
  destruct (set_piece_spec (board self) _ _ dst src
              (proj1 Hpr) (proj1 Hpc) Hsrc) as (g1 & Hset1 & Hlen1 & Hget1).
  assert (grid_get g1 r c = Ok dst) as Hy.
  { rewrite Hget1 by lia. by case_decide. }
  destruct (set_piece_spec g1 r c src dst (proj1 Hr) (proj1 Hc) Hy)
    as (g2 & Hset2 & Hlen2 & Hget2).
  assert (forall (h : ref -> Piece) rl wl rk wk cl,
            (forall q, color (h q) = color (heap self q)) ->
            length (get_all_pieces (mkBoard h g2 rl wl rk wk) cl)
            = length (get_all_pieces self cl)) as Hcount.
  { intros h rl wl rk wk cl Hcol. rewrite !get_all_pieces_eq. simpl.
    assert (forall x, cell_pieces (color_in (mkBoard h g2 rl wl rk wk)) cl x
                      = cell_pieces (color_in self) cl x) as Hcell.
    { intros [q|]; [|done].
      unfold cell_pieces, color_in. simpl. by rewrite Hcol. }
    rewrite (flat_map_ext _ _ (fun l => flat_map_ext _ _ Hcell l)).
    pose proof (set_piece_count (cell_pieces (color_in self) cl) _ _ _ _ _ _
                  (proj1 Hpr) (proj1 Hpc) Hsrc Hset1) as H1.
    pose proof (set_piece_count (cell_pieces (color_in self) cl) _ _ _ _ _ _
                  (proj1 Hr) (proj1 Hc) Hy Hset2) as H2.
    lia. }
  assert (forall r' c', 0 <= r' -> 0 <= c' ->
            grid_get g2 r' c'
            = if decide (r' = r /\ c' = c) then Ok src
              else if decide (r' = row (heap self piece)
                              /\ c' = col (heap self piece)) then Ok dst
              else get_piece self r' c') as Hget.
  { intros r' c' Hr' Hc'. rewrite Hget2 by done.
    case_decide; [done|]. by rewrite Hget1. }
  assert (length g2 = Z.to_nat ROWS
          /\ Forall (fun l => length l = Z.to_nat COLS) g2) as Hgrid2.
  { apply (full_grid_lengths (board self) g2); [congruence|exact Hgrid]. }
  exists dst, src.
  unfold move. rewrite Hdst. simpl. rewrite Hsrc. simpl.
  rewrite Hset1. simpl. rewrite Hset2. simpl.
  unfold moved_piece, edge_row.
  destruct ((r =? ROWS - 1) || (r =? 0)); [case_decide as Hcl|];
    (eexists; split; [done|]; split; [done|]; split; [done|]; simpl;
     split; [exact Hgrid2|]; split; [exact Hget|];
     split; [intros cl; apply Hcount; intros q;
             destruct (decide (q = piece)) as [->|];
             rewrite ?fn_lookup_insert, ?fn_lookup_insert_ne by done; done|];
     split; [intros q; destruct (decide (q = piece)) as [->|];
             rewrite ?fn_lookup_insert, ?fn_lookup_insert_ne by done; done|]).
  - rewrite !fn_lookup_insert in Hcl. simpl in Hcl.
    rewrite bool_decide_eq_true_2 by done. simpl. repeat split; lia.
  - rewrite !fn_lookup_insert in Hcl. simpl in Hcl.
    rewrite bool_decide_eq_false_2 by done. simpl. repeat split; lia.
  - repeat split; lia.
Qed.

Lemma full_grid_initial : full_grid initial_board.
Proof. apply initial_inv. Qed.

(** X1: after [move] has taken a live piece to an empty cell of the board,
    [get_piece] returns the piece at the destination and nothing at the cell
    it left, every other cell and every other object is as before, and the
    piece records the destination and keeps its color. *)
Theorem move_then_get_piece self piece r c :
  full_grid self ->
  live self piece ->
  on_board r c ->
  get_piece self r c = Ok None ->
  exists self',
    move self piece r c = Ok self'
    /\ get_piece self' r c = Ok (Some piece)
    /\ get_piece self' (row (heap self piece)) (col (heap self piece)) = Ok None
    /\ (forall r' c', on_board r' c' ->
          (r', c') <> (r, c) ->
          (r', c') <> (row (heap self piece), col (heap self piece)) ->
          get_piece self' r' c' = get_piece self r' c')
    /\ row (heap self' piece) = r
    /\ col (heap self' piece) = c
    /\ color (heap self' piece) = color (heap self piece)
    /\ (forall q, q <> piece -> heap self' q = heap self q).
Proof.
  intros Hgrid [Hp Hsrc] Hrc Hdst.
  destruct (move_swap self piece r c Hgrid Hrc Hp)
    as (dst & src & self' & Hdst' & Hsrc' & Hrun & _ & Hget & _ & Hheap & _).
  rewrite Hdst in Hdst'. rewrite Hsrc in Hsrc'. simplify_eq.
  exists self'. split; [done|].
  destruct Hrc as [Hr Hc]. destruct Hp as [Hpr Hpc].
  split; [|split; [|split]].
  - rewrite Hget by lia. by rewrite decide_True.
  - rewrite Hget by lia. rewrite decide_False; [by rewrite decide_True|].
    intros [Heq1 Heq2]. rewrite Heq1, Heq2 in Hsrc. congruence.
  - intros r' c' [Hr' Hc'] Hne1 Hne2. rewrite Hget by lia.
    rewrite !decide_False; [done|..]; intros [-> ->]; done.
  - rewrite (Hheap piece), decide_True by done.
    unfold moved_piece. destruct (edge_row r); simpl;
      (repeat split; [intros q Hq; by rewrite Hheap, decide_False]).
Qed.

Lemma move_then_get_piece_witness :
  exists self',
    move initial_board 8%nat 3 2 = Ok self'
    /\ get_piece self' 3 2 = Ok (Some 8%nat)
    /\ get_piece self' (row (heap initial_board 8%nat))
         (col (heap initial_board 8%nat)) = Ok None
    /\ (forall r' c', on_board r' c' ->
          (r', c') <> (3, 2) ->
          (r', c') <> (row (heap initial_board 8%nat),
                       col (heap initial_board 8%nat)) ->
          get_piece self' r' c' = get_piece initial_board r' c')
    /\ row (heap self' 8%nat) = 3
    /\ col (heap self' 8%nat) = 2
    /\ color (heap self' 8%nat) = color (heap initial_board 8%nat)
    /\ (forall q, q <> 8%nat -> heap self' q = heap initial_board q).
Proof.
  apply (move_then_get_piece initial_board 8%nat 3 2).
  - exact full_grid_initial.
  - apply live_initial. lia.
  - unfold on_board, ROWS, COLS. lia.
  - vm_compute. reflexivity.
Defined.

(** X2: moving a live piece to an empty cell and back, neither on an edge
    row, restores every cell, every object and every counter. *)
Theorem move_and_back self piece r c :
  full_grid self ->
  live self piece ->
  on_board r c ->
  get_piece self r c = Ok None ->
  edge_row r = false ->
  edge_row (row (heap self piece)) = false ->
  exists self1 self2,
    move self piece r c = Ok self1
    /\ move self1 piece (row (heap self piece)) (col (heap self piece))
       = Ok self2
    /\ (forall r' c', on_board r' c' ->
          get_piece self2 r' c' = get_piece self r' c')
    /\ (forall q, heap self2 q = heap self q)
    /\ red_left self2 = red_left self
    /\ white_left self2 = white_left self
    /\ red_kings self2 = red_kings self
    /\ white_kings self2 = white_kings self.
Proof.
  intros Hgrid [Hp Hsrc] Hrc Hdst Hedge Hedge0.
  destruct (move_swap self piece r c Hgrid Hrc Hp)
    as (dst & src & self1 & Hdst' & Hsrc' & Hrun1 & Hgrid1 & Hget1 & _
        & Hheap1 & Hrl1 & Hwl1 & Hwk1 & Hrk1).
  rewrite Hdst in Hdst'. rewrite Hsrc in Hsrc'. simplify_eq.
  assert (heap self1 piece = Piece_move (heap self piece) r c) as Hp1.
  { rewrite Hheap1, decide_True by done. unfold moved_piece. by rewrite Hedge. }
  assert (on_board (row (heap self1 piece)) (col (heap self1 piece))) as Hon1
    by (by rewrite Hp1).
  destruct (move_swap self1 piece _ _ Hgrid1 Hp Hon1)
    as (dst & src & self2 & Hdst2 & Hsrc2 & Hrun2 & _ & Hget2 & _
        & Hheap2 & Hrl2 & Hwl2 & Hwk2 & Hrk2).
  destruct Hrc as [Hr Hc]. destruct Hp as [Hpr Hpc].
  assert ((r, c) <> (row (heap self piece), col (heap self piece))) as Hne.
  { intros [= -> ->]. congruence. }
  rewrite Hp1 in Hsrc2, Hget2. simpl in Hsrc2, Hget2.
  rewrite Hget1 in Hdst2, Hsrc2 by lia.
  rewrite decide_True in Hsrc2 by done.
  rewrite decide_False in Hdst2
    by (intros [Ha Hb]; apply Hne; by rewrite <- Ha, <- Hb).
  rewrite decide_True in Hdst2 by done. simplify_eq.
  exists self1, self2. split; [done|]. split; [done|].
  rewrite Hedge in *. rewrite Hedge0 in *. simpl in *.
  split; [|split; [|repeat split; lia]].
  - intros r' c' [Hr' Hc']. rewrite Hget2, Hget1 by lia.
    repeat case_decide; try done; destruct_and?; simplify_eq; done.
  - intros q. rewrite Hheap2. case_decide as Hq; [subst q|].
    + rewrite Hp1. unfold moved_piece. rewrite Hedge0.
      by destruct (heap self piece).
    + by rewrite Hheap1, decide_False.
Qed.

Lemma move_and_back_witness :
  exists self1 self2,
    move initial_board 8%nat 3 2 = Ok self1
    /\ move self1 8%nat (row (heap initial_board 8%nat))
         (col (heap initial_board 8%nat)) = Ok self2
    /\ (forall r' c', on_board r' c' ->
          get_piece self2 r' c' = get_piece initial_board r' c')
    /\ (forall q, heap self2 q = heap initial_board q)
    /\ red_left self2 = red_left initial_board
    /\ white_left self2 = white_left initial_board
    /\ red_kings self2 = red_kings initial_board
    /\ white_kings self2 = white_kings initial_board.
Proof.
  apply (move_and_back initial_board 8%nat 3 2).
  - exact full_grid_initial.
  - apply live_initial. lia.
  - unfold on_board, ROWS, COLS. lia.
  - vm_compute. reflexivity.
  - reflexivity.
  - vm_compute. reflexivity.
Defined.

(** X3: [move] never captures: whatever the destination holds, both
    live-piece counters and the number of pieces of each color on the grid
    are as before. *)
Theorem move_keeps_material self piece r c :
  full_grid self ->
  on_board (row (heap self piece)) (col (heap self piece)) ->
  on_board r c ->
  exists self',
    move self piece r c = Ok self'
    /\ red_left self' = red_left self
    /\ white_left self' = white_left self
    /\ forall cl,
         length (get_all_pieces self' cl) = length (get_all_pieces self cl).
Proof.
  intros Hgrid Hp Hrc.
  destruct (move_swap self piece r c Hgrid Hrc Hp)
    as (dst & src & self' & _ & _ & Hrun & _ & _ & Hcount & _ & Hrl & Hwl & _).
  by exists self'.
Qed.

Lemma move_keeps_material_witness :
  exists self',
    move initial_board 8%nat 2 3 = Ok self'
    /\ red_left self' = red_left initial_board
    /\ white_left self' = white_left initial_board
    /\ forall cl,
         length (get_all_pieces self' cl)
         = length (get_all_pieces initial_board cl).
Proof.
  apply (move_keeps_material initial_board 8%nat 2 3).
  - exact full_grid_initial.
  - apply live_initial. lia.
  - unfold on_board, ROWS, COLS. lia.
Defined.

(** X4: [move] does not check the destination.  When another live piece
    stands there, the two pieces change places, and the displaced piece still
    records the destination, so it is no longer live at its recorded cell. *)
Theorem move_onto_occupied self piece other :
  full_grid self ->
  live self piece ->
  live self other ->
  other <> piece ->
  exists self',
    move self piece (row (heap self other)) (col (heap self other)) = Ok self'
    /\ get_piece self' (row (heap self other)) (col (heap self other))
       = Ok (Some piece)
    /\ get_piece self' (row (heap self piece)) (col (heap self piece))
       = Ok (Some other)
    /\ heap self' other = heap self other
    /\ ~ live self' other.
Proof.
  intros Hgrid [Hp Hsrc] [Ho Hdst] Hne.
  destruct (move_swap self piece _ _ Hgrid Ho Hp)
    as (dst & src & self' & Hdst' & Hsrc' & Hrun & _ & Hget & _ & Hheap & _).
  rewrite Hdst in Hdst'. rewrite Hsrc in Hsrc'. simplify_eq.
  exists self'. split; [done|].
  destruct Ho as [Hor Hoc]. destruct Hp as [Hpr Hpc].
  assert (get_piece self' (row (heap self other)) (col (heap self other))
          = Ok (Some piece)) as Hnew.
  { rewrite Hget by lia. by rewrite decide_True. }
  assert (heap self' other = heap self other) as Hsame
    by (by rewrite Hheap, decide_False).
  split; [done|]. split; [|split; [done|]].
  - rewrite Hget by lia. rewrite decide_False; [by rewrite decide_True|].
    intros [Heq1 Heq2]. rewrite Heq1, Heq2 in Hsrc. congruence.
  - intros [_ Hlive]. rewrite Hsame, Hnew in Hlive. congruence.
Qed.

Lemma move_onto_occupied_witness :
  exists self',
    move initial_board 8%nat (row (heap initial_board 9%nat))
      (col (heap initial_board 9%nat)) = Ok self'
    /\ get_piece self' (row (heap initial_board 9%nat))
         (col (heap initial_board 9%nat)) = Ok (Some 8%nat)
    /\ get_piece self' (row (heap initial_board 8%nat))
         (col (heap initial_board 8%nat)) = Ok (Some 9%nat)
    /\ heap self' 9%nat = heap initial_board 9%nat
    /\ ~ live self' 9%nat.
Proof.
  apply (move_onto_occupied initial_board 8%nat 9%nat).
  - exact full_grid_initial.
  - apply live_initial. lia.
  - apply live_initial. lia.
  - lia.
Defined.

(** X5: while the counters are at most [2^49] in absolute value, [move]
    changes the score only by promotion: a move onto row 0 or row [ROWS - 1]
    adds one half for a top-color piece and takes one half off for a
    bottom-color piece (also when the piece is a king already), any other
    move leaves the score as it was.  Both scores are the exact values of
    the floats [evaluate] returns. *)
Theorem evaluate_after_move self piece r c :
  full_grid self ->
  on_board (row (heap self piece)) (col (heap self piece)) ->
  on_board r c ->
  counters_within (2 ^ 49) self ->
  exists self' q,
    move self piece r c = Ok self'
    /\ evaluate_returns self q
    /\ evaluate_returns self'
         (q + (if edge_row r then
                 if decide (color (heap self piece) = PLAYER_COLOR_TOP)
                 then 1 # 2 else - (1 # 2)
               else 0)).
Proof.
  intros Hgrid Hp Hrc (Hbrl & Hbwl & Hbrk & Hbwk).
  change (2 ^ 49) with 562949953421312 in *.
  destruct (move_swap self piece r c Hgrid Hrc Hp)
    as (dst & src & self' & _ & _ & Hrun & _ & _ & _ & _
        & Hrl & Hwl & Hwk & Hrk).
  exists self',
    (inject_Z (2 * (white_left self - red_left self)
               + (white_kings self - red_kings self)) * (1 # 2))%Q.
  split; [done|]. split.
  - apply evaluate_returns_intro; [|done].
    unfold counters_within. change (2 ^ 50) with 1125899906842624. lia.
  - apply evaluate_returns_intro.
    + unfold counters_within. change (2 ^ 50) with 1125899906842624.
      rewrite Hrl, Hwl, Hwk, Hrk.
      destruct (edge_row r && _), (edge_row r && _); lia.
    + rewrite Hrl, Hwl, Hwk, Hrk.
      destruct (edge_row r); simpl;
        [destruct (decide (color (heap self piece) = PLAYER_COLOR_TOP));
         [rewrite bool_decide_eq_true_2 by done
         |rewrite bool_decide_eq_false_2 by done]|];
        simpl; rewrite ?Z.add_0_r, ?inject_Z_plus, ?inject_Z_mult;
        unfold Z.sub; rewrite ?inject_Z_plus, ?inject_Z_opp, ?inject_Z_plus;
        ring.
Qed.

Lemma evaluate_after_move_witness :
  exists self' q,
    move king_near_edge 0%nat 0 1 = Ok self'
    /\ evaluate_returns king_near_edge q
    /\ evaluate_returns self'
         (q + (if edge_row 0 then
                 if decide (color (heap king_near_edge 0%nat)
                            = PLAYER_COLOR_TOP)
                 then 1 # 2 else - (1 # 2)
               else 0)).
Proof.
  apply (evaluate_after_move king_near_edge 0%nat 0 1).
  - apply full_grid_example.
  - unfold on_board, ROWS, COLS. simpl. lia.
  - unfold on_board, ROWS, COLS. lia.
  - unfold counters_within. simpl. lia.
Defined.

(** * Further properties of [get_all_pieces], [remove] and [winner] *)

Lemma elem_of_cell_pieces color_of cl x q :
  q ∈ cell_pieces color_of cl x <-> x = Some q /\ color_of q = cl.
Proof.
  destruct x as [q'|]; simpl.
  - destruct (decide (color_of q' = cl)) as [Hcl|Hcl].
    + rewrite list_elem_of_singleton. split; [by intros ->|].
      by intros [[= ->] _].
    + rewrite elem_of_nil. split; [done|]. intros [[= ->] ?]. done.
  - rewrite elem_of_nil. split; [done|]. by intros [? _].
Qed.

Lemma elem_of_flat_map_lookup {A B} (f : A -> list B) (l : list A) b :
  b ∈ flat_map f l <-> exists i x, l !! i = Some x /\ b ∈ f x.
Proof.
  rewrite list_elem_of_In, in_flat_map. split.
  - intros (x & Hx & Hb). apply list_elem_of_In, list_elem_of_lookup in Hx
      as [i Hi]. exists i, x. by rewrite list_elem_of_In.
  - intros (i & x & Hi & Hb). exists x. rewrite <- !list_elem_of_In.
    split; [|done]. apply list_elem_of_lookup. eauto.
Qed.

Lemma NoDup_flat_map_lookup {A B} (f : A -> list B) (l : list A) :
  (forall i x, l !! i = Some x -> NoDup (f x)) ->
  (forall i j x y b, l !! i = Some x -> l !! j = Some y ->
     b ∈ f x -> b ∈ f y -> i = j) ->
  NoDup (flat_map f l).
Proof.
  induction l as [|a l IH]; intros Hnd Hdisj; simpl; [constructor|].
  apply NoDup_app. split; [by apply (Hnd O)|]. split.
  - intros b Hb Hb'. apply elem_of_flat_map_lookup in Hb' as (j & y & Hj & Hy).
    by specialize (Hdisj O (S j) a y b eq_refl Hj Hb Hy).
  - apply IH.
    + intros i x Hi. by apply (Hnd (S i)).
    + intros i j x y b Hi Hj Hx Hy.
      by specialize (Hdisj (S i) (S j) x y b Hi Hj Hx Hy) as [= ->].
Qed.

(** A cell given by list positions is a cell of the board. *)
Lemma cell_lookup self i j l x :
  full_grid self ->
  board self !! i = Some l -> l !! j = Some x ->
  on_board (Z.of_nat i) (Z.of_nat j)
  /\ get_piece self (Z.of_nat i) (Z.of_nat j) = Ok x.
Proof.
  intros [Hrows Hcols] Hl Hx.
  pose proof (lookup_lt_Some _ _ _ Hl) as Hi.
  pose proof (lookup_lt_Some _ _ _ Hx) as Hj.
  pose proof (Forall_lookup_1 _ _ _ _ Hcols Hl) as Hlen. simpl in Hlen.
  split.
  - unfold on_board, ROWS, COLS in *. lia.
  - apply grid_get_nonneg; [lia..|]. exists l. by rewrite !Nat2Z.id.
Qed.

Lemma elem_of_get_all_pieces self cl q :
  full_grid self ->
  q ∈ get_all_pieces self cl
  <-> exists r c, on_board r c /\ get_piece self r c = Ok (Some q)
                  /\ color (heap self q) = cl.
Proof.
  intros Hgrid. rewrite get_all_pieces_eq, elem_of_flat_map_lookup. split.
  - intros (i & l & Hl & Hq).
    apply elem_of_flat_map_lookup in Hq as (j & x & Hx & Hq).
    apply elem_of_cell_pieces in Hq as [-> Hcl].
    destruct (cell_lookup self i j l _ Hgrid Hl Hx) as [Hon Hget].
    by exists (Z.of_nat i), (Z.of_nat j).
  - intros (r & c & [Hr Hc] & Hget & Hcl).
    apply grid_get_nonneg in Hget as (l & Hl & Hx); [|lia..].
    exists (Z.to_nat r), l. split; [done|].
    apply elem_of_flat_map_lookup. exists (Z.to_nat c), (Some q).
    split; [done|]. by apply elem_of_cell_pieces.
Qed.

Lemma NoDup_get_all_pieces self cl :
  full_grid self -> positions_agree self -> NoDup (get_all_pieces self cl).
Proof.
  intros Hgrid Hpos. rewrite get_all_pieces_eq.
  apply NoDup_flat_map_lookup.
  - intros i l Hl. apply NoDup_flat_map_lookup.
    + intros j [q|] _; simpl; [case_decide|]; try apply NoDup_nil_2.
      apply NoDup_singleton.
    + intros j j' x y q Hx Hy Hq Hq'.
      apply elem_of_cell_pieces in Hq as [-> _].
      apply elem_of_cell_pieces in Hq' as [-> _].
      destruct (cell_lookup self i j l _ Hgrid Hl Hx) as [Hon Hget].
      destruct (cell_lookup self i j' l _ Hgrid Hl Hy) as [Hon' Hget'].
      destruct (Hpos _ _ _ Hon Hget) as [_ Hc].
      destruct (Hpos _ _ _ Hon' Hget') as [_ Hc']. lia.
  - intros i i' l l' q Hl Hl' Hq Hq'.
    apply elem_of_flat_map_lookup in Hq as (j & x & Hx & Hq).
    apply elem_of_flat_map_lookup in Hq' as (j' & y & Hy & Hq').
    apply elem_of_cell_pieces in Hq as [-> _].
    apply elem_of_cell_pieces in Hq' as [-> _].
    destruct (cell_lookup self i j l _ Hgrid Hl Hx) as [Hon Hget].
    destruct (cell_lookup self i' j' l' _ Hgrid Hl' Hy) as [Hon' Hget'].
    destruct (Hpos _ _ _ Hon Hget) as [Hr _].
    destruct (Hpos _ _ _ Hon' Hget') as [Hr' _]. lia.
Qed.

(** X6: on a board that satisfies the invariant, [get_all_pieces] returns
    each live piece of the color exactly once and nothing else. *)
Theorem get_all_pieces_live self cl :
  board_inv self ->
  NoDup (get_all_pieces self cl)
  /\ forall q, q ∈ get_all_pieces self cl
               <-> live self q /\ color (heap self q) = cl.
Proof.
  intros (Hgrid & Hpos & _). split; [by apply NoDup_get_all_pieces|].
  intros q. rewrite elem_of_get_all_pieces by done. split.
  - intros (r & c & Hon & Hget & Hcl). split; [|done].
    destruct (Hpos r c q Hon Hget) as [<- <-]. by split.
  - intros [[Hon Hget] Hcl]. eauto.
Qed.

Lemma get_all_pieces_live_witness :
  NoDup (get_all_pieces initial_board PLAYER_COLOR_TOP)
  /\ forall q, q ∈ get_all_pieces initial_board PLAYER_COLOR_TOP
               <-> live initial_board q
                   /\ color (heap initial_board q) = PLAYER_COLOR_TOP.
Proof.
  apply (get_all_pieces_live initial_board PLAYER_COLOR_TOP).
  exact initial_inv.
Defined.

(** X7: [remove] touches nothing but the recorded cells of the given
    pieces and the two live-piece counters: every other cell, every piece
    object and both king counters are as before, also when a removed piece
    is a king. *)
Theorem remove_frame self pieces :
  Forall (live self) pieces ->
  exists self',
    remove self pieces = Ok self'
    /\ (forall r c, on_board r c ->
          (forall q, q ∈ pieces ->
             (r, c) <> (row (heap self q), col (heap self q))) ->
          get_piece self' r c = get_piece self r c)
    /\ heap self' = heap self
    /\ red_kings self' = red_kings self
    /\ white_kings self' = white_kings self.
Proof.
  intros Hlive.
  destruct (remove_spec pieces self) as
    (self' & Hrun & Hheap & _ & Hget & _ & _ & Hrk & Hwk).
  { eapply Forall_impl; [exact Hlive|]. simpl.
    intros q [[[? _] [? _]] ?]. eauto. }
  exists self'. split; [done|]. split; [|done].
  intros r c [Hr Hc] Hnot. rewrite Hget by lia.
  rewrite decide_False; [done|].
  intros (q & Hq & -> & ->)%Exists_exists. by apply (Hnot q).
Qed.

Lemma remove_frame_witness :
  exists self',
    remove initial_board [0%nat; 12%nat] = Ok self'
    /\ (forall r c, on_board r c ->
          (forall q, q ∈ [0%nat; 12%nat] ->
             (r, c) <> (row (heap initial_board q),
                        col (heap initial_board q))) ->
          get_piece self' r c = get_piece initial_board r c)
    /\ heap self' = heap initial_board
    /\ red_kings self' = red_kings initial_board
    /\ white_kings self' = white_kings initial_board.
Proof.
  apply (remove_frame initial_board [0%nat; 12%nat]).
  repeat (constructor; [apply live_initial; lia|]). constructor.
Defined.

(** X8: while the counters and the number of given pieces are at most
    [2^49], [remove] moves the score by one point per given piece, up for a
    bottom-color piece and down for a top-color piece; the half point of a
    removed king stays in the score.  Both scores are the exact values of
    the floats [evaluate] returns. *)
Theorem evaluate_after_remove self pieces :
  Forall (live self) pieces ->
  counters_within (2 ^ 49) self ->
  Z.of_nat (length pieces) <= 2 ^ 49 ->
  exists self' q,
    remove self pieces = Ok self'
    /\ evaluate_returns self q
    /\ evaluate_returns self'
         (q + inject_Z (count_color self PLAYER_COLOR_BOTTOM pieces)
            - inject_Z (count_color self PLAYER_COLOR_TOP pieces)).
Proof.
  intros Hlive (Hbrl & Hbwl & Hbrk & Hbwk) Hlen.
  change (2 ^ 49) with 562949953421312 in *.
  destruct (remove_spec pieces self) as
    (self' & Hrun & _ & _ & _ & Hrl & Hwl & Hrk & Hwk).
  { eapply Forall_impl; [exact Hlive|]. simpl.
    intros q [[[? _] [? _]] ?]. eauto. }
  pose proof (count_color_bounds self PLAYER_COLOR_BOTTOM pieces).
  pose proof (count_color_bounds self PLAYER_COLOR_TOP pieces).
  exists self',
    (inject_Z (2 * (white_left self - red_left self)
               + (white_kings self - red_kings self)) * (1 # 2))%Q.
  split; [done|]. split.
  - apply evaluate_returns_intro; [|done].
    unfold counters_within. change (2 ^ 50) with 1125899906842624. lia.
  - apply evaluate_returns_intro.
    + unfold counters_within. change (2 ^ 50) with 1125899906842624.
      rewrite Hrl, Hwl, Hrk, Hwk. lia.
    + rewrite Hrl, Hwl, Hrk, Hwk.
      unfold Z.sub. rewrite !inject_Z_plus, !inject_Z_mult, !inject_Z_plus,
        !inject_Z_opp, !inject_Z_plus, !inject_Z_opp. ring.
Qed.

Lemma evaluate_after_remove_witness :
  exists self' q,
    remove king_near_edge [0%nat] = Ok self'
    /\ evaluate_returns king_near_edge q
    /\ evaluate_returns self'
         (q + inject_Z (count_color king_near_edge PLAYER_COLOR_BOTTOM
                          [0%nat])
            - inject_Z (count_color king_near_edge PLAYER_COLOR_TOP
                          [0%nat])).
Proof.
  apply (evaluate_after_remove king_near_edge [0%nat]).
  - constructor; [by vm_compute|constructor].
  - unfold counters_within. simpl. lia.
  - simpl. lia.
Defined.

Lemma count_color_all self cl pieces :
  Forall (fun q => color (heap self q) = cl) pieces ->
  count_color self cl pieces = Z.of_nat (length pieces).
Proof.
  intros Hall. unfold count_color. f_equal. f_equal.
  induction Hall as [|q l Hq _ IH]; [done|].
  rewrite filter_cons, decide_True by done. by rewrite IH.
Qed.

Lemma count_color_none self cl pieces :
  Forall (fun q => color (heap self q) <> cl) pieces ->
  count_color self cl pieces = 0.
Proof.
  intros Hall. unfold count_color.
  induction Hall as [|q l Hq _ IH]; [done|].
  by rewrite filter_cons, decide_False.
Qed.

(** X9: on a board that satisfies the invariant, removing every piece that
    [get_all_pieces] returns for a color empties that color: its counter is 0
    and [get_all_pieces] returns nothing for it, the invariant still holds,
    and [winner] names the other color (the top color when both counters
    are 0, since the bottom counter is tested first). *)
Theorem remove_all_wins self cl :
  board_inv self ->
  exists self',
    remove self (get_all_pieces self cl) = Ok self'
    /\ board_inv self'
    /\ get_all_pieces self' cl = []
    /\ (cl = PLAYER_COLOR_BOTTOM ->
        red_left self' = 0 /\ white_left self' = white_left self
        /\ winner self' = Some PLAYER_COLOR_TOP)
    /\ (cl = PLAYER_COLOR_TOP ->
        white_left self' = 0 /\ red_left self' = red_left self
        /\ winner self'
           = Some (if red_left self <=? 0 then PLAYER_COLOR_TOP
                   else PLAYER_COLOR_BOTTOM)).
Proof.
  intros Hinv.
  pose proof Hinv as (Hgrid & Hpos & _ & Hred & Hwhite).
  assert (forall q, q ∈ get_all_pieces self cl
                    -> live self q /\ color (heap self q) = cl) as Hall.
  { intros q (r & c & Hon & Hget & Hcl)%elem_of_get_all_pieces; [|done].
    split; [|done]. destruct (Hpos r c q Hon Hget) as [<- <-]. by split. }
  assert (Forall (live self) (get_all_pieces self cl)) as Hlive.
  { apply Forall_forall. intros q Hq. by apply Hall. }
  destruct (remove_inv _ self Hinv Hlive) as (self' & Hrun & Hinv');
    [by apply NoDup_get_all_pieces|].
  destruct (remove_spec (get_all_pieces self cl) self) as
    (self'' & Hrun' & _ & _ & _ & Hrl & Hwl & _).
  { eapply Forall_impl; [exact Hlive|]. simpl.
    intros q [[[? _] [? _]] ?]. eauto. }
  rewrite Hrun in Hrun'. apply Ok_inj in Hrun'. subst self''.
  exists self'. split; [done|]. split; [done|].
  assert (Forall (fun q => color (heap self q) = cl) (get_all_pieces self cl))
    as Hcl by (apply Forall_forall; intros q Hq; by apply Hall).
  pose proof Hinv' as (_ & _ & _ & Hred' & Hwhite').
  destruct cl.
  - rewrite (count_color_all self PLAYER_COLOR_TOP) in Hwl by done.
    rewrite (count_color_none self PLAYER_COLOR_BOTTOM) in Hrl
      by (eapply Forall_impl; [exact Hcl|]; simpl; congruence).
    rewrite Z.sub_0_r in Hrl.
    assert (white_left self' = 0) as Hw0 by lia.
    split; [|split; [done|]].
    { rewrite Hw0 in Hwhite'. by apply nil_length_inv, Nat2Z.inj. }
    intros _. split; [done|]. split; [lia|].
    unfold winner. rewrite Hw0, Hrl. simpl. by destruct (red_left self <=? 0).
  - rewrite (count_color_all self PLAYER_COLOR_BOTTOM) in Hrl by done.
    rewrite (count_color_none self PLAYER_COLOR_TOP) in Hwl
      by (eapply Forall_impl; [exact Hcl|]; simpl; congruence).
    assert (red_left self' = 0) as Hr0 by lia.
    split; [|split; [|done]].
    { rewrite Hr0 in Hred'. by apply nil_length_inv, Nat2Z.inj. }
    intros _. split; [done|]. split; [lia|].
    unfold winner. by rewrite Hr0.
Qed.

Lemma remove_all_wins_witness :
  exists self',
    remove initial_board (get_all_pieces initial_board PLAYER_COLOR_BOTTOM)
    = Ok self'
    /\ board_inv self'
    /\ get_all_pieces self' PLAYER_COLOR_BOTTOM = []
    /\ (PLAYER_COLOR_BOTTOM = PLAYER_COLOR_BOTTOM ->
        red_left self' = 0 /\ white_left self' = white_left initial_board
        /\ winner self' = Some PLAYER_COLOR_TOP)
    /\ (PLAYER_COLOR_BOTTOM = PLAYER_COLOR_TOP ->
        white_left self' = 0 /\ red_left self' = red_left initial_board
        /\ winner self'
           = Some (if red_left initial_board <=? 0 then PLAYER_COLOR_TOP
                   else PLAYER_COLOR_BOTTOM)).
Proof.
  apply (remove_all_wins initial_board PLAYER_COLOR_BOTTOM).
  exact initial_inv.
Defined.

(** * Further properties of the move generation *)

Section ChainShape.
Variable read : Z -> Z -> result cell.
Variable color_of : ref -> Color.
Variable cl : Color.

Lemma jumps_1 step from full to :
  jumps read color_of cl step from full to ->
  length full = 1%nat ->
  exists d q, hop read color_of cl step from d q to /\ full = [q].
Proof.
  intros Hj Hlen.
  inversion Hj as [? d q ? H1|? d q mid full' ? H1 Hj']; subst; [eauto|].
  apply jumps_length in Hj'. rewrite length_app in Hlen. simpl in Hlen. lia.
Qed.

Lemma jumps_3 step from full to :
  jumps read color_of cl step from full to ->
  length full = 3%nat ->
  exists d1 q1 m1 d2 q2 m2 d3 q3,
    hop read color_of cl step from d1 q1 m1
    /\ hop read color_of cl step m1 d2 q2 m2
    /\ hop read color_of cl step m2 d3 q3 to
    /\ full = [q3; q2; q1].
Proof.
  intros Hj Hlen.
  inversion Hj as [? d q ? H1|? d1 q1 m1 full' ? H1 Hj']; subst; [done|].
  rewrite length_app in Hlen. simpl in Hlen.
  destruct (jumps_two _ _ _ _ _ _ _ Hj')
    as (d2 & q2 & m2 & d3 & q3 & H2 & H3 & ->); [lia|].
  by exists d1, q1, m1, d2, q2, m2, d3, q3.
Qed.

(** The piece at position [i] of a chain's list (the last jumped first)
    has the other color and was read on the row [2 * i + 1] steps before the
    landing row. *)
Lemma jumps_cells step from full to :
  jumps read color_of cl step from full to ->
  forall i q, full !! i = Some q ->
    color_of q <> cl
    /\ exists c, read (to.1 - step - 2 * Z.of_nat i * step) c = Ok (Some q).
Proof.
  induction 1 as [from d q0 to (_ & Hr & Hq & _ & ->)
                 |from d q0 mid full to (_ & Hr & Hq & _ & ->) Hj IH];
    intros i q Hi.
  - destruct i as [|i]; [|done]. simpl in *. simplify_eq.
    split; [done|]. exists (from.2 + d).
    match goal with
    | |- read ?a _ = _ => replace a with (from.1 + step) by lia
    end. done.
  - apply lookup_app_Some in Hi as [Hi|[Hlen Hi]]; [by apply IH|].
    destruct (i - length full)%nat as [|n] eqn:Hn; [|done].
    simpl in Hi. simplify_eq. split; [done|]. exists (from.2 + d).
    apply jumps_row in Hj. simpl in Hj.
    assert (i = length full) as -> by lia.
    match goal with
    | |- read ?a _ = _ => replace a with (from.1 + step) by lia
    end. done.
Qed.

(** A chain moves the column by an even amount, at most two per jump. *)
Lemma jumps_col step from full to :
  jumps read color_of cl step from full to ->
  exists n, to.2 = from.2 + 2 * n
            /\ - Z.of_nat (length full) <= n <= Z.of_nat (length full).
Proof.
  induction 1 as [from d q0 to (Hd & _ & _ & _ & ->)
                 |from d q0 mid full to (Hd & _ & _ & _ & ->) Hj
                    (n & Hn & Hb)]; simpl in *.
  - exists d. lia.
  - exists (d + n). rewrite length_app. simpl. lia.
Qed.
End ChainShape.

Lemma allowed_step p step : allowed p step -> step = -1 \/ step = 1.
Proof. intros [[-> _]|[-> _]]; auto. Qed.

(** The pieces of a capture chain on a board whose pieces record their
    cells: each is live, of the other color, and recorded on its row. *)
Lemma board_jumps_live self cl step from full to :
  positions_agree self ->
  board_jumps self cl step from full to ->
  forall i q, full !! i = Some q ->
    live self q /\ color (heap self q) <> cl
    /\ row (heap self q) = to.1 - step - 2 * Z.of_nat i * step.
Proof.
  intros Hpos Hj i q Hi.
  destruct (jumps_cells _ _ _ _ _ _ _ Hj i q Hi) as (Hcl & c & Hr).
  apply get_piece_checked_Ok in Hr as [Hon Hget].
  destruct (Hpos _ _ _ Hon Hget) as [Hrow Hcol].
  split; [|split; [done|by rewrite Hrow]].
  split; by rewrite Hrow, Hcol.
Qed.

(** The value stored for a key on a board that satisfies the invariant. *)
Lemma capture_list_live self piece m k v :
  positions_agree self ->
  get_valid_moves_checked self piece = Ok m ->
  m !! k = Some v ->
  (length v <= 2)%nat
  /\ NoDup v
  /\ forall q, q ∈ v ->
       live self q /\ color (heap self q) <> color (heap self piece).
Proof.
  intros Hpos Hrun Hk.
  destruct (get_valid_moves_values _ _ _ _ _ Hrun Hk)
    as [(-> & _)|(step & full & Hal & Hj & ->)].
  { split; [simpl; lia|]. split; [constructor|]. by intros q ?%elem_of_nil. }
  apply allowed_step in Hal.
  pose proof (board_jumps_live _ _ _ _ _ _ Hpos Hj) as Hcells.
  split; [rewrite length_take; lia|]. split.
  - destruct full as [|q2 [|q1 rest]]; simpl;
      [constructor|apply NoDup_singleton|].
    destruct (Hcells O q2 eq_refl) as (_ & _ & H2).
    destruct (Hcells 1%nat q1 eq_refl) as (_ & _ & H1).
    apply NoDup_cons. split; [|apply NoDup_singleton].
    rewrite list_elem_of_singleton. intros ->. lia.
  - intros q Hq. apply list_elem_of_lookup in Hq as [i Hi].
    apply lookup_take_Some in Hi as [Hi _].
    destruct (Hcells i q Hi) as (? & ? & _). done.
Qed.

(** X10: the keys with an empty capture list are exactly the empty
    diagonal neighbours of the piece in the row directions it may travel. *)
Theorem plain_moves self piece :
  full_grid self ->
  on_board (row (heap self piece)) (col (heap self piece)) ->
  exists m,
    get_valid_moves self piece = Ok m
    /\ forall k,
         m !! k = Some []
         <-> exists step d,
               allowed (heap self piece) step /\ (d = -1 \/ d = 1)
               /\ k = (row (heap self piece) + step,
                       col (heap self piece) + d)
               /\ get_piece_checked self k.1 k.2 = Ok None.
Proof.
  intros Hgrid Hp.
  destruct (get_valid_moves_terminates self piece Hgrid Hp) as (m & Hc & Hm).
  exists m. split; [done|]. intros k. split.
  - intros Hk.
    destruct (get_valid_moves_entries _ _ _ _ _ Hc Hk) as (s & st & _ & Hw).
    apply written_empty in Hw.
    destruct (get_valid_moves_values _ _ _ _ _ Hc Hk)
      as [(_ & step & d & Hal & Hd & ->)|(step & full & _ & Hj & Hv)].
    + by exists step, d.
    + apply jumps_length in Hj. destruct full as [|? [|? ?]]; simpl in *;
        done || lia.
  - intros (step & d & Hal & Hd & -> & Hempty). simpl in Hempty.
    destruct (dcol_cases d Hd) as [s ->].
    pose proof (allowed_step _ _ Hal) as Hstep.
    pose proof Hempty as [Hon _]%get_piece_checked_Ok.
    assert (is_Some (m !! (row (heap self piece) + step,
                           col (heap self piece) + dcol s))) as [v Hv].
    { eapply (get_valid_moves_with_complete (get_piece_checked self)
                (color_in self) (heap self piece) m s step);
        [exact Hc|exact Hal|].
      apply written_move; [|by eapply on_board_off_board|done].
      destruct Hon as [Hr _]. unfold on_board, ROWS in *.
      unfold span, top_stop, ROWS. destruct Hstep as [-> | ->]; simpl; lia. }
    destruct (get_valid_moves_values _ _ _ _ _ Hc Hv)
      as [(-> & _)|(step' & full & Hal' & Hj & _)]; [done|].
    exfalso. apply allowed_step in Hal'.
    apply jumps_row in Hj. simpl in Hj.
    destruct Hstep as [-> | ->], Hal' as [-> | ->]; lia.
Qed.

Lemma plain_moves_witness :
  exists m,
    get_valid_moves lone_king 0%nat = Ok m
    /\ forall k,
         m !! k = Some []
         <-> exists step d,
               allowed (heap lone_king 0%nat) step /\ (d = -1 \/ d = 1)
               /\ k = (row (heap lone_king 0%nat) + step,
                       col (heap lone_king 0%nat) + d)
               /\ get_piece_checked lone_king k.1 k.2 = Ok None.
Proof.
  apply (plain_moves lone_king 0%nat).
  - apply full_grid_example.
  - unfold on_board, ROWS, COLS. simpl. lia.
Defined.

(** X11: a single jump in a row direction the piece may travel is always
    returned, also when it lands on row 0 or row 7, and the capture list at
    its landing cell is exactly the jumped piece. *)
Theorem single_jump_found self piece step d q dest :
  full_grid self ->
  on_board (row (heap self piece)) (col (heap self piece)) ->
  allowed (heap self piece) step ->
  board_hop self (color (heap self piece)) step
    (row (heap self piece), col (heap self piece)) d q dest ->
  exists m, get_valid_moves self piece = Ok m /\ m !! dest = Some [q].
Proof.
  intros Hgrid Hp Hal H1.
  destruct (get_valid_moves_terminates self piece Hgrid Hp) as (m & Hc & Hm).
  exists m. split; [done|].
  pose proof (allowed_step _ _ Hal) as Hstep.
  pose proof (board_hop_on_board _ _ _ _ _ _ _ H1) as [Hon1 Hdest].
  pose proof H1 as (Hd & Hr1 & _ & _ & Hdest_eq). simpl in *.
  destruct (dcol_cases d Hd) as [s ->].
  assert (is_Some (m !! dest)) as [v Hv].
  { eapply (get_valid_moves_with_complete (get_piece_checked self)
              (color_in self) (heap self piece) m s step);
      [exact Hc|exact Hal|].
    eapply written_jump_from; [exact H1| | |].
    - subst dest. simpl in *. unfold on_board, ROWS in *.
      unfold span, top_stop, ROWS. destruct Hstep as [-> | ->]; simpl; lia.
    - eapply on_board_off_board, Hon1.
    - subst dest. eapply on_board_off_board, Hdest. }
  rewrite Hv. f_equal.
  destruct (get_valid_moves_values _ _ _ _ _ Hc Hv)
    as [(_ & step' & d' & Hal' & Hd' & Hk)|(step' & full & Hal' & Hj & ->)].
  { exfalso. apply allowed_step in Hal'. rewrite Hdest_eq in Hk.
    injection Hk as Hk _. lia. }
  pose proof (jumps_row _ _ _ _ _ _ _ Hj) as Hlen.
  pose proof (jumps_length _ _ _ _ _ _ _ Hj) as Hpos.
  apply allowed_step in Hal'.
  assert (step' = step /\ length full = 1%nat) as [-> Hlen1].
  { rewrite Hdest_eq in Hlen. simpl in Hlen.
    destruct Hstep as [-> | ->], Hal' as [-> | ->]; lia. }
  destruct (jumps_1 _ _ _ _ _ _ _ Hj Hlen1)
    as (d' & q' & (Hd' & Hr1' & _ & _ & Hdest') & ->). simpl in *.
  assert (d' = dcol s) as -> by (rewrite Hdest_eq in Hdest'; simplify_eq; lia).
  rewrite Hr1 in Hr1'. by simplify_eq.
Qed.

Lemma single_jump_found_witness :
  exists m,
    get_valid_moves double_jump_to_row_0 0%nat = Ok m
    /\ m !! (2, 2) = Some [1%nat].
Proof.
  apply (single_jump_found double_jump_to_row_0 0%nat (-1) (-1) 1%nat (2, 2)).
  - apply full_grid_example.
  - unfold on_board, ROWS, COLS. simpl. lia.
  - left. split; [reflexivity|]. left. reflexivity.
  - unfold board_hop, hop. simpl.
    repeat split; auto; try (vm_compute; reflexivity); vm_compute; congruence.
Defined.

(** X12: every destination lies on another row than the piece, at most as
    many columns away as rows, and on a square of the same parity of
    [row + col]. *)
Theorem destination_geometry self piece :
  full_grid self ->
  on_board (row (heap self piece)) (col (heap self piece)) ->
  exists m,
    get_valid_moves self piece = Ok m
    /\ forall r c v, m !! (r, c) = Some v ->
         r <> row (heap self piece)
         /\ Z.abs (c - col (heap self piece))
            <= Z.abs (r - row (heap self piece))
         /\ exists t, r + c
                      = row (heap self piece) + col (heap self piece) + 2 * t.
Proof.
  intros Hgrid Hp.
  destruct (get_valid_moves_terminates self piece Hgrid Hp) as (m & Hc & Hm).
  exists m. split; [done|]. intros r c v Hk.
  destruct (get_valid_moves_values _ _ _ _ _ Hc Hk)
    as [(_ & step & d & Hal & Hd & Hkk)|(step & full & Hal & Hj & _)];
    apply allowed_step in Hal.
  - injection Hkk as -> ->.
    destruct Hal as [-> | ->], Hd as [-> | ->];
      (split; [lia|]; split; [lia|]);
      [exists (-1)|exists 0|exists 0|exists 1]; lia.
  - pose proof (jumps_row _ _ _ _ _ _ _ Hj) as Hrow.
    pose proof (jumps_length _ _ _ _ _ _ _ Hj) as Hlen.
    destruct (jumps_col _ _ _ _ _ _ _ Hj) as (n & Hcol & Hn).
    simpl in *.
    split; [destruct Hal as [-> | ->]; lia|].
    split; [destruct Hal as [-> | ->]; lia|].
    exists (Z.of_nat (length full) * step + n). lia.
Qed.

Lemma destination_geometry_witness :
  exists m,
    get_valid_moves two_routes 0%nat = Ok m
    /\ forall r c v, m !! (r, c) = Some v ->
         r <> row (heap two_routes 0%nat)
         /\ Z.abs (c - col (heap two_routes 0%nat))
            <= Z.abs (r - row (heap two_routes 0%nat))
         /\ exists t, r + c
                      = row (heap two_routes 0%nat)
                        + col (heap two_routes 0%nat) + 2 * t.
Proof.
  apply (destination_geometry two_routes 0%nat).
  - apply full_grid_example.
  - unfold on_board, ROWS, COLS. simpl. lia.
Defined.

Lemma triple_jump_up_inv : board_inv triple_jump_up.
Proof.
  assert (positions_agree triple_jump_up) as Hpos.
  { intros r c q [Hr Hc] Hq. unfold ROWS, COLS in *.
    assert (r = 0 \/ r = 1 \/ r = 2 \/ r = 3 \/ r = 4 \/ r = 5 \/ r = 6
            \/ r = 7) as Hr' by lia.
    assert (c = 0 \/ c = 1 \/ c = 2 \/ c = 3 \/ c = 4 \/ c = 5 \/ c = 6
            \/ c = 7) as Hc' by lia.
    destruct Hr' as [->|[->|[->|[->|[->|[->|[->| ->]]]]]]];
      destruct Hc' as [->|[->|[->|[->|[->|[->|[->| ->]]]]]]];
      vm_compute in Hq; try discriminate;
      injection Hq as <-; vm_compute; split; reflexivity. }
  split; [apply full_grid_example|]. split; [done|].
  split; [by apply positions_one_cell|]. split; vm_compute; reflexivity.
Qed.

(** X13: on a board that satisfies the invariant, every capture list holds
    at most two pieces, all different, each live on the board, of the other
    color, and never the moving piece itself. *)
Theorem captured_pieces self piece :
  board_inv self ->
  on_board (row (heap self piece)) (col (heap self piece)) ->
  exists m,
    get_valid_moves self piece = Ok m
    /\ forall k v, m !! k = Some v ->
         (length v <= 2)%nat
         /\ NoDup v
         /\ forall q, q ∈ v ->
              live self q
              /\ color (heap self q) <> color (heap self piece)
              /\ q <> piece.
Proof.
  intros (Hgrid & Hpos & _) Hp.
  destruct (get_valid_moves_terminates self piece Hgrid Hp) as (m & Hc & Hm).
  exists m. split; [done|]. intros k v Hk.
  destruct (capture_list_live _ _ _ _ _ Hpos Hc Hk) as (Hlen & Hnd & Hall).
  split; [done|]. split; [done|]. intros q Hq.
  destruct (Hall q Hq) as [Hlive Hcl]. split; [done|]. split; [done|].
  intros ->. done.
Qed.

Lemma captured_pieces_witness :
  exists m,
    get_valid_moves triple_jump_up 0%nat = Ok m
    /\ forall k v, m !! k = Some v ->
         (length v <= 2)%nat
         /\ NoDup v
         /\ forall q, q ∈ v ->
              live triple_jump_up q
              /\ color (heap triple_jump_up q)
                 <> color (heap triple_jump_up 0%nat)
              /\ q <> 0%nat.
Proof.
  apply (captured_pieces triple_jump_up 0%nat).
  - exact triple_jump_up_inv.
  - unfold on_board, ROWS, COLS. simpl. lia.
Defined.

(** X14: a destination six rows from the piece is the end of three jumps,
    and its capture list names only the pieces of the last two: the piece
    jumped first is not in it. *)
Theorem triple_jump_drops_first self piece step :
  board_inv self ->
  on_board (row (heap self piece)) (col (heap self piece)) ->
  step = -1 \/ step = 1 ->
  exists m,
    get_valid_moves self piece = Ok m
    /\ forall c v, m !! (row (heap self piece) + 6 * step, c) = Some v ->
         exists d1 q1 m1 d2 q2 m2 d3 q3,
           board_hop self (color (heap self piece)) step
             (row (heap self piece), col (heap self piece)) d1 q1 m1
           /\ board_hop self (color (heap self piece)) step m1 d2 q2 m2
           /\ board_hop self (color (heap self piece)) step m2 d3 q3
                (row (heap self piece) + 6 * step, c)
           /\ v = [q3; q2]
           /\ q1 ∉ v.
Proof.
  intros (Hgrid & Hpos & _) Hp Hstep.
  destruct (get_valid_moves_terminates self piece Hgrid Hp) as (m & Hc & Hm).
  exists m. split; [done|]. intros c v Hk.
  destruct (get_valid_moves_values _ _ _ _ _ Hc Hk)
    as [(_ & step' & d & Hal & Hd & Hkk)|(step' & full & Hal & Hj & ->)];
    apply allowed_step in Hal.
  { exfalso. injection Hkk as Hkk _.
    destruct Hstep as [-> | ->], Hal as [-> | ->]; lia. }
  pose proof (jumps_row _ _ _ _ _ _ _ Hj) as Hrow.
  pose proof (jumps_length _ _ _ _ _ _ _ Hj) as Hlen. simpl in Hrow.
  assert (step' = step /\ length full = 3%nat) as [-> Hlen3]
    by (destruct Hstep as [-> | ->], Hal as [-> | ->]; lia).
  destruct (jumps_3 _ _ _ _ _ _ _ Hj Hlen3)
    as (d1 & q1 & m1 & d2 & q2 & m2 & d3 & q3 & H1 & H2 & H3 & ->).
  exists d1, q1, m1, d2, q2, m2, d3, q3.
  split; [done|]. split; [done|]. split; [done|]. split; [done|].
  pose proof (board_jumps_live _ _ _ _ _ _ Hpos Hj) as Hcells.
  destruct (Hcells O q3 eq_refl) as (_ & _ & Hr3).
  destruct (Hcells 1%nat q2 eq_refl) as (_ & _ & Hr2).
  destruct (Hcells 2%nat q1 eq_refl) as (_ & _ & Hr1).
  simpl in *. rewrite !elem_of_cons, elem_of_nil.
  intros [->|[->|[]]]; destruct Hstep as [-> | ->]; lia.
Qed.

Lemma triple_jump_drops_first_witness :
  exists m,
    get_valid_moves triple_jump_up 0%nat = Ok m
    /\ forall c v,
         m !! (row (heap triple_jump_up 0%nat) + 6 * -1, c) = Some v ->
         exists d1 q1 m1 d2 q2 m2 d3 q3,
           board_hop triple_jump_up (color (heap triple_jump_up 0%nat)) (-1)
             (row (heap triple_jump_up 0%nat),
              col (heap triple_jump_up 0%nat)) d1 q1 m1
           /\ board_hop triple_jump_up (color (heap triple_jump_up 0%nat))
                (-1) m1 d2 q2 m2
           /\ board_hop triple_jump_up (color (heap triple_jump_up 0%nat))
                (-1) m2 d3 q3
                (row (heap triple_jump_up 0%nat) + 6 * -1, c)
           /\ v = [q3; q2]
           /\ q1 ∉ v.
Proof.
  apply (triple_jump_drops_first triple_jump_up 0%nat (-1)).
  - exact triple_jump_up_inv.
  - unfold on_board, ROWS, COLS. simpl. lia.
  - left. reflexivity.
Defined.

(** The triple jump of the example is returned, with two pieces. *)
Example triple_jump_up_entry :
  exists m,
    get_valid_moves triple_jump_up 0%nat = Ok m
    /\ m !! (1, 0) = Some [3%nat; 2%nat].
Proof.
  exists (match get_valid_moves triple_jump_up 0%nat with
          | Ok m => m | _ => ∅ end).
  split; vm_compute; reflexivity.
Qed.

Lemma count_color_ext self self' cl pieces :
  Forall (fun q => heap self' q = heap self q) pieces ->
  count_color self' cl pieces = count_color self cl pieces.
Proof.
  induction 1 as [|q l Hq _ IH]; [done|].
  by rewrite !count_color_cons, Hq, IH.
Qed.

(** X15: a whole turn keeps the invariant.  On a board that satisfies it,
    moving a live piece to a destination [get_valid_moves] returned and then
    removing the capture list of that destination succeeds; afterwards the
    invariant holds, the piece is live at the destination, the captured
    pieces are off the grid, and only the other color's counter went down,
    by the length of the capture list. *)
Theorem move_then_remove_captured self piece m r c captured :
  board_inv self ->
  live self piece ->
  get_valid_moves self piece = Ok m ->
  m !! (r, c) = Some captured ->
  exists self1 self2,
    move self piece r c = Ok self1
    /\ remove self1 captured = Ok self2
    /\ board_inv self2
    /\ live self2 piece
    /\ row (heap self2 piece) = r /\ col (heap self2 piece) = c
    /\ Forall (fun q => ~ live self2 q) captured
    /\ (color (heap self piece) = PLAYER_COLOR_BOTTOM ->
        red_left self2 = red_left self
        /\ white_left self2 = white_left self - Z.of_nat (length captured))
    /\ (color (heap self piece) = PLAYER_COLOR_TOP ->
        white_left self2 = white_left self
        /\ red_left self2 = red_left self - Z.of_nat (length captured)).
Proof.
  intros Hinv Hlive Hrun Hk.
  pose proof Hinv as (Hgrid & Hpos & _).
  pose proof Hlive as [Hp Hsrc].
  destruct (get_valid_moves_terminates self piece Hgrid Hp) as (m' & Hc & Hm).
  rewrite Hrun in Hm. apply Ok_inj in Hm. subst m'.
  (* the destination is an empty cell of the board *)
  destruct (get_valid_moves_entries _ _ _ _ _ Hc Hk) as (s & st & _ & Hw).
  apply written_empty in Hw. simpl in Hw.
  apply get_piece_checked_Ok in Hw as [Hrc Hdst].
  (* the captured pieces are live, distinct and of the other color *)
  destruct (capture_list_live _ _ _ _ _ Hpos Hc Hk) as (_ & Hnd & Hcap).
  (* the move *)
  destruct (move_inv self piece r c Hinv Hlive Hrc Hdst)
    as (self1 & Hrun1 & Hinv1).
  destruct (move_swap self piece r c Hgrid Hrc Hp)
    as (dst & src & self1' & Hdst' & Hsrc' & Hrun1' & _ & Hget1 & _
        & Hheap1 & Hrl1 & Hwl1 & _).
  rewrite Hrun1 in Hrun1'. apply Ok_inj in Hrun1'. subst self1'.
  rewrite Hdst in Hdst'. rewrite Hsrc in Hsrc'. simplify_eq.
  assert (forall q, q ∈ captured ->
            q <> piece /\ heap self1 q = heap self q /\ live self1 q)
    as Hcap1.
  { intros q Hq. destruct (Hcap q Hq) as [[[Hqr Hqc] Hqget] Hcl].
    assert (q <> piece) as Hne by (intros ->; done).
    assert (heap self1 q = heap self q) as Hsame
      by (by rewrite Hheap1, decide_False).
    split; [done|]. split; [done|]. unfold live. rewrite Hsame.
    split; [done|]. rewrite Hget1 by lia.
    rewrite !decide_False; [done|..].
    - intros [Heq1 Heq2]. rewrite Heq1, Heq2 in Hqget. congruence.
    - intros [Heq1 Heq2]. rewrite Heq1, Heq2 in Hqget. congruence. }
  assert (get_piece self1 r c = Ok (Some piece)) as Hat1.
  { destruct Hrc as [? ?]. rewrite Hget1 by lia. by rewrite decide_True. }
  assert (row (heap self1 piece) = r /\ col (heap self1 piece) = c)
    as [Hrow1 Hcol1].
  { rewrite Hheap1, decide_True by done. unfold moved_piece.
    by destruct (edge_row r). }
  (* the removal *)
  assert (Forall (live self1) captured) as Hlive1.
  { apply Forall_forall. intros q Hq. by apply Hcap1. }
  destruct (remove_inv captured self1 Hinv1 Hlive1 Hnd)
    as (self2 & Hrun2 & Hinv2).
  destruct (remove_spec captured self1) as
    (self2' & Hrun2' & Hheap2 & _ & Hget2 & Hrl2 & Hwl2 & _).
  { eapply Forall_impl; [exact Hlive1|]. simpl.
    intros q [[[? _] [? _]] ?]. eauto. }
  rewrite Hrun2 in Hrun2'. apply Ok_inj in Hrun2'. subst self2'.
  exists self1, self2. split; [done|]. split; [done|]. split; [done|].
  assert (get_piece self2 r c = Ok (Some piece)) as Hat2.
  { destruct Hrc as [? ?]. rewrite Hget2 by lia.
    rewrite decide_False; [done|].
    intros (q & Hq & Hr & Hcc)%Exists_exists.
    destruct (Hcap1 q Hq) as (Hne & _ & [_ Hqlive]).
    rewrite <- Hr, <- Hcc, Hat1 in Hqlive. congruence. }
  split; [|split; [by rewrite Hheap2|split; [by rewrite Hheap2|]]].
  { unfold live. rewrite Hheap2, Hrow1, Hcol1. by split. }
  split.
  { apply Forall_forall. intros q Hq [[[? _] [? _]] Hq2].
    rewrite Hheap2, Hget2 in Hq2 by (rewrite <- ?Hheap2; lia).
    rewrite decide_True in Hq2; [done|].
    apply Exists_exists. by exists q. }
  assert (forall cl,
            count_color self1 cl captured = count_color self cl captured)
    as Hcount.
  { intros cl. apply count_color_ext. apply Forall_forall. intros q Hq.
    by destruct (Hcap1 q Hq) as (_ & -> & _). }
  rewrite !Hcount in Hrl2, Hwl2.
  assert (Forall (fun q => color (heap self q) <> color (heap self piece))
            captured) as Hother.
  { apply Forall_forall. intros q Hq. by apply Hcap. }
  split; intros Hcl; rewrite Hcl in Hother.
  - rewrite (count_color_none self PLAYER_COLOR_BOTTOM) in Hrl2 by done.
    rewrite (count_color_all self PLAYER_COLOR_TOP) in Hwl2.
    + lia.
    + eapply Forall_impl; [exact Hother|]. simpl.
      intros q Hq. by destruct (color (heap self q)).
  - rewrite (count_color_none self PLAYER_COLOR_TOP) in Hwl2 by done.
    rewrite (count_color_all self PLAYER_COLOR_BOTTOM) in Hrl2.
    + lia.
    + eapply Forall_impl; [exact Hother|]. simpl.
      intros q Hq. by destruct (color (heap self q)).
Qed.

Lemma move_then_remove_captured_witness :
  exists self1 self2,
    move triple_jump_up 0%nat 1 0 = Ok self1
    /\ remove self1 [3%nat; 2%nat] = Ok self2
    /\ board_inv self2
    /\ live self2 0%nat
    /\ row (heap self2 0%nat) = 1 /\ col (heap self2 0%nat) = 0
    /\ Forall (fun q => ~ live self2 q) [3%nat; 2%nat]
    /\ (color (heap triple_jump_up 0%nat) = PLAYER_COLOR_BOTTOM ->
        red_left self2 = red_left triple_jump_up
        /\ white_left self2
           = white_left triple_jump_up
             - Z.of_nat (length [3%nat; 2%nat]))
    /\ (color (heap triple_jump_up 0%nat) = PLAYER_COLOR_TOP ->
        white_left self2 = white_left triple_jump_up
        /\ red_left self2
           = red_left triple_jump_up - Z.of_nat (length [3%nat; 2%nat])).
Proof.
  apply (move_then_remove_captured triple_jump_up 0%nat
           (match get_valid_moves triple_jump_up 0%nat with
            | Ok m => m | _ => ∅ end) 1 0 [3%nat; 2%nat]).
  - exact triple_jump_up_inv.
  - by vm_compute.
  - vm_compute. reflexivity.
  - vm_compute. reflexivity.
Defined.

(** * Indexing the grid *)

Lemma py_index_wrap len i :
  0 < len ->
  py_index len i
  = if (- len <=? i) && (i <? len) then Some (Z.to_nat (i `mod` len))
    else None.
Proof.
  intros Hlen. unfold py_index.
  destruct (i <? 0) eqn:Hneg.
  - destruct (- len <=? i) eqn:Hlo; simpl.
    + replace (i <? len) with true by lia.
      replace (0 <=? i + len) with true by lia.
      replace (i + len <? len) with true by lia. simpl. do 2 f_equal.
      apply (Z.mod_unique i len (-1)); lia.
    + replace (0 <=? i + len) with false by lia. done.
  - replace (- len <=? i) with true by lia.
    replace (0 <=? i) with true by lia. simpl.
    destruct (i <? len) eqn:Hhi; [|done].
    by rewrite Z.mod_small by lia.
Qed.

(** X16: [get_piece] does no bounds checking of its own.  On a full grid
    it returns a cell for indices from -8 to 7, a negative index counting
    from the far edge ([get_piece(-1, -1)] is the cell (7,7)), and raises
    [IndexError] for every other index. *)
Theorem get_piece_indices self r c :
  full_grid self ->
  (- ROWS <= r < ROWS /\ - COLS <= c < COLS ->
   on_board (r `mod` ROWS) (c `mod` COLS)
   /\ exists x, get_piece self r c = Ok x
                /\ get_piece self (r `mod` ROWS) (c `mod` COLS) = Ok x)
  /\ (~ (- ROWS <= r < ROWS /\ - COLS <= c < COLS) ->
      get_piece self r c = Raise IndexError).
Proof.
  intros [Hrows Hcols].
  assert (forall (A : Type) (l : list A) n i, length l = Z.to_nat n -> 0 < n ->
            getitem l i
            = if (- n <=? i) && (i <? n)
              then match l !! Z.to_nat (i `mod` n) with
                   | Some x => Ok x | None => Raise IndexError
                   end
              else Raise IndexError) as Hget.
  { intros A l n i Hl Hn. unfold getitem.
    rewrite Hl, Z2Nat.id, py_index_wrap by lia.
    by destruct ((- n <=? i) && (i <? n)). }
  assert (forall n i, 0 < n -> 0 <= i `mod` n < n) as Hmod
    by (intros; by apply Z.mod_pos_bound).
  assert (forall n i, 0 < n -> (i `mod` n) `mod` n = i `mod` n) as Hmm
    by (intros; apply Z.mod_mod; lia).
  unfold get_piece, grid_get, on_board.
  rewrite !(Hget _ (board self) ROWS) by done.
  rewrite Hmm by done.
  pose proof (Hmod ROWS r eq_refl) as Hr.
  pose proof (Hmod COLS c eq_refl) as Hc.
  replace ((- ROWS <=? r `mod` ROWS) && (r `mod` ROWS <? ROWS)) with true
    by (symmetry; apply andb_true_iff; unfold ROWS in *; lia).
  destruct (lookup_lt_is_Some_2 (board self) (Z.to_nat (r `mod` ROWS)))
    as [l Hl]; [unfold ROWS in *; lia|].
  rewrite Hl. simpl.
  pose proof (Forall_lookup_1 _ _ _ _ Hcols Hl) as Hlen. simpl in Hlen.
  rewrite !(Hget _ l COLS) by done. rewrite Hmm by done.
  replace ((- COLS <=? c `mod` COLS) && (c `mod` COLS <? COLS)) with true
    by (symmetry; apply andb_true_iff; unfold COLS in *; lia).
  destruct (lookup_lt_is_Some_2 l (Z.to_nat (c `mod` COLS)))
    as [x Hx]; [unfold COLS in *; lia|].
  rewrite Hx. split.
  - intros [Hrr Hcc]. split; [done|].
    replace ((- ROWS <=? r) && (r <? ROWS)) with true
      by (symmetry; apply andb_true_iff; lia). simpl.
    rewrite (Hget _ l COLS) by done.
    replace ((- COLS <=? c) && (c <? COLS)) with true
      by (symmetry; apply andb_true_iff; lia). rewrite Hx. eauto.
  - intros Hout.
    destruct ((- ROWS <=? r) && (r <? ROWS)) eqn:Hb1; [|done]. simpl.
    rewrite (Hget _ l COLS) by done.
    destruct ((- COLS <=? c) && (c <? COLS)) eqn:Hb2; [|done].
    apply andb_true_iff in Hb1, Hb2. exfalso. apply Hout. lia.
Qed.

Lemma get_piece_indices_witness :
  on_board ((-1) `mod` ROWS) ((-2) `mod` COLS)
  /\ exists x, get_piece initial_board (-1) (-2) = Ok x
               /\ get_piece initial_board ((-1) `mod` ROWS) ((-2) `mod` COLS)
                  = Ok x.
Proof.
  apply (proj1 (get_piece_indices initial_board (-1) (-2) full_grid_initial)).
  unfold ROWS, COLS. lia.
Defined.

(** * Left and right are mirror images *)

Lemma mirror_col_involutive c : mirror_col (mirror_col c) = c.
Proof. unfold mirror_col. lia. Qed.

Lemma off_board_flip s c : off_board (flip s) (mirror_col c) = off_board s c.
Proof. destruct s; simpl; unfold mirror_col, COLS; lia. Qed.

Lemma next_col_flip s c :
  next_col (flip s) (mirror_col c) = mirror_col (next_col s c).
Proof. destruct s; simpl; unfold mirror_col; lia. Qed.

Lemma written_ext read read' color_of color_of' cl s start stop step c sk k v :
  (forall r c, read r c = read' r c) ->
  (forall q, color_of q = color_of' q) ->
  written read color_of cl s start stop step c sk k v ->
  written read' color_of' cl s start stop step c sk k v.
Proof.
  intros Hread Hcol.
  induction 1 as [s start stop step c Hspan Hoff Hrd
                 |s start stop step c skipped q Hspan Hoff Hrd Hq Hoff' Hrd'
                 |s start stop step c skipped q s' k v Hspan Hoff Hrd Hq
                    Hoff' Hrd' _ IH].
  - apply written_move; [done..|]. by rewrite <- Hread.
  - apply written_jump; rewrite <- ?Hread, <- ?Hcol; done.
  - eapply written_chain; rewrite <- ?Hread, <- ?Hcol; done.
Qed.

Lemma written_mirror read color_of cl s start stop step c sk k v :
  written read color_of cl s start stop step c sk k v ->
  written (fun r c => read r (mirror_col c)) color_of cl (flip s)
    start stop step (mirror_col c) sk (k.1, mirror_col k.2) v.
Proof.
  induction 1 as [s start stop step c Hspan Hoff Hrd
                 |s start stop step c skipped q Hspan Hoff Hrd Hq Hoff' Hrd'
                 |s start stop step c skipped q s' k v Hspan Hoff Hrd Hq
                    Hoff' Hrd' _ IH]; simpl.
  - apply written_move; [done|by rewrite off_board_flip|].
    by rewrite mirror_col_involutive.
  - rewrite <- next_col_flip.
    apply written_jump; rewrite ?next_col_flip, ?off_board_flip,
      ?mirror_col_involutive; done.
  - eapply (written_chain (flip s) _ _ _ _ _ q (flip s'));
      rewrite ?next_col_flip, ?off_board_flip, ?mirror_col_involutive;
      done.
Qed.

Lemma get_piece_checked_mirror self r c :
  full_grid self ->
  get_piece_checked (mirror_board self) r c
  = get_piece_checked self r (mirror_col c).
Proof.
  intros [Hrows Hcols]. unfold get_piece_checked, mirror_col, COLS.
  destruct ((0 <=? r) && (r <? ROWS) && (0 <=? c) && (c <? 8)) eqn:Hb.
  - repeat (apply andb_true_iff in Hb as [Hb ?]).
    replace ((0 <=? r) && (r <? ROWS) && (0 <=? 8 - 1 - c)
             && (8 - 1 - c <? 8)) with true
      by (symmetry; rewrite !andb_true_iff; lia).
    destruct (lookup_lt_is_Some_2 (board self) (Z.to_nat r)) as [l Hl];
      [unfold ROWS in *; lia|].
    pose proof (Forall_lookup_1 _ _ _ _ Hcols Hl) as Hlen. simpl in Hlen.
    unfold COLS in Hlen.
    destruct (lookup_lt_is_Some_2 l (Z.to_nat (8 - 1 - c))) as [x Hx];
      [lia|].
    transitivity (Ok (A := cell) x); [|symmetry].
    + apply grid_get_nonneg; [lia..|]. exists (reverse l). simpl.
      rewrite list_lookup_fmap, Hl. split; [done|].
      rewrite reverse_lookup by lia. rewrite <- Hx. f_equal. lia.
    + apply grid_get_nonneg; [lia..|]. eauto.
  - replace ((0 <=? r) && (r <? ROWS) && (0 <=? 8 - 1 - c)
             && (8 - 1 - c <? 8)) with false; [done|].
    symmetry. rewrite !andb_false_iff in *. lia.
Qed.

Lemma full_grid_mirror self : full_grid self -> full_grid (mirror_board self).
Proof.
  intros [Hrows Hcols]. split; simpl.
  - by rewrite length_fmap.
  - apply Forall_fmap. eapply Forall_impl; [exact Hcols|]. simpl.
    intros l Hl. by rewrite length_reverse.
Qed.

(** One half of the mirror property, for two boards that are mirror images
    of each other. *)
Lemma mirror_keys self1 self2 piece m1 m2 r c :
  (forall r c, get_piece_checked self2 r c
               = get_piece_checked self1 r (mirror_col c)) ->
  (forall q, color (heap self2 q) = color (heap self1 q)) ->
  row (heap self2 piece) = row (heap self1 piece) ->
  col (heap self2 piece) = mirror_col (col (heap self1 piece)) ->
  king (heap self2 piece) = king (heap self1 piece) ->
  get_valid_moves_checked self1 piece = Ok m1 ->
  get_valid_moves_checked self2 piece = Ok m2 ->
  is_Some (m1 !! (r, c)) -> is_Some (m2 !! (r, mirror_col c)).
Proof.
  intros Hread Hcol Hrow Hcc Hking Hrun1 Hrun2 [v Hv].
  destruct (get_valid_moves_entries _ _ _ _ _ Hrun1 Hv)
    as (s & step & Hal & Hw).
  apply written_mirror in Hw. simpl in Hw.
  eapply (written_ext _ (get_piece_checked self2) _ (color_in self2)) in Hw;
    [|by intros; rewrite Hread|by intros; unfold color_in; rewrite Hcol].
  eapply (get_valid_moves_with_complete (get_piece_checked self2)
            (color_in self2) (heap self2 piece) m2 (flip s) step);
    [exact Hrun2| |].
  - unfold allowed in *. rewrite Hcol, Hking. exact Hal.
  - rewrite Hcol, Hrow, Hcc.
    replace (mirror_col (col (heap self1 piece)) + dcol (flip s))
      with (mirror_col (col (heap self1 piece) + dcol s))
      by (destruct s; unfold mirror_col; simpl; lia).
    exact Hw.
Qed.

(** X17: the two traversal procedures are mirror images of each other: a
    cell is a destination of a piece exactly when the mirrored cell is a
    destination of that piece on the mirrored board. *)
Theorem mirror_image_destinations self piece :
  full_grid self ->
  on_board (row (heap self piece)) (col (heap self piece)) ->
  exists m m',
    get_valid_moves self piece = Ok m
    /\ get_valid_moves (mirror_board self) piece = Ok m'
    /\ forall r c, is_Some (m' !! (r, mirror_col c)) <-> is_Some (m !! (r, c)).
Proof.
  intros Hgrid Hp.
  destruct (get_valid_moves_terminates self piece Hgrid Hp) as (m & Hc & Hm).
  destruct (get_valid_moves_terminates (mirror_board self) piece)
    as (m' & Hc' & Hm').
  { by apply full_grid_mirror. }
  { destruct Hp as [Hr Hcol]. split; [done|]. simpl.
    unfold mirror_col, COLS in *. lia. }
  exists m, m'. split; [done|]. split; [done|]. intros r c. split.
  - intros Hk. rewrite <- (mirror_col_involutive c).
    eapply (mirror_keys (mirror_board self) self piece m' m);
      [| | | | |exact Hc'|exact Hc|exact Hk]; simpl; try done.
    + intros r' c'. rewrite get_piece_checked_mirror by done.
      by rewrite mirror_col_involutive.
    + by rewrite mirror_col_involutive.
  - eapply (mirror_keys self (mirror_board self) piece m m');
      [| | | | |exact Hc|exact Hc']; simpl; try done.
    intros r' c'. by apply get_piece_checked_mirror.
Qed.

Lemma mirror_image_destinations_witness :
  exists m m',
    get_valid_moves double_jump_up 0%nat = Ok m
    /\ get_valid_moves (mirror_board double_jump_up) 0%nat = Ok m'
    /\ forall r c, is_Some (m' !! (r, mirror_col c)) <-> is_Some (m !! (r, c)).
Proof.
  apply (mirror_image_destinations double_jump_up 0%nat).
  - apply full_grid_example.
  - unfold on_board, ROWS, COLS. simpl. lia.
Defined.

(** * Drawing *)

Lemma foldM_app_flat_map {A B} (f : list B -> A -> result (list B))
    (g : A -> list B) (l : list A) :
  (forall win x, x ∈ l -> f win x = Ok (win ++ g x)) ->
  forall win, foldM f l win = Ok (win ++ flat_map g l).
Proof.
  induction l as [|x l IH]; intros Hf win; simpl.
  - by rewrite app_nil_r.
  - rewrite Hf by apply list_elem_of_here. simpl.
    rewrite IH by (intros; apply Hf; by apply list_elem_of_further).
    by rewrite (assoc_L (++)).
Qed.

Lemma flat_map_singleton {A B} (f : A -> B) (l : list A) :
  flat_map (fun x => [f x]) l = map f l.
Proof. induction l; simpl; congruence. Qed.

Section DrawingFacts.
Variable rgb : Type.
Variables BOARD_COLOR1 BOARD_COLOR2 : rgb.
Variable SQUARE_SIZE : Z.

Lemma draw_squares_eq win :
  draw_squares rgb BOARD_COLOR1 BOARD_COLOR2 SQUARE_SIZE win
  = Ok (win ++ Fill BOARD_COLOR1
          :: map (fun k => Rect BOARD_COLOR2 (k.1 * SQUARE_SIZE)
                             (k.2 * SQUARE_SIZE) SQUARE_SIZE SQUARE_SIZE)
               painted_cells).
Proof.
  unfold draw_squares.
  change (py_range 0 ROWS 1) with (Ok (A := list Z) (range_from 8 0 1)).
  cbn [mbind result_bind].
  rewrite (foldM_app_flat_map _
             (fun r => map (fun c => Rect BOARD_COLOR2 (r * SQUARE_SIZE)
                                       (c * SQUARE_SIZE) SQUARE_SIZE
                                       SQUARE_SIZE)
                         (range_from 4 (r `mod` 2) 2))).
  - rewrite <- (assoc_L (++)). reflexivity.
  - intros w r Hr.
    assert (py_range (r `mod` 2) COLS 2
            = Ok (range_from 4 (r `mod` 2) 2)) as ->.
    { assert (r `mod` 2 = 0 \/ r `mod` 2 = 1) as [-> | ->]
        by (pose proof (Z.mod_pos_bound r 2); lia); reflexivity. }
    cbn [mbind result_bind].
    rewrite (foldM_app_flat_map _
               (fun c => [Rect BOARD_COLOR2 (r * SQUARE_SIZE)
                            (c * SQUARE_SIZE) SQUARE_SIZE SQUARE_SIZE]))
      by done.
    by rewrite flat_map_singleton.
Qed.
End DrawingFacts.

Lemma painted_cells_spec r c :
  (r, c) ∈ painted_cells <-> on_board r c /\ c `mod` 2 = r `mod` 2.
Proof.
  split.
  - intros Hin. set (l := painted_cells) in Hin. vm_compute in l. subst l.
    repeat (apply elem_of_cons in Hin as [[= -> ->]|Hin];
            [unfold on_board, ROWS, COLS; split; [lia|reflexivity]|]).
    by apply elem_of_nil in Hin.
  - intros [[Hr Hc] Hpar]. unfold ROWS, COLS in *.
    assert (r = 0 \/ r = 1 \/ r = 2 \/ r = 3 \/ r = 4 \/ r = 5 \/ r = 6
            \/ r = 7) as Hr' by lia.
    assert (c = 0 \/ c = 1 \/ c = 2 \/ c = 3 \/ c = 4 \/ c = 5 \/ c = 6
            \/ c = 7) as Hc' by lia.
    destruct Hr' as [->|[->|[->|[->|[->|[->|[->| ->]]]]]]];
      destruct Hc' as [->|[->|[->|[->|[->|[->|[->| ->]]]]]]];
      try (by vm_compute in Hpar);
      set (l := painted_cells); vm_compute in l; subst l;
      repeat (first [apply list_elem_of_here | apply list_elem_of_further]).
Qed.

Lemma NoDup_painted_cells : NoDup painted_cells.
Proof. apply (bool_decide_unpack _). vm_compute. exact I. Qed.

(** X18: [draw_squares] fills the window with the first board color and
    then draws, in the second color, one square of side [SQUARE_SIZE] at
    [(row * SQUARE_SIZE, col * SQUARE_SIZE)] for each of the 32 cells with
    [col % 2 == row % 2], each once and nothing else; no cell on which
    [create_board] puts a piece is among them, read either way round. *)
Theorem draw_squares_cells (rgb : Type) (BOARD_COLOR1 BOARD_COLOR2 : rgb)
    (SQUARE_SIZE : Z) (win : list (draw_call rgb)) :
  draw_squares rgb BOARD_COLOR1 BOARD_COLOR2 SQUARE_SIZE win
  = Ok (win ++ Fill BOARD_COLOR1
          :: map (fun k => Rect BOARD_COLOR2 (k.1 * SQUARE_SIZE)
                             (k.2 * SQUARE_SIZE) SQUARE_SIZE SQUARE_SIZE)
               painted_cells)
  /\ NoDup painted_cells
  /\ length painted_cells = 32%nat
  /\ (forall r c, (r, c) ∈ painted_cells
                  <-> on_board r c /\ c `mod` 2 = r `mod` 2)
  /\ (forall r c q, on_board r c ->
        get_piece initial_board r c = Ok (Some q) ->
        ((r, c) ∉ painted_cells) /\ ((c, r) ∉ painted_cells)).
Proof.
  split; [apply draw_squares_eq|]. split; [exact NoDup_painted_cells|].
  split; [reflexivity|]. split; [exact painted_cells_spec|].
  intros r c q Hrc Hq.
  pose proof (initial_board_cells r c Hrc) as Hcell.
  unfold initial_cell in Hcell. revert Hq Hcell.
  generalize initial_board. intros b Hq Hcell.
  destruct (c `mod` 2 =? (r + 1) `mod` 2) eqn:Hpar; [|congruence].
  assert (c `mod` 2 <> r `mod` 2) as Hne.
  { apply Z.eqb_eq in Hpar. rewrite Hpar.
    pose proof (Z.mod_pos_bound r 2). pose proof (Z.mod_pos_bound (r + 1) 2).
    rewrite (Z.add_mod r 1 2) by lia.
    assert (r `mod` 2 = 0 \/ r `mod` 2 = 1) as [-> | ->] by lia; done. }
  split; intros [_ Hp]%painted_cells_spec; congruence.
Qed.

Lemma draw_squares_cells_witness :
  on_board 0 1 /\ get_piece initial_board 0 1 = Ok (Some 0%nat)
  /\ ((0, 1) ∉ painted_cells) /\ ((1, 0) ∉ painted_cells).
Proof.
  assert (on_board 0 1) as Hon by (unfold on_board, ROWS, COLS; lia).
  assert (get_piece initial_board 0 1 = Ok (Some 0%nat)) as Hget
    by (vm_compute; reflexivity).
  split; [exact Hon|]. split; [exact Hget|].
  exact (proj2 (proj2 (proj2 (proj2
           (draw_squares_cells unit tt tt 100 [])))) 0 1 0%nat Hon Hget).
Defined.

(** * Drawing the pieces *)

Section DrawPieces.
Variable rgb : Type.
Variable self : Board.

Lemma draw_cols r l :
  0 <= r ->
  board self !! Z.to_nat r = Some l ->
  forall n start (win : list (draw_call rgb)),
  0 <= start ->
  (Z.to_nat start + n = length l)%nat ->
  foldM (fun win c =>
           piece ← get_piece self r c;
           match piece with
           | Some q => Ok (win ++ [PieceDraw q])
           | None => Ok win
           end) (range_from n start 1) win
  = Ok (win ++ map PieceDraw (flat_map cell_refs (drop (Z.to_nat start) l))).
Proof.
  intros Hr Hl. induction n as [|n IH]; intros start win Hstart Hlen; simpl.
  - rewrite drop_ge by lia. simpl. by rewrite app_nil_r.
  - destruct (lookup_lt_is_Some_2 l (Z.to_nat start)) as [x Hx]; [lia|].
    assert (get_piece self r start = Ok x) as ->
      by (apply grid_get_nonneg; eauto).
    rewrite (drop_S _ _ _ Hx). simpl.
    replace (S (Z.to_nat start)) with (Z.to_nat (start + 1)) by lia.
    destruct x as [q|]; simpl; rewrite IH by lia; [|done].
    by rewrite <- (assoc_L (++)).
Qed.

Lemma draw_rows :
  Forall (fun l => length l = Z.to_nat COLS) (board self) ->
  forall n start (win : list (draw_call rgb)),
  0 <= start ->
  (Z.to_nat start + n = length (board self))%nat ->
  foldM (fun win r =>
           cols ← py_range 0 COLS 1;
           foldM (fun win c =>
                    piece ← get_piece self r c;
                    match piece with
                    | Some q => Ok (win ++ [PieceDraw q])
                    | None => Ok win
                    end) cols win) (range_from n start 1) win
  = Ok (win ++ map PieceDraw
                 (flat_map (flat_map cell_refs)
                    (drop (Z.to_nat start) (board self)))).
Proof.
  intros Hcols. induction n as [|n IH]; intros start win Hstart Hlen.
  - simpl. rewrite drop_ge by lia. simpl. by rewrite app_nil_r.
  - destruct (lookup_lt_is_Some_2 (board self) (Z.to_nat start))
      as [l Hl]; [lia|].
    pose proof (Forall_lookup_1 _ _ _ _ Hcols Hl) as Hll. simpl in Hll.
    cbn [range_from foldM].
    change (py_range 0 COLS 1) with (Ok (A := list Z) (range_from 8 0 1)).
    cbn [mbind result_bind].
    rewrite (draw_cols start l Hstart Hl 8 0) by (rewrite ?Hll; done).
    cbn [mbind result_bind].
    replace (Z.to_nat 0) with O by done. rewrite drop_0.
    rewrite (drop_S _ _ _ Hl). simpl.
    replace (S (Z.to_nat start)) with (Z.to_nat (start + 1)) by lia.
    rewrite IH by lia. by rewrite map_app, <- (assoc_L (++)).
Qed.
End DrawPieces.

Lemma elem_of_cell_refs x q : q ∈ cell_refs x <-> x = Some q.
Proof.
  destruct x as [q'|]; simpl.
  - rewrite list_elem_of_singleton. split; [by intros ->|by intros [= ->]].
  - rewrite elem_of_nil. split; [done|]. done.
Qed.

Lemma elem_of_grid_pieces self q :
  full_grid self ->
  q ∈ grid_pieces self
  <-> exists r c, on_board r c /\ get_piece self r c = Ok (Some q).
Proof.
  intros Hgrid. unfold grid_pieces. rewrite elem_of_flat_map_lookup. split.
  - intros (i & l & Hl & Hq).
    apply elem_of_flat_map_lookup in Hq as (j & x & Hx & Hq).
    apply elem_of_cell_refs in Hq as ->.
    destruct (cell_lookup self i j l _ Hgrid Hl Hx) as [Hon Hget].
    by exists (Z.of_nat i), (Z.of_nat j).
  - intros (r & c & [Hr Hc] & Hget).
    apply grid_get_nonneg in Hget as (l & Hl & Hx); [|lia..].
    exists (Z.to_nat r), l. split; [done|].
    apply elem_of_flat_map_lookup. exists (Z.to_nat c), (Some q).
    split; [done|]. by apply elem_of_cell_refs.
Qed.

Lemma NoDup_grid_pieces self :
  full_grid self -> positions_agree self -> NoDup (grid_pieces self).
Proof.
  intros Hgrid Hpos. unfold grid_pieces.
  apply NoDup_flat_map_lookup.
  - intros i l Hl. apply NoDup_flat_map_lookup.
    + intros j [q|] _; simpl; [apply NoDup_singleton|apply NoDup_nil_2].
    + intros j j' x y q Hx Hy Hq Hq'.
      apply elem_of_cell_refs in Hq as ->.
      apply elem_of_cell_refs in Hq' as ->.
      destruct (cell_lookup self i j l _ Hgrid Hl Hx) as [Hon Hget].
      destruct (cell_lookup self i j' l _ Hgrid Hl Hy) as [Hon' Hget'].
      destruct (Hpos _ _ _ Hon Hget) as [_ Hc].
      destruct (Hpos _ _ _ Hon' Hget') as [_ Hc']. lia.
  - intros i i' l l' q Hl Hl' Hq Hq'.
    apply elem_of_flat_map_lookup in Hq as (j & x & Hx & Hq).
    apply elem_of_flat_map_lookup in Hq' as (j' & y & Hy & Hq').
    apply elem_of_cell_refs in Hq as ->.
    apply elem_of_cell_refs in Hq' as ->.
    destruct (cell_lookup self i j l _ Hgrid Hl Hx) as [Hon Hget].
    destruct (cell_lookup self i' j' l' _ Hgrid Hl' Hy) as [Hon' Hget'].
    destruct (Hpos _ _ _ Hon Hget) as [Hr _].
    destruct (Hpos _ _ _ Hon' Hget') as [Hr' _]. lia.
Qed.

Lemma length_grid_pieces self :
  length (grid_pieces self)
  = (length (get_all_pieces self PLAYER_COLOR_TOP)
     + length (get_all_pieces self PLAYER_COLOR_BOTTOM))%nat.
Proof.
  rewrite !get_all_pieces_eq. unfold grid_pieces.
  induction (board self) as [|l g IH]; simpl; [done|].
  rewrite !length_app, IH.
  assert (length (flat_map cell_refs l)
          = (length (flat_map (cell_pieces (color_in self) PLAYER_COLOR_TOP) l)
             + length (flat_map
                         (cell_pieces (color_in self) PLAYER_COLOR_BOTTOM) l))
            %nat) as ->; [|lia].
  induction l as [|x l IHl]; simpl; [done|].
  rewrite !length_app, IHl.
  destruct x as [q|]; simpl; [|lia].
  destruct (color_in self q); simpl; lia.
Qed.

(** X19: on a full grid [draw] first makes the calls of [draw_squares] and
    then calls [piece.draw] for the pieces on the grid in row-major order:
    for every piece standing on a cell of the board and nothing else, once
    for each piece when the pieces record their cells, and as many times as
    the two live-piece counters add up to when the invariant holds. *)
Theorem draw_calls (rgb : Type) (BOARD_COLOR1 BOARD_COLOR2 : rgb)
    (SQUARE_SIZE : Z) self (win : list (draw_call rgb)) :
  full_grid self ->
  exists squares,
    draw_squares rgb BOARD_COLOR1 BOARD_COLOR2 SQUARE_SIZE win = Ok squares
    /\ draw rgb BOARD_COLOR1 BOARD_COLOR2 SQUARE_SIZE self win
       = Ok (squares ++ map PieceDraw (grid_pieces self))
    /\ (forall q, q ∈ grid_pieces self
                  <-> exists r c, on_board r c
                                  /\ get_piece self r c = Ok (Some q))
    /\ (positions_agree self -> NoDup (grid_pieces self))
    /\ (board_inv self ->
        Z.of_nat (length (grid_pieces self))
        = red_left self + white_left self).
Proof.
  intros Hgrid. eexists. split; [apply draw_squares_eq|].
  split; [|split; [intros q; by apply elem_of_grid_pieces|split]].
  - unfold draw. rewrite draw_squares_eq. cbn [mbind result_bind].
    change (py_range 0 ROWS 1) with (Ok (A := list Z) (range_from 8 0 1)).
    cbn [mbind result_bind]. destruct Hgrid as [Hrows Hcols].
    rewrite (draw_rows rgb self Hcols 8 0) by (rewrite ?Hrows; done).
    done.
  - intros Hpos. by apply NoDup_grid_pieces.
  - intros (_ & _ & _ & Hred & Hwhite). rewrite length_grid_pieces. lia.
Qed.

Lemma draw_calls_witness :
  exists squares,
    draw_squares unit tt tt 100 [] = Ok squares
    /\ draw unit tt tt 100 initial_board []
       = Ok (squares ++ map PieceDraw (grid_pieces initial_board))
    /\ (forall q, q ∈ grid_pieces initial_board
                  <-> exists r c, on_board r c
                                  /\ get_piece initial_board r c
                                     = Ok (Some q))
    /\ (positions_agree initial_board -> NoDup (grid_pieces initial_board))
    /\ (board_inv initial_board ->
        Z.of_nat (length (grid_pieces initial_board))
        = red_left initial_board + white_left initial_board).
Proof.
  apply (draw_calls unit tt tt 100 initial_board []).
  exact full_grid_initial.
Defined.

(** * The winner and the pieces on the grid *)

(** X20: on a board that satisfies the invariant, [winner] can be read off
    the grid: it is [None] exactly when [get_all_pieces] finds a piece of
    each color, the top color exactly when no bottom-color piece is left,
    and the bottom color exactly when bottom-color pieces are left and no
    top-color piece is. *)
Theorem winner_by_pieces self :
  board_inv self ->
  (winner self = None
   <-> get_all_pieces self PLAYER_COLOR_BOTTOM <> []
       /\ get_all_pieces self PLAYER_COLOR_TOP <> [])
  /\ (winner self = Some PLAYER_COLOR_TOP
      <-> get_all_pieces self PLAYER_COLOR_BOTTOM = [])
  /\ (winner self = Some PLAYER_COLOR_BOTTOM
      <-> get_all_pieces self PLAYER_COLOR_BOTTOM <> []
          /\ get_all_pieces self PLAYER_COLOR_TOP = []).
Proof.
  intros (_ & _ & _ & Hred & Hwhite). unfold winner.
  destruct (get_all_pieces self PLAYER_COLOR_BOTTOM) as [|q l];
    destruct (get_all_pieces self PLAYER_COLOR_TOP) as [|q' l'];
    simpl in Hred, Hwhite.
  - replace (red_left self <=? 0) with true by (symmetry; apply Z.leb_le; lia).
    repeat split; try done; by intros [? ?].
  - replace (red_left self <=? 0) with true by (symmetry; apply Z.leb_le; lia).
    repeat split; try done; by intros [? ?].
  - replace (red_left self <=? 0) with false
      by (symmetry; apply Z.leb_gt; lia).
    replace (white_left self <=? 0) with true
      by (symmetry; apply Z.leb_le; lia).
    repeat split; try done; by intros [? ?].
  - replace (red_left self <=? 0) with false
      by (symmetry; apply Z.leb_gt; lia).
    replace (white_left self <=? 0) with false
      by (symmetry; apply Z.leb_gt; lia).
    repeat split; try done; by intros [? ?].
Qed.

Lemma winner_by_pieces_witness :
  (winner initial_board = None
   <-> get_all_pieces initial_board PLAYER_COLOR_BOTTOM <> []
       /\ get_all_pieces initial_board PLAYER_COLOR_TOP <> [])
  /\ (winner initial_board = Some PLAYER_COLOR_TOP
      <-> get_all_pieces initial_board PLAYER_COLOR_BOTTOM = [])
  /\ (winner initial_board = Some PLAYER_COLOR_BOTTOM
      <-> get_all_pieces initial_board PLAYER_COLOR_BOTTOM <> []
          /\ get_all_pieces initial_board PLAYER_COLOR_TOP = []).
Proof.
  apply (winner_by_pieces initial_board). exact initial_inv.
Defined.
